(** * dnsdist packet cache: a shallow embedding of [pdns/dnsdist-cache.cc]

    The cache stores DNS response packets in [d_shardCount] shards, each a
    hash map from a 32-bit key to a [CacheValue].  This file embeds the
    operations of [DNSDistPacketCache] as executable functions over an
    explicit cache state and proves the properties of the specification
    against them.

    Conventions of the embedding.
    - Unsigned machine integers are [Z] with the wrap-around written where
      the source can wrap ([wrap32], [wrap64]).  [time_t] is signed, its
      overflow is undefined, and it is kept as an exact [Z].
    - A byte is a [Z] in the range 0..255; a packet is a [list byte].
    - [std::unordered_map<uint32_t, CacheValue>] is a [gmap Z CacheValue].
      The order in which C++ iterates over the map is unspecified, so the
      iteration order is a parameter of the development.
    - [time(NULL)] and the outcome of a try-lock are explicit arguments
      ([now], [gotIt]): they are the environment's answers to the call.
    - Exceptions and undefined operations are results in the [result]
      monad. *)

From stdpp Require Import base numbers list gmap.

Local Open Scope Z_scope.

(** ** Machine integers and bytes *)

Definition wrap32 (z : Z) : Z := z mod 2 ^ 32.
Definition wrap64 (z : Z) : Z := z mod 2 ^ 64.

(** [std::numeric_limits<uint32_t>::max()] *)
Definition uint32_max : Z := 2 ^ 32 - 1.

Definition byte := Z.

(** Modelled from the spec: [sizeof(dnsheader)] for the [dnsheader] of
    [dns.hh], which is not part of the sources at hand; the fixed DNS
    header is twelve bytes. *)
Definition sizeof_dnsheader : Z := 12.

(** [sizeof(queryId)] for [uint16_t queryId]. *)
Definition sizeof_queryId : Z := 2.

(** ** Exceptions *)

Inductive exn : Type :=
| range_error        (* thrown by [getKey] *)
| out_of_range       (* thrown by [std::vector::at] *)
| division_by_zero.  (* [%] or [/] with a zero shard count: undefined *)

Inductive result (A : Type) : Type :=
| Ok (a : A)
| Throw (e : exn).
Arguments Ok {A} a.
Arguments Throw {A} e.

#[global] Instance result_ret : MRet result := fun _ a => Ok a.
#[global] Instance result_bind : MBind result := fun _ _ f m =>
  match m with
  | Ok a => f a
  | Throw e => Throw e
  end.

(** [v.at(i)] on a [std::vector]. *)
Definition vector_at {A : Type} (v : list A) (i : Z) : result A :=
  if i <? 0 then Throw out_of_range
  else match v !! Z.to_nat i with
       | Some a => Ok a
       | None => Throw out_of_range
       end.

(** [memcpy(dst + off, src, |src|)] on a buffer held as a list.  The
    callers guarantee that the destination holds [off + |src|] bytes. *)
Definition memcpy (dst : list byte) (off : Z) (src : list byte) : list byte :=
  take (Z.to_nat off) dst ++ src ++ drop (Z.to_nat off + length src) dst.

(** The [n] bytes of [s] that start at offset [off]: the source range of a
    [memcpy(_, s + off, n)]. *)
Definition bytes_from (s : list byte) (off n : Z) : list byte :=
  take (Z.to_nat n) (drop (Z.to_nat off) s).

(** ** DNS names *)

(** Modelled from the spec: [dns_tolower] of [misc.hh], which is not part
    of the sources at hand; it maps the ASCII letters A..Z to a..z. *)
Definition dns_tolower (c : byte) : byte :=
  if (65 <=? c) && (c <=? 90) then c + 32 else c.

(** Modelled from the spec: [toLower] on a [std::string] ([misc.hh]). *)
Definition toLower (s : list byte) : list byte := dns_tolower <$> s.

(** Modelled from the spec: the class [DNSName] of [dnsname.hh], which is
    not part of the sources at hand.  A name is held in its wire format,
    in the case it was received in; [toDNSString] gives those bytes and
    the comparison of two names is case-insensitive (section 4.2). *)
Record DNSName : Type := mkDNSName { d_storage : list byte }.

Definition toDNSString (n : DNSName) : list byte := d_storage n.

Definition DNSName_eqb (a b : DNSName) : bool :=
  bool_decide (toLower (d_storage a) = toLower (d_storage b)).

(** Modelled from the spec: the response codes of [dns.hh] (RFC 1035). *)
Module RCode.
Definition NoError : Z := 0.
Definition FormErr : Z := 1.
Definition ServFail : Z := 2.
Definition NXDomain : Z := 3.
Definition NotImp : Z := 4.
Definition Refused : Z := 5.
End RCode.

(** ** The cache state *)

(** Modelled from the spec: the declarations of [dnsdist-cache.hh], which
    is not part of the sources at hand.  The records below hold the
    members that [dnsdist-cache.cc] reads and writes, under their names
    there, with the types that the constructor and the signatures give
    them: the entry [CacheValue] (section 3, CacheEntry), the shard
    [CacheShard] without its lock, and the cache itself. *)
Record CacheValue : Type := mkCacheValue {
  value : list byte;
  qname : DNSName;
  qtype : Z;
  qclass : Z;
  added : Z;
  validity : Z;
  len : Z;
  tcp : bool
}.

Record CacheShard : Type := mkCacheShard {
  d_map : gmap Z CacheValue;
  d_entriesCount : Z
}.

(** Modelled from the spec: the members of [DNSDistPacketCache] that the
    constructor fixes (section 3, immutable configuration); the class
    declaration is in [dnsdist-cache.hh]. *)
Record Config : Type := mkConfig {
  d_maxEntries : Z;
  d_shardCount : Z;
  d_maxTTL : Z;
  d_tempFailureTTL : Z;
  d_minTTL : Z;
  d_staleTTL : Z;
  d_dontAge : bool;
  d_deferrableInsertLock : bool
}.

(** Modelled from the spec: the statistics counters of
    [DNSDistPacketCache] (section 3), 64-bit unsigned; the class
    declaration is in [dnsdist-cache.hh]. *)
Record Stats : Type := mkStats {
  d_deferredLookups : Z;
  d_deferredInserts : Z;
  d_hits : Z;
  d_misses : Z;
  d_insertCollisions : Z;
  d_lookupCollisions : Z;
  d_ttlTooShorts : Z
}.

Record DNSDistPacketCache : Type := mkCache {
  d_config : Config;
  d_shards : list CacheShard;
  d_expungeIndex : Z;
  d_stats : Stats
}.

Definition set_shards (c : DNSDistPacketCache) (sh : list CacheShard) :=
  mkCache (d_config c) sh (d_expungeIndex c) (d_stats c).

Definition set_expungeIndex (c : DNSDistPacketCache) (i : Z) :=
  mkCache (d_config c) (d_shards c) i (d_stats c).

Definition set_stats (c : DNSDistPacketCache) (s : Stats) :=
  mkCache (d_config c) (d_shards c) (d_expungeIndex c) s.

(** [d_shards[i] = sh] *)
Definition set_shard (c : DNSDistPacketCache) (i : Z) (sh : CacheShard) :=
  set_shards c (<[Z.to_nat i := sh]> (d_shards c)).

(** The increments [d_x++] of the counters. *)
Definition incr_deferredLookups (c : DNSDistPacketCache) :=
  let s := d_stats c in
  set_stats c (mkStats (wrap64 (d_deferredLookups s + 1)) (d_deferredInserts s)
    (d_hits s) (d_misses s) (d_insertCollisions s) (d_lookupCollisions s)
    (d_ttlTooShorts s)).

Definition incr_deferredInserts (c : DNSDistPacketCache) :=
  let s := d_stats c in
  set_stats c (mkStats (d_deferredLookups s) (wrap64 (d_deferredInserts s + 1))
    (d_hits s) (d_misses s) (d_insertCollisions s) (d_lookupCollisions s)
    (d_ttlTooShorts s)).

Definition incr_hits (c : DNSDistPacketCache) :=
  let s := d_stats c in
  set_stats c (mkStats (d_deferredLookups s) (d_deferredInserts s)
    (wrap64 (d_hits s + 1)) (d_misses s) (d_insertCollisions s)
    (d_lookupCollisions s) (d_ttlTooShorts s)).

Definition incr_misses (c : DNSDistPacketCache) :=
  let s := d_stats c in
  set_stats c (mkStats (d_deferredLookups s) (d_deferredInserts s)
    (d_hits s) (wrap64 (d_misses s + 1)) (d_insertCollisions s)
    (d_lookupCollisions s) (d_ttlTooShorts s)).

Definition incr_insertCollisions (c : DNSDistPacketCache) :=
  let s := d_stats c in
  set_stats c (mkStats (d_deferredLookups s) (d_deferredInserts s)
    (d_hits s) (d_misses s) (wrap64 (d_insertCollisions s + 1))
    (d_lookupCollisions s) (d_ttlTooShorts s)).

Definition incr_lookupCollisions (c : DNSDistPacketCache) :=
  let s := d_stats c in
  set_stats c (mkStats (d_deferredLookups s) (d_deferredInserts s)
    (d_hits s) (d_misses s) (d_insertCollisions s)
    (wrap64 (d_lookupCollisions s + 1)) (d_ttlTooShorts s)).

Definition incr_ttlTooShorts (c : DNSDistPacketCache) :=
  let s := d_stats c in
  set_stats c (mkStats (d_deferredLookups s) (d_deferredInserts s)
    (d_hits s) (d_misses s) (d_insertCollisions s) (d_lookupCollisions s)
    (wrap64 (d_ttlTooShorts s + 1))).

(** The constructor: [shards] empty shards and every counter at zero. *)
Definition construct (maxEntries maxTTL minTTL tempFailureTTL staleTTL : Z)
    (dontAge : bool) (shards : Z) (deferrableInsertLock : bool)
    : DNSDistPacketCache :=
  mkCache
    (mkConfig maxEntries shards maxTTL tempFailureTTL minTTL staleTTL dontAge
       deferrableInsertLock)
    (replicate (Z.to_nat shards) (mkCacheShard ∅ 0))
    0
    (mkStats 0 0 0 0 0 0 0).

(** [getShardIndex]: [key % d_shardCount]. *)
Definition getShardIndex (c : DNSDistPacketCache) (key : Z) : result Z :=
  if d_shardCount (d_config c) =? 0 then Throw division_by_zero
  else Ok (key mod d_shardCount (d_config c)).

(** [d_maxEntries / d_shardCount], the capacity of one shard. *)
Definition shardCapacity (c : DNSDistPacketCache) : Z :=
  d_maxEntries (d_config c) / d_shardCount (d_config c).

(** ** [cachedValueMatches] *)

Definition cachedValueMatches (cachedValue : CacheValue) (qname' : DNSName)
    (qtype' qclass' : Z) (tcp' : bool) : bool :=
  if negb (eqb (tcp cachedValue) tcp')
     || negb (qtype cachedValue =? qtype')
     || negb (qclass cachedValue =? qclass')
     || negb (DNSName_eqb (qname cachedValue) qname')
  then false
  else true.

(** ** [insertLocked] *)

(** The shard is [d_shards[shardIndex]], held by reference in the source:
    the changed shard is written back at its index. *)
Definition insertLocked (c : DNSDistPacketCache) (shardIndex : Z)
    (shard : CacheShard) (key : Z) (qname' : DNSName) (qtype' qclass' : Z)
    (tcp' : bool) (newValue : CacheValue) (now newValidity : Z)
    : DNSDistPacketCache :=
  let map := d_map shard in
  (* check again now that we hold the lock to prevent a race *)
  if Z.of_nat (size map) >=? shardCapacity c then c
  else
    match map !! key with
    | None =>
        (* the key was free: the value is inserted *)
        set_shard c shardIndex
          (mkCacheShard (<[key := newValue]> map)
             (wrap64 (d_entriesCount shard + 1)))
    | Some value =>
        (* in case of collision, don't override the existing entry
           except if it has expired *)
        let wasExpired := validity value <=? now in
        if negb wasExpired
           && negb (cachedValueMatches value qname' qtype' qclass' tcp')
        then incr_insertCollisions c
        else
          (* if the existing entry had a longer TTD, keep it *)
          if newValidity <=? validity value then c
          else
            set_shard c shardIndex
              (mkCacheShard (<[key := newValue]> map) (d_entriesCount shard))
    end.

(** ** The query handed to [get] *)

(** Modelled from the spec: the fields of the [DNSQuestion] of
    [dnsdist.hh] (not part of the sources at hand) that the cache reads;
    [dh] points to the packet, which starts with the DNS header and is
    [len] bytes long. *)
Record DNSQuestion : Type := mkDNSQuestion {
  dq_qname : DNSName;
  dq_qtype : Z;
  dq_qclass : Z;
  dq_dh : list byte;
  dq_len : Z;
  dq_tcp : bool
}.

(** What a call to [get] leaves behind: the returned boolean, the response
    buffer, [*responseLen] and [*keyOut] (when [keyOut] is not null). *)
Record Lookup : Type := mkLookup {
  lk_hit : bool;
  lk_response : list byte;
  lk_responseLen : Z;
  lk_keyOut : option Z
}.

(** The response buffer of a hit before it is aged: the caller's query
    identifier, the rest of the cached header and, when the cached packet
    is longer than a header, the caller's qname followed by the rest of
    the cached packet.  These are the [memcpy] calls of [get] in order. *)
Definition spliceHeader (response : list byte) (queryId : byte * byte)
    (v : CacheValue) : list byte :=
  let r1 := memcpy response 0 [queryId.1; queryId.2] in
  memcpy r1 sizeof_queryId
    (bytes_from (value v) sizeof_queryId (sizeof_dnsheader - sizeof_queryId)).

Definition spliceBody (r2 : list byte) (dnsQName : list byte)
    (v : CacheValue) : list byte :=
  let dnsQNameLen := Z.of_nat (length dnsQName) in
  let r3 := memcpy r2 sizeof_dnsheader dnsQName in
  if len v >? sizeof_dnsheader + dnsQNameLen
  then memcpy r3 (sizeof_dnsheader + dnsQNameLen)
         (bytes_from (value v) (sizeof_dnsheader + dnsQNameLen)
            (len v - (sizeof_dnsheader + dnsQNameLen)))
  else r3.

Section Cache.

(** The helpers of other translation units, which the cache only calls:
    the hash [burtle] of [misc.cc] (bytes and initial value to a 32-bit
    value), [getDNSPacketMinTTL] of [dnsparser.cc] (packet and length to
    the least TTL, or [uint32_max]) and [ageDNSPacket] (packet, length
    and seconds to the aged packet). *)
Variable burtle : list byte -> Z -> Z.
Variable getDNSPacketMinTTL : list byte -> Z -> Z.
Variable ageDNSPacket : list byte -> Z -> Z -> list byte.

Definition getMinTTL (packet : list byte) (length : Z) : Z :=
  getDNSPacketMinTTL packet length.

(** *** [getKey] *)

Definition getKey (qname' : list byte) (consumed : Z) (packet : list byte)
    (packetLen : Z) (tcp' : bool) : result Z :=
  let result := 0 in
  (* skip the query ID *)
  if packetLen <? sizeof_dnsheader then Throw range_error
  else
    let result :=
      burtle (bytes_from packet 2 (sizeof_dnsheader - 2)) result in
    let lc := toLower qname' in
    let result := burtle lc result in
    if packetLen <? sizeof_dnsheader + consumed then Throw range_error
    else
      let result :=
        if packetLen >? sizeof_dnsheader + consumed
        then burtle (bytes_from packet (sizeof_dnsheader + consumed)
                       (packetLen - (sizeof_dnsheader + consumed))) result
        else result in
      Ok (burtle [if tcp' then 1 else 0] result).

(** *** [insert] *)

(** The first part of [insert], which settles the lifetime of the new
    entry: [inr minTTL] when the response is to be cached for [minTTL]
    seconds, [inl c'] when [insert] returns without caching and leaves
    the cache as [c']. *)
Definition insertTTL (c : DNSDistPacketCache) (response : list byte)
    (responseLen : Z) (rcode : Z) (tempFailureTTL : option Z)
    : DNSDistPacketCache + Z :=
  if (rcode =? RCode.ServFail) || (rcode =? RCode.Refused) then
    let minTTL := match tempFailureTTL with
                  | None => d_tempFailureTTL (d_config c)
                  | Some t => t
                  end in
    if minTTL =? 0 then inl c else inr minTTL
  else
    let minTTL := getMinTTL response responseLen in
    (* no TTL found, we don't want to cache this *)
    if minTTL =? uint32_max then inl c
    else
      let minTTL := if minTTL >? d_maxTTL (d_config c)
                    then d_maxTTL (d_config c) else minTTL in
      if minTTL <? d_minTTL (d_config c)
      then inl (incr_ttlTooShorts c)
      else inr minTTL.

(** [tempFailureTTL] is the [boost::optional] override; [now] is the
    value of [time(NULL)]; [gotIt] tells whether the try-lock of the
    deferrable path obtained the write lock (the blocking lock of the
    other path always does). *)
Definition insert (c : DNSDistPacketCache) (key : Z) (qname' : DNSName)
    (qtype' qclass' : Z) (response : list byte) (responseLen : Z)
    (tcp' : bool) (rcode : Z) (tempFailureTTL : option Z)
    (now : Z) (gotIt : bool) : result DNSDistPacketCache :=
  if responseLen <? sizeof_dnsheader then Ok c
  else
    match insertTTL c response responseLen rcode tempFailureTTL with
    | inl c' => Ok c'
    | inr minTTL =>
        shardIndex ← getShardIndex c key;
        shard ← vector_at (d_shards c) shardIndex;
        if d_entriesCount shard >=? shardCapacity c then Ok c
        else
          let newValidity := now + minTTL in
          let newValue :=
            {| qname := qname'; qtype := qtype'; qclass := qclass';
               len := responseLen; validity := newValidity; added := now;
               tcp := tcp'; value := bytes_from response 0 responseLen |} in
          if d_deferrableInsertLock (d_config c) then
            if negb gotIt then Ok (incr_deferredInserts c)
            else Ok (insertLocked c shardIndex shard key qname' qtype'
                       qclass' tcp' newValue now newValidity)
          else Ok (insertLocked c shardIndex shard key qname' qtype'
                     qclass' tcp' newValue now newValidity)
    end.

(** *** [get] *)

(** [queryId] is given by its two bytes in memory; [response] is the
    caller's buffer and [responseLen] the value of [*responseLen] at the
    call; [keyOut] is [None] for a null pointer; [gotIt] tells whether
    the try-lock obtained the read lock. *)
Definition get (c : DNSDistPacketCache) (dq : DNSQuestion) (consumed : Z)
    (queryId : byte * byte) (response : list byte) (responseLen : Z)
    (keyOut : option Z) (allowExpired : Z) (skipAging : bool)
    (now : Z) (gotIt : bool) : result (Lookup * DNSDistPacketCache) :=
  let dnsQName := toDNSString (dq_qname dq) in
  key ← getKey dnsQName consumed (dq_dh dq) (dq_len dq) (dq_tcp dq);
  let keyOut := match keyOut with Some _ => Some key | None => None end in
  shardIndex ← getShardIndex c key;
  shard ← vector_at (d_shards c) shardIndex;
  let map := d_map shard in
  if negb gotIt
  then Ok (mkLookup false response responseLen keyOut,
           incr_deferredLookups c)
  else
    match map !! key with
    | None => Ok (mkLookup false response responseLen keyOut, incr_misses c)
    | Some value =>
        if (validity value <? now) && (now - validity value >=? allowExpired)
        then Ok (mkLookup false response responseLen keyOut, incr_misses c)
        else
          let stale := validity value <? now in
          if (responseLen <? len value) || (len value <? sizeof_dnsheader)
          then Ok (mkLookup false response responseLen keyOut, c)
          else
            (* check for collision *)
            if negb (cachedValueMatches value (dq_qname dq) (dq_qtype dq)
                       (dq_qclass dq) (dq_tcp dq))
            then Ok (mkLookup false response responseLen keyOut,
                     incr_lookupCollisions c)
            else
              let response := spliceHeader response queryId value in
              if len value =? sizeof_dnsheader
              then
                (* DNS header only, our work here is done *)
                Ok (mkLookup true response (len value) keyOut, incr_hits c)
              else
                let dnsQNameLen := Z.of_nat (length dnsQName) in
                if len value <? sizeof_dnsheader + dnsQNameLen
                then Ok (mkLookup false response responseLen keyOut, c)
                else
                  let response := spliceBody response dnsQName value in
                  let responseLen := len value in
                  let age :=
                    if negb stale then now - added value
                    else (validity value - added value)
                         - d_staleTTL (d_config c) in
                  let response :=
                    if negb (d_dontAge (d_config c)) && negb skipAging
                    then ageDNSPacket response responseLen age
                    else response in
                  Ok (mkLookup true response responseLen keyOut,
                      incr_hits c)
    end.

(** The response that a hit hands out for an entry longer than a
    header: the spliced packet, aged by [age] seconds unless ageing is
    switched off. *)
Definition agedResponse (c : DNSDistPacketCache) (dq : DNSQuestion)
    (queryId : byte * byte) (response : list byte) (skipAging : bool)
    (v : CacheValue) (age : Z) : list byte :=
  let spliced :=
    spliceBody (spliceHeader response queryId v)
      (toDNSString (dq_qname dq)) v in
  if negb (d_dontAge (d_config c)) && negb skipAging
  then ageDNSPacket spliced (len v) age else spliced.

End Cache.

(** ** Size and eviction *)

(** [getSize]: the loop over [shardIndex] adds the shard counters up.  The
    loop is structural in [unvisited], the number [d_shardCount -
    shardIndex] of shards still to visit. *)
Fixpoint getSizeLoop (unvisited : nat) (shards : list CacheShard)
    (shardIndex count : Z) : result Z :=
  match unvisited with
  | O => Ok count
  | S unvisited' =>
      shard ← vector_at shards shardIndex;
      getSizeLoop unvisited' shards (shardIndex + 1)
        (wrap64 (count + d_entriesCount shard))
  end.

Definition getSize (c : DNSDistPacketCache) : result Z :=
  getSizeLoop (Z.to_nat (d_shardCount (d_config c))) (d_shards c) 0 0.

Definition isFull (c : DNSDistPacketCache) : result bool :=
  size ← getSize c;
  Ok (size >=? d_maxEntries (d_config c)).

Definition getEntriesCount (c : DNSDistPacketCache) : result Z := getSize c.

(** [map.erase(it)] for every iterator of a range. *)
Definition eraseAll (its : list (Z * CacheValue)) (map : gmap Z CacheValue)
    : gmap Z CacheValue :=
  foldr (fun kv m => delete kv.1 m) map its.

Section Eviction.

(** The order in which [begin()] .. [end()] runs over a map. *)
Variable iteration : gmap Z CacheValue -> list (Z * CacheValue).

(** *** [purgeExpired] *)

(** The inner [for] loop over one shard: [its] is what remains of the
    iteration, [toRemove] the deletion budget. *)
Fixpoint purgeScan (now : Z) (its : list (Z * CacheValue))
    (shard : CacheShard) (toRemove : Z) : CacheShard * Z :=
  match its with
  | [] => (shard, toRemove)
  | (k, value) :: its' =>
      if toRemove >? 0 then
        if validity value <? now then
          purgeScan now its'
            (mkCacheShard (delete k (d_map shard))
               (wrap64 (d_entriesCount shard - 1)))
            (toRemove - 1)
        else purgeScan now its' shard toRemove
      else (shard, toRemove)
  end.

(** The [do .. while] loop.  [scannedMaps] counts the passes; the loop
    is structural in [unscanned], the number [d_shardCount -
    scannedMaps] of passes that the test [scannedMaps < d_shardCount]
    still admits, this one included: after a pass the loop goes on when
    budget is left and another pass is admitted.  With no shard at all
    the body still runs once, as a [do .. while] does. *)
Fixpoint purgeLoop (unscanned : nat) (now : Z) (c : DNSDistPacketCache)
    (toRemove scannedMaps : Z) : result (DNSDistPacketCache * Z * Z) :=
  shardIndex ← getShardIndex c (d_expungeIndex c);
  let c := set_expungeIndex c (wrap32 (d_expungeIndex c + 1)) in
  shard ← vector_at (d_shards c) shardIndex;
  let '(shard, toRemove) :=
    purgeScan now (iteration (d_map shard)) shard toRemove in
  let c := set_shard c shardIndex shard in
  let scannedMaps := scannedMaps + 1 in
  match unscanned with
  | S (S _ as unscanned') =>
      if toRemove >? 0
      then purgeLoop unscanned' now c toRemove scannedMaps
      else Ok (c, toRemove, scannedMaps)
  | _ => Ok (c, toRemove, scannedMaps)
  end.

(** [purgeExpired] together with the final values of the locals
    [toRemove] and [scannedMaps] (both 0 when the call returns before
    they are set). *)
Definition purgeExpiredRun (c : DNSDistPacketCache) (upTo now : Z)
    : result (DNSDistPacketCache * Z * Z) :=
  size ← getSize c;
  if upTo >=? size then Ok (c, 0, 0)
  else
    let toRemove := size - upTo in
    purgeLoop (Z.to_nat (d_shardCount (d_config c))) now c toRemove 0.

Definition purgeExpired (c : DNSDistPacketCache) (upTo now : Z)
    : result DNSDistPacketCache :=
  r ← purgeExpiredRun c upTo now;
  Ok r.1.1.

(** *** [expunge] *)

(** The [for] loop over the shards, structural in [unvisited], the
    number [d_shardCount - shardIndex] of shards still to visit. *)
Fixpoint expungeLoop (unvisited : nat) (c : DNSDistPacketCache)
    (shardIndex toRemove removed : Z) : result DNSDistPacketCache :=
  match unvisited with
  | O => Ok c
  | S unvisited' =>
      shard ← vector_at (d_shards c) shardIndex;
      let map := d_map shard in
      let removeFromThisShard :=
        wrap64 (toRemove - removed)
        / wrap32 (d_shardCount (d_config c) - shardIndex) in
      if Z.of_nat (size map) >=? removeFromThisShard then
        let range := take (Z.to_nat removeFromThisShard) (iteration map) in
        let shard :=
          mkCacheShard (eraseAll range map)
            (wrap64 (d_entriesCount shard - removeFromThisShard)) in
        expungeLoop unvisited' (set_shard c shardIndex shard)
          (shardIndex + 1) toRemove (wrap64 (removed + removeFromThisShard))
      else
        let shard := mkCacheShard ∅ 0 in
        expungeLoop unvisited' (set_shard c shardIndex shard)
          (shardIndex + 1) toRemove
          (wrap64 (removed + Z.of_nat (size map)))
  end.

Definition expunge (c : DNSDistPacketCache) (upTo : Z)
    : result DNSDistPacketCache :=
  size ← getSize c;
  if upTo >=? size then Ok c
  else
    let toRemove := size - upTo in
    expungeLoop (Z.to_nat (d_shardCount (d_config c))) c 0 toRemove 0.

End Eviction.

(** ** Targeted invalidation *)

(** Modelled from the spec: the query type [ANY] of [qtype.hh], which is
    not part of the sources at hand (RFC 1035, value 255). *)
Module QType.
Definition ANY : Z := 255.
End QType.

Section Invalidation.

(** The order in which [begin()] .. [end()] runs over a map, and
    [DNSName::isPartOf] of [dnsname.hh], which the cache only calls:
    [isPartOf a b] tells whether [a] is [b] or a name below [b]. *)
Variable iteration : gmap Z CacheValue -> list (Z * CacheValue).
Variable isPartOf : DNSName -> DNSName -> bool.

(** The test of [expungeByName] on one entry. *)
Definition expungeByNameMatches (value : CacheValue) (name : DNSName)
    (qtype' : Z) (suffixMatch : bool) : bool :=
  (DNSName_eqb (qname value) name
   || (suffixMatch && isPartOf (qname value) name))
  && ((qtype' =? QType.ANY) || (qtype' =? qtype value)).

(** The inner [for] loop of [expungeByName] over one shard. *)
Fixpoint expungeByNameScan (name : DNSName) (qtype' : Z) (suffixMatch : bool)
    (its : list (Z * CacheValue)) (shard : CacheShard) : CacheShard :=
  match its with
  | [] => shard
  | (k, value) :: its' =>
      if expungeByNameMatches value name qtype' suffixMatch then
        expungeByNameScan name qtype' suffixMatch its'
          (mkCacheShard (delete k (d_map shard))
             (wrap64 (d_entriesCount shard - 1)))
      else expungeByNameScan name qtype' suffixMatch its' shard
  end.

(** The [for] loop over the shards, structural in [unvisited], the number
    [d_shardCount - shardIndex] of shards still to visit. *)
Fixpoint expungeByNameLoop (unvisited : nat) (c : DNSDistPacketCache)
    (shardIndex : Z) (name : DNSName) (qtype' : Z) (suffixMatch : bool)
    : result DNSDistPacketCache :=
  match unvisited with
  | O => Ok c
  | S unvisited' =>
      shard ← vector_at (d_shards c) shardIndex;
      let shard :=
        expungeByNameScan name qtype' suffixMatch (iteration (d_map shard))
          shard in
      expungeByNameLoop unvisited' (set_shard c shardIndex shard)
        (shardIndex + 1) name qtype' suffixMatch
  end.

Definition expungeByName (c : DNSDistPacketCache) (name : DNSName)
    (qtype' : Z) (suffixMatch : bool) : result DNSDistPacketCache :=
  expungeByNameLoop (Z.to_nat (d_shardCount (d_config c))) c 0 name qtype'
    suffixMatch.

End Invalidation.

(** ** Notions used by the statements *)

(** The entry that the cache holds for [key]: the shard is selected as
    the operations select it, then the map is probed. *)
Definition shardOf (c : DNSDistPacketCache) (key : Z) : result CacheShard :=
  shardIndex ← getShardIndex c key;
  vector_at (d_shards c) shardIndex.

Definition entryAt (c : DNSDistPacketCache) (key : Z) : option CacheValue :=
  match shardOf c key with
  | Ok shard => d_map shard !! key
  | Throw _ => None
  end.

(** The representation invariant of a cache: the members have their
    machine ranges, there are [d_shardCount] shards (at least one), and
    each shard counter equals the size of the shard's map. *)
Record wf (c : DNSDistPacketCache) : Prop := mkWf {
  wf_shardCount : 0 < d_shardCount (d_config c) < 2 ^ 32;
  wf_maxEntries : 0 <= d_maxEntries (d_config c) < 2 ^ 64;
  wf_shards : Z.of_nat (length (d_shards c)) = d_shardCount (d_config c);
  wf_counts : Forall (fun shard =>
                d_entriesCount shard = Z.of_nat (size (d_map shard)))
              (d_shards c)
}.

(** No shard holds more than its capacity. *)
Definition withinCapacity (c : DNSDistPacketCache) : Prop :=
  Forall (fun shard => Z.of_nat (size (d_map shard)) <= shardCapacity c)
    (d_shards c).

(** The sum of the shard sizes. *)
Definition totalEntries (shards : list CacheShard) : Z :=
  foldr (fun shard n => Z.of_nat (size (d_map shard)) + n) 0 shards.

(** One call of [insert], with the answers of the environment. *)
Record InsertCall : Type := mkInsertCall {
  ic_key : Z;
  ic_qname : DNSName;
  ic_qtype : Z;
  ic_qclass : Z;
  ic_response : list byte;
  ic_responseLen : Z;
  ic_tcp : bool;
  ic_rcode : Z;
  ic_tempFailureTTL : option Z;
  ic_now : Z;
  ic_gotIt : bool
}.

(** A sequence of calls of [insert], one after the other. *)
Fixpoint insertAll (getDNSPacketMinTTL : list byte -> Z -> Z)
    (c : DNSDistPacketCache) (calls : list InsertCall)
    : result DNSDistPacketCache :=
  match calls with
  | [] => Ok c
  | i :: calls' =>
      c' ← insert getDNSPacketMinTTL c (ic_key i) (ic_qname i) (ic_qtype i)
             (ic_qclass i) (ic_response i) (ic_responseLen i) (ic_tcp i)
             (ic_rcode i) (ic_tempFailureTTL i) (ic_now i) (ic_gotIt i);
      insertAll getDNSPacketMinTTL c' calls'
  end.

(** The value that [insert] builds for a response cached for [ttl]
    seconds. *)
Definition newCacheValue (qname' : DNSName) (qtype' qclass' : Z)
    (response : list byte) (responseLen : Z) (tcp' : bool) (now ttl : Z)
    : CacheValue :=
  {| qname := qname'; qtype := qtype'; qclass := qclass';
     len := responseLen; validity := now + ttl; added := now;
     tcp := tcp'; value := bytes_from response 0 responseLen |}.

(** One call of a public operation that changes or reads the cache,
    with the answers of the environment where the operation asks for
    them. *)
Inductive Operation : Type :=
| OpInsert (call : InsertCall)
| OpGet (dq : DNSQuestion) (consumed : Z) (queryId : byte * byte)
    (response : list byte) (responseLen : Z) (keyOut : option Z)
    (allowExpired : Z) (skipAging : bool) (now : Z) (gotIt : bool)
| OpPurgeExpired (upTo now : Z)
| OpExpunge (upTo : Z)
| OpExpungeByName (name : DNSName) (qtype' : Z) (suffixMatch : bool).

(** The [size_t] arguments of the operations are not negative. *)
Definition inRange (op : Operation) : Prop :=
  match op with
  | OpPurgeExpired upTo _ | OpExpunge upTo => 0 <= upTo
  | _ => True
  end.

Section Operations.

Variable burtle : list byte -> Z -> Z.
Variable getDNSPacketMinTTL : list byte -> Z -> Z.
Variable ageDNSPacket : list byte -> Z -> Z -> list byte.
Variable iteration : gmap Z CacheValue -> list (Z * CacheValue).
Variable isPartOf : DNSName -> DNSName -> bool.

(** The cache after one operation; an exception ends the run. *)
Definition runOperation (c : DNSDistPacketCache) (op : Operation)
    : result DNSDistPacketCache :=
  match op with
  | OpInsert i =>
      insert getDNSPacketMinTTL c (ic_key i) (ic_qname i) (ic_qtype i)
        (ic_qclass i) (ic_response i) (ic_responseLen i) (ic_tcp i)
        (ic_rcode i) (ic_tempFailureTTL i) (ic_now i) (ic_gotIt i)
  | OpGet dq consumed queryId response responseLen keyOut allowExpired
      skipAging now gotIt =>
      r ← get burtle ageDNSPacket c dq consumed queryId response responseLen
            keyOut allowExpired skipAging now gotIt;
      Ok r.2
  | OpPurgeExpired upTo now => purgeExpired iteration c upTo now
  | OpExpunge upTo => expunge iteration c upTo
  | OpExpungeByName name qtype' suffixMatch =>
      expungeByName iteration isPartOf c name qtype' suffixMatch
  end.

Fixpoint runOperations (c : DNSDistPacketCache) (ops : list Operation)
    : result DNSDistPacketCache :=
  match ops with
  | [] => Ok c
  | op :: ops' =>
      c' ← runOperation c op;
      runOperations c' ops'
  end.

End Operations.

(** ** Instances for the examples *)

(** Stand-ins for the three external helpers, used where a statement is
    evaluated on concrete data: an additive byte hash (two names that are
    anagrams of each other collide under it), a packet scan that always
    finds a TTL of 300 seconds, and an ageing that leaves the packet as it
    is. *)
Definition sampleHash (bytes : list byte) (init : Z) : Z :=
  foldl (fun h b => wrap32 (h + b)) init bytes.

Definition sampleMinTTL (packet : list byte) (length : Z) : Z := 300.

Definition sampleAge (packet : list byte) (length seconds : Z) : list byte :=
  packet.

(** The wire format of [www.example.com], of [WWW.example.com] and of
    [www.elpmaxe.com]. *)
Definition www_example_com : DNSName :=
  mkDNSName [3; 119; 119; 119; 7; 101; 120; 97; 109; 112; 108; 101;
             3; 99; 111; 109; 0].

Definition WWW_example_com : DNSName :=
  mkDNSName [3; 87; 87; 87; 7; 101; 120; 97; 109; 112; 108; 101;
             3; 99; 111; 109; 0].

Definition www_elpmaxe_com : DNSName :=
  mkDNSName [3; 119; 119; 119; 7; 101; 108; 112; 109; 97; 120; 101;
             3; 99; 111; 109; 0].

(** A query packet for [name], type A, class IN: the header (identifier
    [0xabcd], RD set, one question), the name, the type and the class. *)
Definition queryPacket (name : DNSName) : list byte :=
  [171; 205; 1; 0; 0; 1; 0; 0; 0; 0; 0; 0] ++ toDNSString name
  ++ [0; 1; 0; 1].

Definition sampleQuery (name : DNSName) : DNSQuestion :=
  {| dq_qname := name; dq_qtype := 1; dq_qclass := 1;
     dq_dh := queryPacket name;
     dq_len := Z.of_nat (length (queryPacket name)); dq_tcp := false |}.

(** A response packet to [queryPacket name], 49 bytes long: the header
    with QR set and one answer, the question, and one A record with a TTL
    of 300. *)
Definition responsePacket (name : DNSName) : list byte :=
  [171; 205; 129; 128; 0; 1; 0; 1; 0; 0; 0; 0] ++ toDNSString name
  ++ [0; 1; 0; 1]
  ++ [192; 12; 0; 1; 0; 1; 0; 0; 1; 44; 0; 4; 192; 0; 2; 1].

(** A SERVFAIL response cut after the first byte of the question: 13
    bytes. *)
Definition truncatedResponse : list byte :=
  [171; 205; 129; 130; 0; 1; 0; 0; 0; 0; 0; 0; 3].

(** A cache of at most 10 entries in 2 shards, with a stale TTL of 60
    seconds. *)
Definition sampleCache : DNSDistPacketCache :=
  construct 10 86400 0 60 60 false 2 false.

(** The caller's buffer, 64 bytes, and query identifier [0x1234]. *)
Definition sampleBuffer : list byte := replicate 64 0.
Definition sampleQueryId : byte * byte := (18, 52).

(** The key of the query for [www.example.com] under [sampleHash]; the
    query for [www.elpmaxe.com] has the same key. *)
Definition wwwKey : Z := 1441.

(** One UDP [insert] of a whole packet for [name], type A, class IN, with
    the write lock obtained. *)
Definition sampleInsert (c : DNSDistPacketCache) (key : Z) (name : DNSName)
    (response : list byte) (rcode : Z) (tempFailureTTL : option Z) (now : Z)
    : DNSDistPacketCache :=
  match insert sampleMinTTL c key name 1 1 response
          (Z.of_nat (length response)) false rcode tempFailureTTL now true with
  | Ok c' => c'
  | Throw _ => c
  end.

(** The sample cache after the response for [www.example.com] has been
    inserted at time 1000: the entry is valid until 1300. *)
Definition cacheWww : DNSDistPacketCache :=
  sampleInsert sampleCache wwwKey www_example_com
    (responsePacket www_example_com) RCode.NoError None 1000.

Definition entryWww : CacheValue :=
  newCacheValue www_example_com 1 1 (responsePacket www_example_com) 49 false
    1000 300.

(** The same with the response for [www.elpmaxe.com], whose query has the
    key of the query for [www.example.com]. *)
Definition cacheAnagram : DNSDistPacketCache :=
  sampleInsert sampleCache wwwKey www_elpmaxe_com
    (responsePacket www_elpmaxe_com) RCode.NoError None 1000.

Definition entryAnagram : CacheValue :=
  newCacheValue www_elpmaxe_com 1 1 (responsePacket www_elpmaxe_com) 49 false
    1000 300.

(** The sample cache after the truncated SERVFAIL response has been
    inserted for [www.example.com] at time 1000 with an override of 30
    seconds. *)
Definition cacheTruncated : DNSDistPacketCache :=
  sampleInsert sampleCache wwwKey www_example_com truncatedResponse
    RCode.ServFail (Some 30) 1000.

Definition entryTruncated : CacheValue :=
  newCacheValue www_example_com 1 1 truncatedResponse 13 false 1000 30.

(** A SERVFAIL response that is a bare header, 12 bytes, and the sample
    cache after it has been inserted for [www.example.com] at time 1000
    with an override of 30 seconds: the entry is valid until 1030. *)
Definition headerResponse : list byte :=
  [171; 205; 129; 130; 0; 1; 0; 0; 0; 0; 0; 0].

Definition cacheHeader : DNSDistPacketCache :=
  sampleInsert sampleCache wwwKey www_example_com headerResponse
    RCode.ServFail (Some 30) 1000.

Definition entryHeader : CacheValue :=
  newCacheValue www_example_com 1 1 headerResponse 12 false 1000 30.

(** A stand-in for [DNSName::isPartOf]: the wire format of the second
    name, lower-cased, ends the wire format of the first. *)
Definition sampleIsPartOf (a b : DNSName) : bool :=
  bool_decide (toLower (d_storage b) `suffix_of` toLower (d_storage a)).

(** The wire format of [example.com]. *)
Definition example_com : DNSName :=
  mkDNSName [7; 101; 120; 97; 109; 112; 108; 101; 3; 99; 111; 109; 0].

(** A query whose packet stops after the identifier. *)
Definition shortQuery : DNSQuestion :=
  {| dq_qname := www_example_com; dq_qtype := 1; dq_qclass := 1;
     dq_dh := [171; 205]; dq_len := 2; dq_tcp := false |}.

(** The key of the query for [example.com] under [sampleHash]. *)
Definition exampleKey : Z := 1081.

(** [cacheWww] after [www.example.com] has been expunged by name, for
    any type. *)
Definition cacheInvalidated : DNSDistPacketCache :=
  match expungeByName map_to_list sampleIsPartOf cacheWww www_example_com
          QType.ANY false with
  | Ok c => c
  | Throw _ => cacheWww
  end.

(** [cacheWww] after a purge down to no entry at time 2000. *)
Definition cachePurged : DNSDistPacketCache :=
  match purgeExpired map_to_list cacheWww 0 2000 with
  | Ok c => c
  | Throw _ => cacheWww
  end.

(** A cache of at most 9 entries in 3 shards whose rotation index is the
    largest 32-bit value: shard 0 holds an entry valid until 1300, the
    shards 1 and 2 one entry each valid until 5300. *)
Definition cacheWrapping : DNSDistPacketCache :=
  let c0 := construct 9 86400 0 60 60 false 3 false in
  let c1 := sampleInsert c0 0 www_example_com
              (responsePacket www_example_com) RCode.NoError None 1000 in
  let c2 := sampleInsert c1 1 www_example_com
              (responsePacket www_example_com) RCode.NoError None 5000 in
  let c3 := sampleInsert c2 2 www_example_com
              (responsePacket www_example_com) RCode.NoError None 5000 in
  set_expungeIndex c3 uint32_max.

(** [cacheWrapping] after a purge down to two entries at time 2000. *)
Definition cacheWrapped : DNSDistPacketCache :=
  match purgeExpired map_to_list cacheWrapping 2 2000 with
  | Ok c => c
  | Throw _ => cacheWrapping
  end.

(** A sequence of one call of each operation. *)
Definition sampleOperations : list Operation :=
  [OpInsert (mkInsertCall wwwKey www_example_com 1 1
               (responsePacket www_example_com) 49 false RCode.NoError None
               1000 true);
   OpGet (sampleQuery www_example_com) 17 sampleQueryId sampleBuffer 64 None
     0 false 1100 true;
   OpPurgeExpired 0 2000;
   OpExpunge 0;
   OpExpungeByName example_com QType.ANY true].

(** The key that [get] computes for the query [dq]. *)
Definition queryKey (burtle : list byte -> Z -> Z) (dq : DNSQuestion)
    (consumed : Z) : result Z :=
  getKey burtle (toDNSString (dq_qname dq)) consumed (dq_dh dq) (dq_len dq)
    (dq_tcp dq).

(** What [get] leaves in [*keyOut]. *)
Definition keySlot (keyOut : option Z) (key : Z) : option Z :=
  match keyOut with Some _ => Some key | None => None end.

(** An entry that [get] can hand out for the query [dq] into a buffer of
    [responseLen] bytes: the attributes match, the buffer is large enough
    and the packet is a bare header or holds at least the query's qname
    after its header. *)
Definition servable (v : CacheValue) (dq : DNSQuestion) (responseLen : Z)
    : Prop :=
  cachedValueMatches v (dq_qname dq) (dq_qtype dq) (dq_qclass dq) (dq_tcp dq)
    = true
  /\ len v <= responseLen
  /\ (len v = sizeof_dnsheader
      \/ sizeof_dnsheader + Z.of_nat (length (toDNSString (dq_qname dq)))
         <= len v).

(** The relation between a shard before and after a purge: the map only
    lost entries, and every entry it lost had a validity before [now]. *)
Definition purgedShard (now : Z) (shard shard' : CacheShard) : Prop :=
  d_map shard' ⊆ d_map shard
  /\ forall k v,
       d_map shard !! k = Some v -> d_map shard' !! k = None ->
       validity v < now.

(** A shard without any entry whose validity is before [now]. *)
Definition cleanShard (now : Z) (shard : CacheShard) : Prop :=
  forall k v, d_map shard !! k = Some v -> now <= validity v.

(** The shard that pass number [j] of the loop of [purgeExpired], counted
    from 0, selects on the cache [c]: the rotation index has then been
    incremented [j] times as a 32-bit value, and is reduced modulo the
    number of shards ([d_expungeIndex++ % d_shardCount]). *)
Definition passShard (c : DNSDistPacketCache) (j : Z) : Z :=
  wrap32 (d_expungeIndex c + j) mod d_shardCount (d_config c).

(** * Properties *)

(** ** Basic facts *)

Lemma wrap64_small z : 0 <= z < 2 ^ 64 -> wrap64 z = z.
Proof. intros H. unfold wrap64. by apply Z.mod_small. Qed.

Lemma wrap32_small z : 0 <= z < 2 ^ 32 -> wrap32 z = z.
Proof. intros H. unfold wrap32. by apply Z.mod_small. Qed.

Lemma vector_at_Ok {A} (v : list A) i a :
  vector_at v i = Ok a <-> 0 <= i /\ v !! Z.to_nat i = Some a.
Proof.
  unfold vector_at. destruct (Z.ltb_spec i 0).
  - split; [done | lia].
  - destruct (v !! Z.to_nat i) as [b|].
    + split; [intros [= ->]; by split | intros [_ [= ->]]; done].
    + split; [done | by intros [_ ?]].
Qed.

Lemma entryAt_Some c key v :
  entryAt c key = Some v <->
  exists shardIndex shard,
    getShardIndex c key = Ok shardIndex
    /\ vector_at (d_shards c) shardIndex = Ok shard
    /\ d_map shard !! key = Some v.
Proof.
  unfold entryAt, shardOf. split.
  - destruct (getShardIndex c key) as [i|] eqn:Hi; simpl; [| done].
    destruct (vector_at (d_shards c) i) as [s|] eqn:Hs; simpl; [| done].
    eauto.
  - intros (i & s & -> & Hs & Hv). simpl. by rewrite Hs.
Qed.

Lemma cachedValueMatches_true v qn qt qc tc :
  cachedValueMatches v qn qt qc tc = true <->
  tcp v = tc /\ qtype v = qt /\ qclass v = qc
  /\ toLower (toDNSString (qname v)) = toLower (toDNSString qn).
Proof.
  unfold cachedValueMatches, DNSName_eqb, toDNSString.
  destruct (eqb (tcp v) tc) eqn:Ht; simpl.
  2:{ split; [done |]. intros [Heq _]. rewrite Heq in Ht. by destruct tc. }
  apply eqb_prop in Ht.
  destruct (Z.eqb_spec (qtype v) qt) as [Hqt|Hqt]; simpl;
    [| split; [done | intros (_ & ? & _); done]].
  destruct (Z.eqb_spec (qclass v) qc) as [Hqc|Hqc]; simpl;
    [| split; [done | intros (_ & _ & ? & _); done]].
  case_bool_decide as Hqn; simpl.
  - split; [by intros _ | done].
  - split; [done | intros (_ & _ & _ & ?); done].
Qed.

(** The equation of [insertLocked] on a shard with room that already holds
    an entry for the key. *)
Lemma insertLocked_found c shardIndex shard key qn qt qc tc newValue now
    newValidity old :
  Z.of_nat (size (d_map shard)) < shardCapacity c ->
  d_map shard !! key = Some old ->
  insertLocked c shardIndex shard key qn qt qc tc newValue now newValidity =
    if negb (validity old <=? now) && negb (cachedValueMatches old qn qt qc tc)
    then incr_insertCollisions c
    else if newValidity <=? validity old then c
         else set_shard c shardIndex
                (mkCacheShard (<[key := newValue]> (d_map shard))
                   (d_entriesCount shard)).
Proof.
  intros Hroom Hold. unfold insertLocked.
  destruct (Z.geb_spec (Z.of_nat (size (d_map shard))) (shardCapacity c));
    [lia |].
  by rewrite Hold.
Qed.

(** ** Insertion over an existing entry *)

(** C6. When [insertLocked] finds an entry [old] for the key (the shard
    has room, so the map is probed): if [old] is not expired and its
    attributes differ from the new ones, [d_insertCollisions] goes up by
    one and the shards are left as they were; otherwise [old] is replaced
    by the new value when the new validity is strictly later than that of
    [old], and nothing at all changes when it is not. *)
Theorem insertLocked_prior_entry c shardIndex shard key qn qt qc tc newValue
    now newValidity old :
  Z.of_nat (size (d_map shard)) < shardCapacity c ->
  d_map shard !! key = Some old ->
  let c' := insertLocked c shardIndex shard key qn qt qc tc newValue now
              newValidity in
  (now < validity old -> cachedValueMatches old qn qt qc tc = false ->
     d_insertCollisions (d_stats c')
       = wrap64 (d_insertCollisions (d_stats c) + 1)
     /\ d_shards c' = d_shards c)
  /\ (validity old <= now \/ cachedValueMatches old qn qt qc tc = true ->
      (validity old < newValidity ->
         d_shards c'
           = <[Z.to_nat shardIndex :=
                 mkCacheShard (<[key := newValue]> (d_map shard))
                   (d_entriesCount shard)]> (d_shards c)
         /\ d_stats c' = d_stats c)
      /\ (newValidity <= validity old -> c' = c)).
Proof.
  intros Hroom Hold c'. subst c'.
  rewrite (insertLocked_found _ _ _ _ _ _ _ _ _ _ _ old) by done.
  split.
  - intros Hlive Hdiff. rewrite Hdiff.
    destruct (Z.leb_spec (validity old) now); [lia |]. done.
  - intros Hcase.
    assert (negb (validity old <=? now)
            && negb (cachedValueMatches old qn qt qc tc) = false) as ->.
    { destruct Hcase as [Hexp | ->]; [| by rewrite andb_false_r].
      by destruct (Z.leb_spec (validity old) now); [| lia]. }
    split; intros Hval;
      destruct (Z.leb_spec newValidity (validity old)); try lia; done.
Qed.

(** ** Lookup *)

Section Lookup.

Variable burtle : list byte -> Z -> Z.
Variable ageDNSPacket : list byte -> Z -> Z -> list byte.

(** The equation of [get] when the read lock is obtained and the map
    holds the entry [v] for the key of the query. *)
Lemma get_found c dq consumed queryId response responseLen keyOut
    allowExpired skipAging now key v :
  queryKey burtle dq consumed = Ok key ->
  entryAt c key = Some v ->
  get burtle ageDNSPacket c dq consumed queryId response responseLen keyOut
    allowExpired skipAging now true =
  let dnsQName := toDNSString (dq_qname dq) in
  let miss := mkLookup false response responseLen (keySlot keyOut key) in
  if (validity v <? now) && (now - validity v >=? allowExpired)
  then Ok (miss, incr_misses c)
  else if (responseLen <? len v) || (len v <? sizeof_dnsheader)
  then Ok (miss, c)
  else if negb (cachedValueMatches v (dq_qname dq) (dq_qtype dq)
                  (dq_qclass dq) (dq_tcp dq))
  then Ok (miss, incr_lookupCollisions c)
  else if len v =? sizeof_dnsheader
  then Ok (mkLookup true (spliceHeader response queryId v) (len v)
             (keySlot keyOut key), incr_hits c)
  else if len v <? sizeof_dnsheader + Z.of_nat (length dnsQName)
  then Ok (mkLookup false (spliceHeader response queryId v) responseLen
             (keySlot keyOut key), c)
  else
    let spliced :=
      spliceBody (spliceHeader response queryId v) dnsQName v in
    let age := if negb (validity v <? now) then now - added v
               else (validity v - added v) - d_staleTTL (d_config c) in
    Ok (mkLookup true
          (if negb (d_dontAge (d_config c)) && negb skipAging
           then ageDNSPacket spliced (len v) age else spliced)
          (len v) (keySlot keyOut key), incr_hits c).
Proof.
  intros Hkey Hentry. unfold get. unfold queryKey in Hkey. rewrite Hkey.
  apply entryAt_Some in Hentry as (i & s & Hi & Hs & Hv).
  cbn [mbind result_bind]. rewrite Hi. cbn [mbind result_bind].
  rewrite Hs. cbn [mbind result_bind negb]. rewrite Hv.
  reflexivity.
Qed.

(** C10. A matching entry that has not expired and whose packet is
    longer than a DNS header but too short to hold the query's qname
    after the header makes [get] return false and leave the whole cache
    state, counters and shards, as it was. *)
Theorem get_truncated_entry c dq consumed queryId response responseLen
    keyOut allowExpired skipAging now key v :
  queryKey burtle dq consumed = Ok key ->
  entryAt c key = Some v ->
  cachedValueMatches v (dq_qname dq) (dq_qtype dq) (dq_qclass dq)
    (dq_tcp dq) = true ->
  now <= validity v ->
  sizeof_dnsheader < len v
    < sizeof_dnsheader + Z.of_nat (length (toDNSString (dq_qname dq))) ->
  exists lk,
    get burtle ageDNSPacket c dq consumed queryId response responseLen
      keyOut allowExpired skipAging now true = Ok (lk, c)
    /\ lk_hit lk = false.
Proof.
  intros Hkey Hentry Hmatch Hlive [Hlo Hhi].
  rewrite (get_found _ _ _ _ _ _ _ _ _ _ key v) by done. cbn zeta.
  destruct (Z.ltb_spec (validity v) now); [lia |]. cbn [andb].
  destruct ((responseLen <? len v) || (len v <? sizeof_dnsheader));
    [by eexists |].
  rewrite Hmatch. cbn [negb].
  destruct (Z.eqb_spec (len v) sizeof_dnsheader); [lia |].
  destruct (Z.ltb_spec (len v)
    (sizeof_dnsheader + Z.of_nat (length (toDNSString (dq_qname dq)))));
    [by eexists | lia].
Qed.

(** A servable entry that is not expired beyond the tolerance is a hit:
    a bare header is handed out as it is, a longer packet is aged, by
    the stale age when the entry has expired and by the time since its
    insertion when it has not. *)
Lemma get_hit c dq consumed queryId response responseLen keyOut
    allowExpired skipAging now key v :
  queryKey burtle dq consumed = Ok key ->
  entryAt c key = Some v ->
  servable v dq responseLen ->
  (validity v < now -> now - validity v < allowExpired) ->
  get burtle ageDNSPacket c dq consumed queryId response responseLen keyOut
    allowExpired skipAging now true =
  Ok (mkLookup true
        (if len v =? sizeof_dnsheader then spliceHeader response queryId v
         else agedResponse ageDNSPacket c dq queryId response skipAging v
                (if validity v <? now
                 then (validity v - added v) - d_staleTTL (d_config c)
                 else now - added v))
        (len v) (keySlot keyOut key), incr_hits c).
Proof.
  intros Hkey Hentry (Hmatch & Hbuf & Hlen) Htol.
  rewrite (get_found _ _ _ _ _ _ _ _ _ _ key v) by done. cbn zeta.
  assert ((validity v <? now) && (now - validity v >=? allowExpired)
          = false) as ->.
  { destruct (Z.ltb_spec (validity v) now); [| done].
    destruct (Z.geb_spec (now - validity v) allowExpired); [| done].
    specialize (Htol ltac:(done)). lia. }
  assert ((responseLen <? len v) || (len v <? sizeof_dnsheader) = false)
    as ->.
  { destruct (Z.ltb_spec responseLen (len v)); [lia |].
    destruct (Z.ltb_spec (len v) sizeof_dnsheader); [| done].
    unfold sizeof_dnsheader in *. lia. }
  rewrite Hmatch. cbn [negb].
  destruct (Z.eqb_spec (len v) sizeof_dnsheader) as [Heq|Hne]; [done |].
  destruct (Z.ltb_spec (len v)
    (sizeof_dnsheader + Z.of_nat (length (toDNSString (dq_qname dq)))));
    [lia |].
  unfold agedResponse. by destruct (validity v <? now).
Qed.

(** C3, amended.  For an entry that has expired ([validity < now]):
    when the time since its expiry is at least [allowExpired], [get]
    counts a miss and returns false; when it is strictly less, a
    servable entry is a stale hit: [get] returns true, counts the hit and
    hands out the entry, a bare header as it is and a packet longer than
    a header aged by [(validity - added) - staleTTL].  A servable entry
    that has not expired is a hit as well, a bare header as it is and a
    longer packet aged by [now - added]. *)
Theorem get_expiry c dq consumed queryId response responseLen keyOut
    allowExpired skipAging now key v :
  queryKey burtle dq consumed = Ok key ->
  entryAt c key = Some v ->
  let run := get burtle ageDNSPacket c dq consumed queryId response
               responseLen keyOut allowExpired skipAging now true in
  (validity v < now -> allowExpired <= now - validity v ->
     run = Ok (mkLookup false response responseLen (keySlot keyOut key),
               incr_misses c))
  /\ (servable v dq responseLen ->
      (validity v < now -> now - validity v < allowExpired ->
         run = Ok (mkLookup true
                     (if len v =? sizeof_dnsheader
                      then spliceHeader response queryId v
                      else agedResponse ageDNSPacket c dq queryId response
                             skipAging v
                             ((validity v - added v)
                              - d_staleTTL (d_config c)))
                     (len v) (keySlot keyOut key), incr_hits c))
      /\ (now <= validity v ->
          run = Ok (mkLookup true
                      (if len v =? sizeof_dnsheader
                       then spliceHeader response queryId v
                       else agedResponse ageDNSPacket c dq queryId response
                              skipAging v (now - added v))
                      (len v) (keySlot keyOut key), incr_hits c))).
Proof.
  intros Hkey Hentry run. subst run. split.
  - intros Hexp Hold.
    rewrite (get_found _ _ _ _ _ _ _ _ _ _ key v) by done. cbn zeta.
    destruct (Z.ltb_spec (validity v) now); [| lia].
    by destruct (Z.geb_spec (now - validity v) allowExpired); [| lia].
  - intros Hserv. split.
    + intros Hexp Htol. rewrite (get_hit _ _ _ _ _ _ _ _ _ _ key v) by done.
      by destruct (Z.ltb_spec (validity v) now); [| lia].
    + intros Hlive.
      rewrite (get_hit _ _ _ _ _ _ _ _ _ _ key v) by (done || lia).
      by destruct (Z.ltb_spec (validity v) now); [lia |].
Qed.

(** C9.  The lookup takes an entry for expired when its validity is
    strictly before the current time, the insertion when it is at or
    before it.  For [get], a servable entry whose validity equals [now] is
    a fresh hit whatever [allowExpired] is, aged by [now - added], while
    an entry whose validity is before [now] by at least [allowExpired] is
    a miss.  For [insertLocked], an entry whose validity equals [now] has
    expired: attributes that differ are not counted as a collision and the
    entry is replaced when the new validity is later than [now]; while an
    entry whose validity is after [now] is live, and attributes that
    differ are a collision. *)
Theorem expiry_at_deadline c now :
  (forall dq consumed queryId response responseLen keyOut allowExpired
      skipAging key v,
     queryKey burtle dq consumed = Ok key ->
     entryAt c key = Some v ->
     let run := get burtle ageDNSPacket c dq consumed queryId response
                  responseLen keyOut allowExpired skipAging now true in
     (servable v dq responseLen -> validity v = now ->
        run = Ok (mkLookup true
                    (if len v =? sizeof_dnsheader
                     then spliceHeader response queryId v
                     else agedResponse ageDNSPacket c dq queryId response
                            skipAging v (now - added v))
                    (len v) (keySlot keyOut key), incr_hits c))
     /\ (validity v < now -> allowExpired <= now - validity v ->
         run = Ok (mkLookup false response responseLen (keySlot keyOut key),
                   incr_misses c)))
  /\ (forall shardIndex shard key qn qt qc tc newValue newValidity old,
        Z.of_nat (size (d_map shard)) < shardCapacity c ->
        d_map shard !! key = Some old ->
        let c' := insertLocked c shardIndex shard key qn qt qc tc newValue
                    now newValidity in
        (validity old = now ->
           c' = if newValidity <=? now then c
                else set_shard c shardIndex
                       (mkCacheShard (<[key := newValue]> (d_map shard))
                          (d_entriesCount shard)))
        /\ (now < validity old ->
            cachedValueMatches old qn qt qc tc = false ->
            c' = incr_insertCollisions c)).
Proof.
  split.
  - intros * Hkey Hentry run. subst run. split.
    + intros Hserv Hval.
      rewrite (get_hit _ _ _ _ _ _ _ _ _ _ key v) by (done || lia).
      by destruct (Z.ltb_spec (validity v) now); [lia |].
    + intros Hexp Hold.
      rewrite (get_found _ _ _ _ _ _ _ _ _ _ key v) by done. cbn zeta.
      destruct (Z.ltb_spec (validity v) now); [| lia].
      by destruct (Z.geb_spec (now - validity v) allowExpired); [| lia].
  - intros * Hroom Hold c'. subst c'.
    rewrite (insertLocked_found _ _ _ _ _ _ _ _ _ _ _ old) by done.
    split.
    + intros Hval. rewrite Hval.
      by destruct (Z.leb_spec now now); [| lia].
    + intros Hlive Hdiff. rewrite Hdiff.
      by destruct (Z.leb_spec (validity old) now); [lia |].
Qed.

(** C1, amended.  A hit is only ever returned for an entry whose
    attributes are those of the query: transport, type and class are
    equal and the names are equal up to case.  An entry stored under the
    key of the query with other attributes is never a hit and leaves the
    shards as they are; [d_lookupCollisions] goes up by one when the
    lookup reaches the comparison, that is when the read lock is
    obtained, the entry is not expired beyond [allowExpired], the buffer
    holds the entry and the entry holds a DNS header. *)
Theorem get_collision_safe c dq consumed queryId response responseLen
    keyOut allowExpired skipAging now gotIt :
  let run := get burtle ageDNSPacket c dq consumed queryId response
               responseLen keyOut allowExpired skipAging now gotIt in
  (forall lk c', run = Ok (lk, c') -> lk_hit lk = true ->
     exists key v,
       queryKey burtle dq consumed = Ok key
       /\ entryAt c key = Some v
       /\ tcp v = dq_tcp dq /\ qtype v = dq_qtype dq
       /\ qclass v = dq_qclass dq
       /\ toLower (toDNSString (qname v))
          = toLower (toDNSString (dq_qname dq)))
  /\ (forall key v,
        queryKey burtle dq consumed = Ok key ->
        entryAt c key = Some v ->
        cachedValueMatches v (dq_qname dq) (dq_qtype dq) (dq_qclass dq)
          (dq_tcp dq) = false ->
        exists lk c',
          run = Ok (lk, c') /\ lk_hit lk = false
          /\ d_shards c' = d_shards c
          /\ (gotIt = true ->
              (validity v < now -> now - validity v < allowExpired) ->
              sizeof_dnsheader <= len v <= responseLen ->
              c' = incr_lookupCollisions c
              /\ d_lookupCollisions (d_stats c')
                 = wrap64 (d_lookupCollisions (d_stats c) + 1))).
Proof.
  intros run. subst run. split.
  - intros lk c' Hrun Hhit.
    destruct (queryKey burtle dq consumed) as [key|] eqn:Hkey.
    2:{ unfold get in Hrun. unfold queryKey in Hkey.
        by rewrite Hkey in Hrun. }
    destruct (entryAt c key) as [v|] eqn:Hentry.
    + exists key, v. split; [done |]. split; [done |].
      apply cachedValueMatches_true.
      destruct gotIt.
      * rewrite (get_found _ _ _ _ _ _ _ _ _ _ key v) in Hrun by done.
        cbn zeta in Hrun.
        repeat match type of Hrun with
               | (if ?b then _ else _) = _ =>
                   destruct b eqn:?; simplify_eq/=; try done
               end;
          by apply negb_false_iff.
      * unfold get in Hrun. unfold queryKey in Hkey. rewrite Hkey in Hrun.
        cbn [mbind result_bind] in Hrun.
        destruct (getShardIndex c key); cbn [mbind result_bind] in Hrun;
          [| done].
        destruct (vector_at (d_shards c) a);
          cbn [mbind result_bind negb] in Hrun; [| done].
        by simplify_eq/=.
    + exfalso. unfold get in Hrun. unfold queryKey in Hkey.
      rewrite Hkey in Hrun. unfold entryAt, shardOf in Hentry.
      cbn [mbind result_bind] in *.
      destruct (getShardIndex c key); cbn [mbind result_bind] in *;
        [| done].
      destruct (vector_at (d_shards c) a);
        cbn [mbind result_bind negb] in *; [| done].
      rewrite Hentry in Hrun. destruct gotIt; by simplify_eq/=.
  - intros key v Hkey Hentry Hdiff. destruct gotIt.
    + rewrite (get_found _ _ _ _ _ _ _ _ _ _ key v) by done. cbn zeta.
      rewrite Hdiff. cbn [negb].
      destruct ((validity v <? now) && (now - validity v >=? allowExpired))
        eqn:Hexp.
      { eexists _, _. split; [done |]. split; [done |]. split; [done |].
        intros _ Htol _. exfalso.
        apply andb_true_iff in Hexp as [H1 H2].
        apply Z.ltb_lt in H1. apply Z.geb_le in H2.
        specialize (Htol H1). lia. }
      destruct ((responseLen <? len v) || (len v <? sizeof_dnsheader))
        eqn:Hlen.
      { eexists _, _. split; [done |]. split; [done |]. split; [done |].
        intros _ _ [Hlo Hhi]. exfalso.
        apply orb_true_iff in Hlen as [H1 | H1]; apply Z.ltb_lt in H1; lia. }
      eexists _, _. split; [done |]. by repeat split.
    + apply entryAt_Some in Hentry as (i & s & Hi & Hs & Hv).
      unfold get. unfold queryKey in Hkey. rewrite Hkey.
      cbn [mbind result_bind]. rewrite Hi. cbn [mbind result_bind].
      rewrite Hs. cbn [mbind result_bind negb].
      eexists _, _. split; [done |]. by repeat split.
Qed.

End Lookup.

(** ** Insertion *)

Lemma shardOf_Ok c key shard :
  shardOf c key = Ok shard <->
  exists shardIndex,
    getShardIndex c key = Ok shardIndex
    /\ vector_at (d_shards c) shardIndex = Ok shard.
Proof.
  unfold shardOf. split.
  - destruct (getShardIndex c key) as [i|]; cbn [mbind result_bind]; eauto.
    done.
  - by intros (i & -> & Hs).
Qed.

(** The shard of a key after its shard has been written back. *)
Lemma shardOf_set_shard c key shardIndex shard shard' :
  getShardIndex c key = Ok shardIndex ->
  vector_at (d_shards c) shardIndex = Ok shard ->
  shardOf (set_shard c shardIndex shard') key = Ok shard'.
Proof.
  intros Hi Hs. apply shardOf_Ok. exists shardIndex. split.
  - by rewrite <- Hi.
  - apply vector_at_Ok in Hs as [Hge Hs]. apply vector_at_Ok. split; [done |].
    cbn. apply list_lookup_insert_eq. by eapply lookup_lt_Some.
Qed.

(** What [insertLocked] can do to the cache. *)
Lemma insertLocked_cases c shardIndex shard key qn qt qc tc newValue now
    newValidity :
  let c' := insertLocked c shardIndex shard key qn qt qc tc newValue now
              newValidity in
  c' = c \/ c' = incr_insertCollisions c
  \/ exists count,
       c' = set_shard c shardIndex
              (mkCacheShard (<[key := newValue]> (d_map shard)) count).
Proof.
  cbn zeta. unfold insertLocked.
  destruct (_ >=? _); [by left |].
  destruct (d_map shard !! key) as [old|]; [| by eauto].
  destruct (_ && _); [by eauto |].
  destruct (_ <=? _); by eauto.
Qed.

Section Insertion.

Variable getDNSPacketMinTTL : list byte -> Z -> Z.

(** What [insert] can do to the cache. *)
Lemma insert_cases c key qn qt qc response responseLen tc rcode
    tempFailureTTL now gotIt c' :
  insert getDNSPacketMinTTL c key qn qt qc response responseLen tc rcode tempFailureTTL now
    gotIt = Ok c' ->
  c' = c \/ c' = incr_ttlTooShorts c \/ c' = incr_deferredInserts c
  \/ exists ttl shardIndex shard,
       insertTTL getDNSPacketMinTTL c response responseLen rcode tempFailureTTL = inr ttl
       /\ getShardIndex c key = Ok shardIndex
       /\ vector_at (d_shards c) shardIndex = Ok shard
       /\ c' = insertLocked c shardIndex shard key qn qt qc tc
                 (newCacheValue qn qt qc response responseLen tc now ttl)
                 now (now + ttl).
Proof.
  unfold insert. intros Hrun.
  destruct (_ <? _); [simplify_eq; by left |].
  destruct (insertTTL getDNSPacketMinTTL c response responseLen rcode tempFailureTTL)
    as [c0|ttl] eqn:Httl.
  { simplify_eq. unfold insertTTL in Httl.
    repeat match type of Httl with
           | (if ?b then _ else _) = _ => destruct b
           end; simplify_eq; eauto. }
  destruct (getShardIndex c key) as [i|] eqn:Hi;
    cbn [mbind result_bind] in Hrun; [| done].
  destruct (vector_at (d_shards c) i) as [s|] eqn:Hs;
    cbn [mbind result_bind] in Hrun; [| done].
  destruct (_ >=? _); [simplify_eq; by left |].
  assert (c' = incr_deferredInserts c
          \/ c' = insertLocked c i s key qn qt qc tc
                    (newCacheValue qn qt qc response responseLen tc now ttl)
                    now (now + ttl)) as [-> | ->].
  { destruct (d_deferrableInsertLock _); [destruct gotIt |];
      simplify_eq/=; eauto. }
  - eauto.
  - right. right. right. by exists ttl, i, s.
Qed.

(** The configuration is never touched by [insert]. *)
Lemma insert_config c key qn qt qc response responseLen tc rcode
    tempFailureTTL now gotIt c' :
  insert getDNSPacketMinTTL c key qn qt qc response responseLen tc rcode tempFailureTTL now
    gotIt = Ok c' ->
  d_config c' = d_config c.
Proof.
  intros Hrun. apply insert_cases in Hrun
    as [-> | [-> | [-> | (ttl & i & s & _ & _ & _ & ->)]]]; try done.
  pose proof (insertLocked_cases c i s key qn qt qc tc
    (newCacheValue qn qt qc response responseLen tc now ttl) now
    (now + ttl)) as Hc.
  cbn zeta in Hc. destruct Hc as [-> | [-> | [n ->]]]; done.
Qed.

(** An entry that is found under [key] after an [insert] for [key] and
    was not there before is the value built by that [insert]. *)
Lemma insert_new_entry c key qn qt qc response responseLen tc rcode
    tempFailureTTL now gotIt c' v :
  insert getDNSPacketMinTTL c key qn qt qc response responseLen tc rcode tempFailureTTL now
    gotIt = Ok c' ->
  entryAt c' key = Some v ->
  entryAt c key <> Some v ->
  exists ttl,
    insertTTL getDNSPacketMinTTL c response responseLen rcode tempFailureTTL = inr ttl
    /\ v = newCacheValue qn qt qc response responseLen tc now ttl.
Proof.
  intros Hrun Hnew Hold. apply insert_cases in Hrun
    as [-> | [-> | [-> | (ttl & i & s & Httl & Hi & Hs & ->)]]]; try done.
  exists ttl. split; [done |].
  pose proof (insertLocked_cases c i s key qn qt qc tc
    (newCacheValue qn qt qc response responseLen tc now ttl) now
    (now + ttl)) as Hc.
  cbn zeta in Hc. destruct Hc as [Hc | [Hc | [n Hc]]];
    rewrite Hc in Hnew; try done.
  unfold entryAt in Hnew.
  rewrite (shardOf_set_shard _ _ _ s) in Hnew by done.
  cbn in Hnew. rewrite lookup_insert_eq in Hnew. by simplify_eq.
Qed.

(** An [insert] that gets as far as [insertLocked]. *)
Lemma insert_locked c key qn qt qc response responseLen tc rcode
    tempFailureTTL now gotIt ttl shardIndex shard :
  sizeof_dnsheader <= responseLen ->
  insertTTL getDNSPacketMinTTL c response responseLen rcode tempFailureTTL = inr ttl ->
  getShardIndex c key = Ok shardIndex ->
  vector_at (d_shards c) shardIndex = Ok shard ->
  d_entriesCount shard < shardCapacity c ->
  (d_deferrableInsertLock (d_config c) = true -> gotIt = true) ->
  insert getDNSPacketMinTTL c key qn qt qc response responseLen tc rcode tempFailureTTL now
    gotIt
  = Ok (insertLocked c shardIndex shard key qn qt qc tc
          (newCacheValue qn qt qc response responseLen tc now ttl)
          now (now + ttl)).
Proof.
  intros Hlen Httl Hi Hs Hroom Hlock. unfold insert.
  destruct (Z.ltb_spec responseLen sizeof_dnsheader); [lia |].
  rewrite Httl, Hi. cbn [mbind result_bind]. rewrite Hs.
  cbn [mbind result_bind].
  destruct (Z.geb_spec (d_entriesCount shard) (shardCapacity c)); [lia |].
  destruct (d_deferrableInsertLock _); [| done].
  by rewrite Hlock.
Qed.

(** C7.  For a SERVFAIL or REFUSED response the lifetime of the entry
    is the override when there is one and the configured temporary
    failure TTL otherwise.  When that lifetime is zero [insert] leaves
    the cache state as it was.  Any entry that the call leaves under the
    key and that was not there before is the new value with a validity
    of [now] plus that lifetime; and a non-zero lifetime does store that
    value when the response holds a header, the key is free in its
    shard, the shard has room and the write lock is obtained. *)
Theorem insert_temp_failure c key qn qt qc response responseLen tc rcode
    tempFailureTTL now gotIt :
  rcode = RCode.ServFail \/ rcode = RCode.Refused ->
  let effective := match tempFailureTTL with
                   | Some t => t
                   | None => d_tempFailureTTL (d_config c)
                   end in
  let run := insert getDNSPacketMinTTL c key qn qt qc response responseLen tc rcode
               tempFailureTTL now gotIt in
  (effective = 0 -> run = Ok c)
  /\ (forall c' v,
        run = Ok c' -> entryAt c' key = Some v -> entryAt c key <> Some v ->
        v = newCacheValue qn qt qc response responseLen tc now effective
        /\ validity v = now + effective)
  /\ (forall shard,
        effective <> 0 ->
        sizeof_dnsheader <= responseLen ->
        shardOf c key = Ok shard ->
        d_map shard !! key = None ->
        d_entriesCount shard = Z.of_nat (size (d_map shard)) ->
        d_entriesCount shard < shardCapacity c ->
        (d_deferrableInsertLock (d_config c) = true -> gotIt = true) ->
        exists c',
          run = Ok c'
          /\ entryAt c' key
             = Some (newCacheValue qn qt qc response responseLen tc now
                       effective)).
Proof.
  intros Hrcode effective run.
  assert (insertTTL getDNSPacketMinTTL c response responseLen rcode tempFailureTTL
          = if effective =? 0 then inl c else inr effective) as Httl.
  { unfold insertTTL.
    assert ((rcode =? RCode.ServFail) || (rcode =? RCode.Refused) = true)
      as ->; [by destruct Hrcode as [-> | ->] |].
    subst effective. by destruct tempFailureTTL. }
  split; [| split].
  - intros Hzero. subst run. unfold insert. rewrite Httl, Hzero. cbn.
    by destruct (_ <? _).
  - intros c' v Hrun Hnew Hold.
    destruct (insert_new_entry _ _ _ _ _ _ _ _ _ _ _ _ _ _ Hrun Hnew Hold)
      as (ttl & Httl' & ->).
    rewrite Httl in Httl'. destruct (effective =? 0); [done |].
    by simplify_eq.
  - intros shard Hnz Hlen Hshard Hfree Hcount Hroom Hlock.
    apply shardOf_Ok in Hshard as (i & Hi & Hs).
    destruct (Z.eqb_spec effective 0); [done |].
    subst run.
    rewrite (insert_locked _ _ _ _ _ _ _ _ _ _ _ _ effective i shard)
      by done.
    eexists. split; [done |].
    unfold insertLocked.
    destruct (Z.geb_spec (Z.of_nat (size (d_map shard))) (shardCapacity c));
      [lia |].
    rewrite Hfree. unfold entryAt.
    rewrite (shardOf_set_shard _ _ _ shard) by done.
    cbn. by rewrite lookup_insert_eq.
Qed.

End Insertion.

(** ** Capacity *)

Lemma wf_same c c' :
  d_config c' = d_config c -> d_shards c' = d_shards c -> wf c -> wf c'.
Proof. intros Hc Hs [? ? ? ?]. split; rewrite ?Hc, ?Hs; done. Qed.

Lemma withinCapacity_same c c' :
  d_config c' = d_config c -> d_shards c' = d_shards c ->
  withinCapacity c -> withinCapacity c'.
Proof.
  unfold withinCapacity, shardCapacity. intros -> ->. done.
Qed.

Lemma shardCapacity_bounds c :
  wf c -> 0 <= shardCapacity c <= d_maxEntries (d_config c).
Proof.
  intros [HS HM _ _]. unfold shardCapacity. split.
  - apply Z.div_pos; lia.
  - apply Z.div_le_upper_bound; [lia |]. nia.
Qed.

(** A well-formed cache has a shard for every key. *)
Lemma wf_shardOf c key :
  wf c ->
  exists shardIndex shard,
    getShardIndex c key = Ok shardIndex
    /\ 0 <= shardIndex < d_shardCount (d_config c)
    /\ vector_at (d_shards c) shardIndex = Ok shard.
Proof.
  intros [HS _ Hlen _]. unfold getShardIndex.
  destruct (Z.eqb_spec (d_shardCount (d_config c)) 0); [lia |].
  pose proof (Z.mod_pos_bound key (d_shardCount (d_config c))) as Hb.
  destruct (lookup_lt_is_Some_2 (d_shards c)
    (Z.to_nat (key mod d_shardCount (d_config c)))) as [shard Hshard];
    [lia |].
  exists (key mod d_shardCount (d_config c)), shard.
  split; [done |]. split; [lia |]. apply vector_at_Ok. split; [lia | done].
Qed.

Lemma set_shard_wf c shardIndex shard :
  wf c ->
  d_entriesCount shard = Z.of_nat (size (d_map shard)) ->
  wf (set_shard c shardIndex shard).
Proof.
  intros [? ? ? ?] Hcount. split; cbn; try done.
  - by rewrite length_insert.
  - by apply Forall_insert.
Qed.

Lemma set_shard_withinCapacity c shardIndex shard :
  withinCapacity c ->
  Z.of_nat (size (d_map shard)) <= shardCapacity c ->
  withinCapacity (set_shard c shardIndex shard).
Proof. intros Hc Hs. by apply Forall_insert. Qed.

(** [insertLocked] keeps the invariant and the capacity bound. *)
Lemma insertLocked_inv c shardIndex shard key qn qt qc tc newValue now
    newValidity :
  wf c -> withinCapacity c ->
  vector_at (d_shards c) shardIndex = Ok shard ->
  let c' := insertLocked c shardIndex shard key qn qt qc tc newValue now
              newValidity in
  wf c' /\ withinCapacity c'.
Proof.
  intros Hwf Hcap Hs. cbn zeta.
  apply vector_at_Ok in Hs as [_ Hs].
  pose proof (Forall_lookup_1 _ _ _ _ (wf_counts c Hwf) Hs) as Hcount.
  pose proof (Forall_lookup_1 _ _ _ _ Hcap Hs) as Hsize.
  pose proof (shardCapacity_bounds c Hwf) as Hb.
  pose proof (wf_maxEntries c Hwf) as HM.
  cbn beta in Hcount, Hsize. unfold insertLocked.
  destruct (Z.geb_spec (Z.of_nat (size (d_map shard))) (shardCapacity c));
    [done |].
  destruct (d_map shard !! key) as [old|] eqn:Hold.
  - destruct (_ && _);
      [split; [by apply (wf_same c) | by apply (withinCapacity_same c)] |].
    destruct (_ <=? _); [done |].
    split.
    + apply set_shard_wf; [done |]. cbn.
      by rewrite map_size_insert_Some.
    + apply set_shard_withinCapacity; [done |]. cbn.
      by rewrite map_size_insert_Some.
  - split.
    + apply set_shard_wf; [done |]. cbn.
      rewrite map_size_insert_None by done.
      rewrite wrap64_small; lia.
    + apply set_shard_withinCapacity; [done |]. cbn.
      rewrite map_size_insert_None by done. lia.
Qed.

Lemma totalEntries_cons shard shards :
  totalEntries (shard :: shards)
  = Z.of_nat (size (d_map shard)) + totalEntries shards.
Proof. reflexivity. Qed.

Lemma totalEntries_nonneg shards : 0 <= totalEntries shards.
Proof.
  induction shards as [|shard shards IH]; [done |].
  rewrite totalEntries_cons. lia.
Qed.

(** The counters of a well-formed cache add up to the number of entries,
    without wrapping. *)
Lemma getSizeLoop_total shards visited rest count :
  shards = visited ++ rest ->
  Forall (fun shard => d_entriesCount shard = Z.of_nat (size (d_map shard)))
    rest ->
  0 <= count -> count + totalEntries rest < 2 ^ 64 ->
  getSizeLoop (length rest) shards (Z.of_nat (length visited)) count
  = Ok (count + totalEntries rest).
Proof.
  revert visited count.
  induction rest as [|shard rest IH]; intros visited count -> Hcounts Hge Hlt.
  - cbn. f_equal. lia.
  - cbn [length getSizeLoop].
    assert (vector_at (visited ++ shard :: rest) (Z.of_nat (length visited))
            = Ok shard) as ->.
    { apply vector_at_Ok. split; [lia |]. rewrite Nat2Z.id.
      by rewrite list_lookup_middle. }
    cbn [mbind result_bind].
    apply Forall_cons in Hcounts as [Hshard Hcounts].
    rewrite totalEntries_cons in Hlt |- *.
    pose proof (totalEntries_nonneg rest) as Hrest.
    rewrite Hshard, wrap64_small by lia.
    replace (Z.of_nat (length visited) + 1)
      with (Z.of_nat (length (visited ++ [shard])))
      by (rewrite length_app; cbn; lia).
    rewrite IH; try done; try lia.
    + f_equal. lia.
    + by rewrite <- app_assoc.
Qed.

Lemma totalEntries_bound shards cap :
  Forall (fun shard => Z.of_nat (size (d_map shard)) <= cap) shards ->
  0 <= totalEntries shards <= Z.of_nat (length shards) * cap.
Proof.
  induction 1 as [|shard shards Hs _ IH]; [cbn; lia |].
  rewrite totalEntries_cons. cbn [length]. lia.
Qed.

Lemma getSize_total c :
  wf c -> withinCapacity c ->
  getSize c = Ok (totalEntries (d_shards c))
  /\ 0 <= totalEntries (d_shards c) <= d_maxEntries (d_config c).
Proof.
  intros Hwf Hcap.
  pose proof (totalEntries_bound _ _ Hcap) as Hb.
  destruct Hwf as [HS HM Hlen Hcounts].
  assert (Z.of_nat (length (d_shards c)) * shardCapacity c
          <= d_maxEntries (d_config c)) as Hle.
  { rewrite Hlen. unfold shardCapacity. apply Z.mul_div_le. lia. }
  split; [| lia].
  unfold getSize. rewrite <- Hlen, Nat2Z.id.
  pose proof (getSizeLoop_total (d_shards c) [] (d_shards c) 0 eq_refl
    Hcounts) as Hloop.
  change (Z.of_nat (length (@nil CacheShard))) with 0 in Hloop.
  rewrite Hloop by lia. done.
Qed.

Lemma construct_inv maxEntries maxTTL minTTL tempFailureTTL staleTTL dontAge
    shards deferrableInsertLock :
  0 < shards < 2 ^ 32 -> 0 <= maxEntries < 2 ^ 64 ->
  let c := construct maxEntries maxTTL minTTL tempFailureTTL staleTTL dontAge
             shards deferrableInsertLock in
  wf c /\ withinCapacity c.
Proof.
  intros HS HM. cbn zeta. split.
  - split; cbn; try done.
    + rewrite length_replicate. lia.
    + by apply Forall_replicate.
  - apply Forall_replicate. unfold shardCapacity. cbn.
    rewrite map_size_empty. apply Z.div_pos; lia.
Qed.

Section Capacity.

Variable getDNSPacketMinTTL : list byte -> Z -> Z.

(** On a well-formed cache [insert] returns normally and keeps the
    invariant and the capacity bound. *)
Lemma insert_inv c key qn qt qc response responseLen tc rcode tempFailureTTL
    now gotIt :
  wf c -> withinCapacity c ->
  exists c',
    insert getDNSPacketMinTTL c key qn qt qc response responseLen tc rcode
      tempFailureTTL now gotIt = Ok c'
    /\ wf c' /\ withinCapacity c'.
Proof.
  intros Hwf Hcap.
  assert (exists c', insert getDNSPacketMinTTL c key qn qt qc response
            responseLen tc rcode tempFailureTTL now gotIt = Ok c')
    as [c' Hrun].
  { unfold insert. destruct (_ <? _); [by eexists |].
    destruct (insertTTL _ _ _ _ _ _); [by eexists |].
    destruct (wf_shardOf c key Hwf) as (i & s & Hi & _ & Hs).
    rewrite Hi. cbn [mbind result_bind]. rewrite Hs.
    cbn [mbind result_bind].
    destruct (_ >=? _); [by eexists |].
    destruct (d_deferrableInsertLock _); [destruct gotIt |]; by eexists. }
  exists c'. split; [done |].
  apply insert_cases in Hrun
    as [-> | [-> | [-> | (ttl & i & s & _ & _ & Hs & ->)]]]; try done.
  - split; [by apply (wf_same c) | by apply (withinCapacity_same c)].
  - split; [by apply (wf_same c) | by apply (withinCapacity_same c)].
  - by apply insertLocked_inv.
Qed.

Lemma insertAll_inv calls c :
  wf c -> withinCapacity c ->
  exists c',
    insertAll getDNSPacketMinTTL c calls = Ok c'
    /\ wf c' /\ withinCapacity c' /\ d_config c' = d_config c.
Proof.
  revert c. induction calls as [|call calls IH]; intros c Hwf Hcap.
  - by exists c.
  - destruct (insert_inv c (ic_key call) (ic_qname call) (ic_qtype call)
      (ic_qclass call) (ic_response call) (ic_responseLen call) (ic_tcp call)
      (ic_rcode call) (ic_tempFailureTTL call) (ic_now call) (ic_gotIt call)
      Hwf Hcap) as (c1 & Hrun & Hwf1 & Hcap1).
    destruct (IH c1 Hwf1 Hcap1) as (c' & Hrest & Hwf' & Hcap' & Hcfg).
    exists c'. cbn [insertAll]. rewrite Hrun. cbn [mbind result_bind].
    split; [done |]. split; [done |]. split; [done |].
    rewrite Hcfg. exact (insert_config _ _ _ _ _ _ _ _ _ _ _ _ _ _ Hrun).
Qed.

(** An [insert] into a shard that holds its capacity changes no shard. *)
Lemma insert_full_shard c key qn qt qc response responseLen tc rcode
    tempFailureTTL now gotIt shard :
  shardOf c key = Ok shard ->
  shardCapacity c <= d_entriesCount shard ->
  exists c',
    insert getDNSPacketMinTTL c key qn qt qc response responseLen tc rcode
      tempFailureTTL now gotIt = Ok c'
    /\ d_shards c' = d_shards c.
Proof.
  intros Hshard Hfull. apply shardOf_Ok in Hshard as (i & Hi & Hs).
  unfold insert. destruct (_ <? _); [by eexists |].
  destruct (insertTTL _ _ _ _ _ _) as [c0|ttl] eqn:Httl.
  - exists c0. split; [done |]. unfold insertTTL in Httl.
    repeat match type of Httl with
           | (if ?b then _ else _) = _ => destruct b
           end; by simplify_eq.
  - rewrite Hi. cbn [mbind result_bind]. rewrite Hs. cbn [mbind result_bind].
    destruct (Z.geb_spec (d_entriesCount shard) (shardCapacity c)); [| lia].
    by eexists.
Qed.

(** An [insert] of a key that its shard does not hold, into a shard with
    room, with a lifetime settled and the write lock obtained, stores the
    new value and makes the shard one entry larger. *)
Lemma insert_free_key c key qn qt qc response responseLen tc rcode
    tempFailureTTL now gotIt shard ttl :
  shardOf c key = Ok shard ->
  d_entriesCount shard = Z.of_nat (size (d_map shard)) ->
  Z.of_nat (size (d_map shard)) < shardCapacity c ->
  d_map shard !! key = None ->
  sizeof_dnsheader <= responseLen ->
  insertTTL getDNSPacketMinTTL c response responseLen rcode tempFailureTTL
    = inr ttl ->
  (d_deferrableInsertLock (d_config c) = true -> gotIt = true) ->
  exists c' shard',
    insert getDNSPacketMinTTL c key qn qt qc response responseLen tc rcode
      tempFailureTTL now gotIt = Ok c'
    /\ shardOf c' key = Ok shard'
    /\ d_map shard'
       = <[key := newCacheValue qn qt qc response responseLen tc now ttl]>
           (d_map shard)
    /\ Z.of_nat (size (d_map shard')) = Z.of_nat (size (d_map shard)) + 1.
Proof.
  intros Hshard Hcount Hroom Hfree Hlen Httl Hlock.
  apply shardOf_Ok in Hshard as (i & Hi & Hs).
  rewrite (insert_locked _ _ _ _ _ _ _ _ _ _ _ _ _ ttl i shard) by (done || lia).
  unfold insertLocked.
  destruct (Z.geb_spec (Z.of_nat (size (d_map shard))) (shardCapacity c));
    [lia |].
  rewrite Hfree. eexists _, _. split; [done |].
  split; [by apply (shardOf_set_shard _ _ _ shard) |].
  cbn. split; [done |]. rewrite map_size_insert_None by done. lia.
Qed.

(** C8.  Starting from a freshly constructed cache, any sequence of calls
    of [insert] returns normally and leaves every shard with a counter
    equal to the number of entries of its map, and with at most
    [maxEntries / shards] entries in its map, which is within the bound
    [maxEntries / shards + 1]; [getSize] is the number of entries of all
    the maps and at most [maxEntries].  In the cache so reached, a further
    [insert] into a shard whose map holds [maxEntries / shards] entries
    returns normally and changes no shard, and [insertLocked] on a shard
    that full changes nothing at all; while an [insert] of a key that is
    free in a shard below that bound, with a lifetime settled and the
    write lock obtained, is stored and makes the shard one entry larger:
    the insertions refused for want of room are those that would exceed
    the bound. *)
Theorem insert_capacity maxEntries maxTTL minTTL tempFailureTTL staleTTL
    dontAge shards deferrableInsertLock calls :
  0 < shards < 2 ^ 32 -> 0 <= maxEntries < 2 ^ 64 ->
  exists c,
    insertAll getDNSPacketMinTTL
      (construct maxEntries maxTTL minTTL tempFailureTTL staleTTL dontAge
         shards deferrableInsertLock) calls = Ok c
    /\ Forall (fun shard =>
                d_entriesCount shard = Z.of_nat (size (d_map shard))
                /\ Z.of_nat (size (d_map shard)) <= maxEntries / shards
                /\ Z.of_nat (size (d_map shard)) <= maxEntries / shards + 1)
         (d_shards c)
    /\ getSize c = Ok (totalEntries (d_shards c))
    /\ totalEntries (d_shards c) <= maxEntries
    /\ (forall key qn qt qc response responseLen tc rcode tempFailureTTL' now
          gotIt shard,
          shardOf c key = Ok shard ->
          maxEntries / shards <= Z.of_nat (size (d_map shard)) ->
          exists c',
            insert getDNSPacketMinTTL c key qn qt qc response responseLen tc
              rcode tempFailureTTL' now gotIt = Ok c'
            /\ d_shards c' = d_shards c)
    /\ (forall shardIndex shard key qn qt qc tc newValue now newValidity,
          maxEntries / shards <= Z.of_nat (size (d_map shard)) ->
          insertLocked c shardIndex shard key qn qt qc tc newValue now
            newValidity = c)
    /\ (forall key qn qt qc response responseLen tc rcode tempFailureTTL' now
          gotIt shard ttl,
          shardOf c key = Ok shard ->
          Z.of_nat (size (d_map shard)) < maxEntries / shards ->
          d_map shard !! key = None ->
          sizeof_dnsheader <= responseLen ->
          insertTTL getDNSPacketMinTTL c response responseLen rcode
            tempFailureTTL' = inr ttl ->
          (deferrableInsertLock = true -> gotIt = true) ->
          exists c' shard',
            insert getDNSPacketMinTTL c key qn qt qc response responseLen tc
              rcode tempFailureTTL' now gotIt = Ok c'
            /\ shardOf c' key = Ok shard'
            /\ d_map shard'
               = <[key := newCacheValue qn qt qc response responseLen tc now
                            ttl]> (d_map shard)
            /\ Z.of_nat (size (d_map shard'))
               = Z.of_nat (size (d_map shard)) + 1).
Proof.
  intros HS HM.
  destruct (construct_inv maxEntries maxTTL minTTL tempFailureTTL staleTTL
    dontAge shards deferrableInsertLock HS HM) as [Hwf0 Hcap0].
  destruct (insertAll_inv calls _ Hwf0 Hcap0)
    as (c & Hrun & Hwf & Hcap & Hcfg).
  exists c. split; [done |].
  assert (shardCapacity c = maxEntries / shards) as Hcapacity
    by (unfold shardCapacity; by rewrite Hcfg).
  pose proof (wf_counts c Hwf) as Hcounts.
  assert (forall key shard,
            shardOf c key = Ok shard ->
            d_entriesCount shard = Z.of_nat (size (d_map shard))) as Hcount.
  { intros key shard Hshard. apply shardOf_Ok in Hshard as (i & _ & Hs).
    apply vector_at_Ok in Hs as [_ Hs].
    exact (Forall_lookup_1 _ _ _ _ Hcounts Hs). }
  split; [| split; [| split; [| split; [| split]]]].
  - unfold withinCapacity in Hcap. rewrite Hcapacity in Hcap.
    rewrite Forall_forall in *. intros shard Hin.
    specialize (Hcounts shard Hin). specialize (Hcap shard Hin).
    cbn beta in *. lia.
  - by destruct (getSize_total c Hwf Hcap).
  - destruct (getSize_total c Hwf Hcap) as [_ Hbound].
    rewrite Hcfg in Hbound. cbn in Hbound. lia.
  - intros * Hshard Hfull.
    apply (insert_full_shard _ _ _ _ _ _ _ _ _ _ _ _ shard); [done |].
    rewrite Hcapacity, (Hcount key shard Hshard). done.
  - intros * Hfull. unfold insertLocked.
    destruct (Z.geb_spec (Z.of_nat (size (d_map shard))) (shardCapacity c));
      [done | lia].
  - intros * Hshard Hroom Hfree Hlen Httl Hlock.
    apply insert_free_key; try done.
    + by apply (Hcount key).
    + by rewrite Hcapacity.
    + by rewrite Hcfg.
Qed.

End Capacity.

(** ** Purging expired entries *)

Lemma purgedShard_refl now shard : purgedShard now shard shard.
Proof.
  split; [done |]. intros k v Hk Hnone. by rewrite Hk in Hnone.
Qed.

Lemma purgedShard_trans now s1 s2 s3 :
  purgedShard now s1 s2 -> purgedShard now s2 s3 -> purgedShard now s1 s3.
Proof.
  intros [Hsub12 Hdel12] [Hsub23 Hdel23]. split.
  - by trans (d_map s2).
  - intros k v Hk Hnone.
    destruct (d_map s2 !! k) as [v'|] eqn:Hk2.
    + assert (v' = v) as ->.
      { eapply lookup_weaken in Hk2; [| exact Hsub12]. congruence. }
      by eapply Hdel23.
    + by eapply Hdel12.
Qed.

Lemma totalEntries_insert shards i shard shard' :
  shards !! i = Some shard ->
  totalEntries (<[i := shard']> shards)
  = totalEntries shards - Z.of_nat (size (d_map shard))
    + Z.of_nat (size (d_map shard')).
Proof.
  revert i. induction shards as [|s shards IH]; intros i Hi; [done |].
  destruct i as [|i]; cbn in Hi.
  - simplify_eq.
    change (<[0%nat := shard']> (shard :: shards)) with (shard' :: shards).
    rewrite !totalEntries_cons. lia.
  - change (<[S i := shard']> (s :: shards))
      with (s :: <[i := shard']> shards).
    rewrite !totalEntries_cons, (IH i Hi). lia.
Qed.

(** One pass of the inner loop of [purgeExpired] over the entries [its]
    of a shard. *)
Lemma purgeScan_spec now its shard toRemove :
  NoDup its.*1 ->
  (forall k v, (k, v) ∈ its -> d_map shard !! k = Some v) ->
  d_entriesCount shard = Z.of_nat (size (d_map shard)) ->
  Z.of_nat (size (d_map shard)) < 2 ^ 64 ->
  0 <= toRemove ->
  exists shard' toRemove',
    purgeScan now its shard toRemove = (shard', toRemove')
    /\ purgedShard now shard shard'
    /\ 0 <= toRemove' <= toRemove
    /\ Z.of_nat (size (d_map shard))
       = Z.of_nat (size (d_map shard')) + (toRemove - toRemove')
    /\ d_entriesCount shard' = Z.of_nat (size (d_map shard')).
Proof.
  revert shard toRemove.
  induction its as [|[k v] its IH]; intros shard toRemove Hnodup Hin Hcount
    Hsize Hbudget.
  - exists shard, toRemove. cbn. split; [done |].
    split; [apply purgedShard_refl |]. split; [lia |]. split; [lia | done].
  - cbn [purgeScan].
    destruct (Z.gtb_spec toRemove 0) as [Hpos|Hzero].
    2:{ exists shard, toRemove. split; [done |].
        split; [apply purgedShard_refl |]. split; [lia |].
        split; [lia | done]. }
    cbn in Hnodup. apply NoDup_cons in Hnodup as [Hk Hnodup].
    assert (d_map shard !! k = Some v) as Hkv
      by (apply Hin; apply list_elem_of_here).
    destruct (Z.ltb_spec (validity v) now) as [Hexp|Hlive].
    + pose proof (map_size_delete_Some k (d_map shard) ltac:(by eexists))
        as Hdel.
      assert (size (d_map shard) ≠ 0%nat) as Hnz.
      { apply map_size_non_empty_iff. intros Hempty.
        by rewrite Hempty, lookup_empty in Hkv. }
      destruct (IH (mkCacheShard (delete k (d_map shard))
                      (wrap64 (d_entriesCount shard - 1))) (toRemove - 1))
        as (shard' & t' & Hrun & [Hsub Hgone] & Hb & Hsz & Hcnt);
        cbn [d_map d_entriesCount]; try done; try lia.
      * intros k' v' Hin'. rewrite lookup_delete_ne.
        -- apply Hin. by apply list_elem_of_further.
        -- intros <-. apply Hk. apply list_elem_of_fmap.
           by exists (k, v').
      * rewrite wrap64_small; lia.
      * exists shard', t'. split; [done |]. split; [| split; [lia |]].
        -- split.
           ++ trans (delete k (d_map shard)); [done |]. apply delete_subseteq.
           ++ intros k0 v0 Hk0 Hnone. destruct (decide (k0 = k)) as [->|Hne].
              ** by simplify_eq.
              ** eapply Hgone; [| done]. cbn. by rewrite lookup_delete_ne.
        -- split; [| done]. cbn [d_map] in Hsz. lia.
    + destruct (IH shard toRemove) as (shard' & t' & Hrun & Hrest);
        try done.
      * intros k' v' Hin'. apply Hin. by apply list_elem_of_further.
      * by exists shard', t'.
Qed.

(** The inner loop only deletes. *)
Lemma purgeScan_subseteq now its shard toRemove :
  d_map (purgeScan now its shard toRemove).1 ⊆ d_map shard.
Proof.
  revert shard toRemove.
  induction its as [|[k v] its IH]; intros shard toRemove; [done |].
  cbn [purgeScan]. destruct (toRemove >? 0); [| done].
  destruct (validity v <? now); [| apply IH].
  etrans; [apply IH |]. apply delete_subseteq.
Qed.

(** When budget is left after the inner loop, every entry of the
    iteration with a validity before [now] has been deleted. *)
Lemma purgeScan_complete now its shard toRemove :
  0 < (purgeScan now its shard toRemove).2 ->
  forall k v, (k, v) ∈ its -> validity v < now ->
    d_map (purgeScan now its shard toRemove).1 !! k = None.
Proof.
  revert shard toRemove.
  induction its as [|[k0 v0] its IH]; intros shard toRemove Hleft k v Hin Hexp.
  - by apply elem_of_nil in Hin.
  - cbn [purgeScan] in *.
    destruct (Z.gtb_spec toRemove 0) as [Hpos|Hzero]; [| cbn in Hleft; lia].
    destruct (Z.ltb_spec (validity v0) now) as [Hexp0|Hlive0].
    + apply elem_of_cons in Hin as [[= -> ->] | Hin].
      * eapply lookup_weaken_None; [| apply purgeScan_subseteq].
        cbn. apply lookup_delete_eq.
      * by apply (IH _ _ Hleft k v).
    + apply elem_of_cons in Hin as [[= -> ->] | Hin]; [lia |].
      by apply (IH _ _ Hleft k v).
Qed.

Lemma cleanShard_purged now shard shard' :
  purgedShard now shard shard' -> cleanShard now shard ->
  cleanShard now shard'.
Proof.
  intros [Hsub _] Hclean k v Hk. apply (Hclean k).
  by eapply lookup_weaken.
Qed.

Section Purge.

Variable iteration : gmap Z CacheValue -> list (Z * CacheValue).

(** Whatever the order, the iteration runs over the entries of the map,
    each once. *)
Hypothesis iteration_perm : forall m, iteration m ≡ₚ map_to_list m.

Lemma iteration_NoDup m : NoDup (iteration m).*1.
Proof.
  rewrite (iteration_perm m). apply NoDup_fst_map_to_list.
Qed.

Lemma iteration_lookup m k v : (k, v) ∈ iteration m -> m !! k = Some v.
Proof.
  rewrite (iteration_perm m). by rewrite elem_of_map_to_list.
Qed.

Lemma iteration_elem m k v : m !! k = Some v -> (k, v) ∈ iteration m.
Proof.
  rewrite (iteration_perm m). by rewrite elem_of_map_to_list.
Qed.

(** One pass of the outer loop of [purgeExpired]: the shard under the
    rotation index is scanned and written back; it is clean when budget
    is left. *)
Lemma purgePass_spec now c toRemove :
  wf c -> withinCapacity c -> 0 <= toRemove ->
  exists shard shard' toRemove',
    let shardIndex := d_expungeIndex c mod d_shardCount (d_config c) in
    getShardIndex c (d_expungeIndex c) = Ok shardIndex
    /\ vector_at (d_shards c) shardIndex = Ok shard
    /\ purgeScan now (iteration (d_map shard)) shard toRemove
       = (shard', toRemove')
    /\ let c' := set_shard (set_expungeIndex c (wrap32 (d_expungeIndex c + 1)))
                   shardIndex shard' in
       wf c' /\ withinCapacity c'
       /\ Forall2 (purgedShard now) (d_shards c) (d_shards c')
       /\ 0 <= toRemove' <= toRemove
       /\ totalEntries (d_shards c)
          = totalEntries (d_shards c') + (toRemove - toRemove')
       /\ d_shards c' !! Z.to_nat shardIndex = Some shard'
       /\ (0 < toRemove' -> cleanShard now shard').
Proof.
  intros Hwf Hcap Hbudget.
  destruct (wf_shardOf c (d_expungeIndex c) Hwf)
    as (i & shard & Hi & Hrange & Hs).
  assert (i = d_expungeIndex c mod d_shardCount (d_config c)) as ->.
  { unfold getShardIndex in Hi. destruct (_ =? _); by simplify_eq. }
  pose proof Hs as Hs'. apply vector_at_Ok in Hs' as [_ Hlookup].
  pose proof (Forall_lookup_1 _ _ _ _ (wf_counts c Hwf) Hlookup) as Hcount.
  pose proof (Forall_lookup_1 _ _ _ _ Hcap Hlookup) as Hsize.
  pose proof (shardCapacity_bounds c Hwf) as Hb.
  pose proof (wf_maxEntries c Hwf) as HM.
  cbn beta in Hcount, Hsize.
  destruct (purgeScan_spec now (iteration (d_map shard)) shard toRemove)
    as (shard' & t' & Hscan & Hpurged & Ht' & Hsz & Hcnt);
    [apply iteration_NoDup | apply iteration_lookup | done | lia | done |].
  exists shard, shard', t'. cbn zeta. split; [done |]. split; [done |].
  split; [done |].
  split; [| split; [| split; [| split; [| split; [| split]]]]].
  - apply set_shard_wf; [| done]. by apply (wf_same c).
  - apply set_shard_withinCapacity; [by apply (withinCapacity_same c) |].
    unfold shardCapacity in *. cbn. lia.
  - cbn. rewrite <- (list_insert_id (d_shards c) _ shard Hlookup) at 1.
    apply Forall2_insert; [| done].
    apply Forall_Forall2_diag, Forall_forall. intros. apply purgedShard_refl.
  - done.
  - cbn. rewrite (totalEntries_insert _ _ shard) by done. lia.
  - cbn. apply list_lookup_insert_eq. by eapply lookup_lt_Some.
  - intros Hleft k v Hk.
    destruct (Z.le_gt_cases now (validity v)) as [|Hexp]; [done |].
    exfalso.
    pose proof (purgeScan_complete now (iteration (d_map shard)) shard
                  toRemove) as Hcomplete.
    rewrite Hscan in Hcomplete. cbn [fst snd] in Hcomplete.
    assert (d_map shard !! k = Some v) as Hk0.
    { destruct Hpurged as [Hsub _]. by eapply lookup_weaken. }
    rewrite (Hcomplete Hleft k v) in Hk; [done | | lia].
    by apply iteration_elem.
Qed.

(** The outer loop.  The last clause tells which shards have been
    scanned to their end when budget is left: those under the rotation
    index and the indices after it, as long as the 32-bit index does not
    wrap around. *)
Lemma purgeLoop_spec unscanned : forall now c toRemove scannedMaps,
  wf c -> withinCapacity c -> 0 <= toRemove ->
  exists c' toRemove' scannedMaps',
    purgeLoop iteration unscanned now c toRemove scannedMaps
    = Ok (c', toRemove', scannedMaps')
    /\ d_config c' = d_config c /\ d_stats c' = d_stats c
    /\ wf c' /\ withinCapacity c'
    /\ Forall2 (purgedShard now) (d_shards c) (d_shards c')
    /\ 0 <= toRemove' <= toRemove
    /\ totalEntries (d_shards c)
       = totalEntries (d_shards c') + (toRemove - toRemove')
    /\ scannedMaps < scannedMaps'
       <= scannedMaps + Z.max 1 (Z.of_nat unscanned)
    /\ (toRemove' = 0
        \/ scannedMaps' = scannedMaps + Z.max 1 (Z.of_nat unscanned))
    /\ (0 < toRemove' -> 0 <= d_expungeIndex c ->
        d_expungeIndex c + Z.max 1 (Z.of_nat unscanned) <= 2 ^ 32 ->
        forall j shard',
          0 <= j < Z.max 1 (Z.of_nat unscanned) ->
          d_shards c'
            !! Z.to_nat ((d_expungeIndex c + j) mod d_shardCount (d_config c))
          = Some shard' ->
          cleanShard now shard').
Proof.
  induction unscanned as [|n IH]; intros now c toRemove scannedMaps Hwf Hcap
    Hbudget;
    destruct (purgePass_spec now c toRemove Hwf Hcap Hbudget)
      as (shard & shard' & t' & Hi & Hs & Hscan & Hwf' & Hcap' & Hrel
          & Ht' & Htotal & Hat & Hclean);
    cbn zeta in Hi, Hs, Hat;
    cbn [purgeLoop]; rewrite Hi; cbn [mbind result_bind];
    change (d_shards (set_expungeIndex c (wrap32 (d_expungeIndex c + 1))))
      with (d_shards c);
    rewrite Hs; cbn [mbind result_bind]; rewrite Hscan.
  - eexists _, _, _. split; [done |].
    do 7 (split; [done || lia |]). split; [lia |]. split; [right; lia |].
    intros Hleft _ _ j s' Hj Hs'.
    assert (j = 0) as -> by lia. rewrite Z.add_0_r in Hs'.
    rewrite Hat in Hs'. simplify_eq. by apply Hclean.
  - destruct n as [|m].
    + eexists _, _, _. split; [done |].
      do 7 (split; [done || lia |]). split; [lia |]. split; [right; lia |].
      intros Hleft _ _ j s' Hj Hs'.
      assert (j = 0) as -> by lia. rewrite Z.add_0_r in Hs'.
      rewrite Hat in Hs'. simplify_eq. by apply Hclean.
    + destruct (Z.gtb_spec t' 0) as [Hpos|Hzero].
      * destruct (IH now _ t' (scannedMaps + 1) Hwf' Hcap' ltac:(lia))
          as (c2 & t2 & s2 & Hrun & Hcfg & Hstats & Hwf2 & Hcap2 & Hrel2
              & Ht2 & Htotal2 & Hs2 & Hstop & Hclean2).
        exists c2, t2, s2. split; [done |].
        split; [by rewrite Hcfg |]. split; [by rewrite Hstats |].
        split; [done |]. split; [done |].
        split.
        { eapply Forall2_trans; [| exact Hrel | exact Hrel2].
          intros ? ? ?. apply purgedShard_trans. }
        split; [lia |]. split; [lia |]. split; [lia |].
        split; [destruct Hstop as [-> | ->]; [by left | right; lia] |].
        intros Hleft Hge Hnowrap j s' Hj Hs'.
        destruct (decide (j = 0)) as [-> | Hj0].
        -- rewrite Z.add_0_r in Hs'.
           destruct (Forall2_lookup_l _ _ _ _ _ Hrel2 Hat)
             as (s2' & Hs2' & Hpurged).
           rewrite Hs' in Hs2'. simplify_eq.
           eapply cleanShard_purged; [exact Hpurged |]. apply Hclean. lia.
        -- cbn [d_expungeIndex d_config set_shard set_shards
                  set_expungeIndex] in Hclean2.
           rewrite wrap32_small in Hclean2 by lia.
           apply (Hclean2 Hleft ltac:(lia) ltac:(lia) (j - 1) s');
             [lia |].
           rewrite <- Hs'. do 3 f_equal. lia.
      * eexists _, _, _. split; [done |].
        do 7 (split; [done || lia |]). split; [lia |]. split; [left; lia |].
        intros Hleft. lia.
Qed.

(** C4.  On a cache within its capacity, [purgeExpired (upTo)] returns
    normally, with the cache again well-formed and within its capacity.
    With [upTo] at least the size it leaves the cache state as it was.
    Otherwise every shard only loses entries, each of them with a
    validity before [now] (so at most [now]), while an entry that has not
    expired stays; the number of entries deleted is the budget used, at
    most [size - upTo]; and the scan ends after at least one and at most
    [d_shardCount] passes, with the budget used up or with
    [d_shardCount] passes made.  When budget is left at the end (and the
    32-bit rotation index did not wrap around during the call), the
    passes have scanned every shard: no shard holds an entry with a
    validity before [now]. *)
Theorem purgeExpired_only_expired c upTo now :
  wf c -> withinCapacity c ->
  exists c' toRemove scannedMaps size,
    getSize c = Ok size
    /\ purgeExpiredRun iteration c upTo now = Ok (c', toRemove, scannedMaps)
    /\ purgeExpired iteration c upTo now = Ok c'
    /\ wf c' /\ withinCapacity c'
    /\ (upTo >= size -> c' = c)
    /\ (upTo < size ->
        Forall2 (purgedShard now) (d_shards c) (d_shards c')
        /\ Forall2 (fun shard shard' => forall k v,
                      d_map shard !! k = Some v -> now <= validity v ->
                      d_map shard' !! k = Some v)
             (d_shards c) (d_shards c')
        /\ 0 <= toRemove
        /\ totalEntries (d_shards c) - totalEntries (d_shards c')
           = (size - upTo) - toRemove
        /\ (exists size', getSize c' = Ok size'
                          /\ size - size' = (size - upTo) - toRemove)
        /\ 1 <= scannedMaps <= d_shardCount (d_config c)
        /\ (toRemove = 0 \/ scannedMaps = d_shardCount (d_config c))
        /\ (0 < toRemove -> 0 <= d_expungeIndex c ->
            d_expungeIndex c + d_shardCount (d_config c) <= 2 ^ 32 ->
            Forall (cleanShard now) (d_shards c'))).
Proof.
  intros Hwf Hcap.
  destruct (getSize_total c Hwf Hcap) as [Hsize Hbound].
  unfold purgeExpired, purgeExpiredRun. rewrite Hsize.
  cbn [mbind result_bind].
  destruct (Z.geb_spec upTo (totalEntries (d_shards c))) as [Hge|Hlt].
  { exists c, 0, 0, (totalEntries (d_shards c)).
    do 6 (split; [done |]). intros. lia. }
  destruct (purgeLoop_spec (Z.to_nat (d_shardCount (d_config c))) now c
              (totalEntries (d_shards c) - upTo) 0 Hwf Hcap ltac:(lia))
    as (c' & t' & s' & Hrun & Hcfg & Hstats & Hwf' & Hcap' & Hrel & Ht'
        & Htotal & Hs' & Hstop & Hclean).
  pose proof (wf_shardCount c Hwf) as HS.
  rewrite Z2Nat.id, Z.max_r in Hs', Hstop, Hclean by lia.
  exists c', t', s', (totalEntries (d_shards c)).
  split; [done |]. rewrite Hrun. cbn [mbind result_bind].
  split; [done |]. split; [done |]. split; [done |]. split; [done |].
  split; [intros; lia |].
  intros _. split; [done |]. split.
  { eapply Forall2_impl; [exact Hrel |].
    intros shard shard' [Hsub Hgone] k v Hk Hlive.
    destruct (d_map shard' !! k) as [v'|] eqn:Hk'.
    - eapply lookup_weaken in Hk'; [| exact Hsub]. congruence.
    - specialize (Hgone k v Hk Hk'). lia. }
  split; [lia |]. split; [lia |]. split.
  { destruct (getSize_total c' Hwf' Hcap') as [Hsize' _].
    eexists. split; [done |]. lia. }
  split; [lia |].
  split; [destruct Hstop as [-> | ->]; [by left | right; lia] |].
  intros Hleft Hge Hnowrap. apply Forall_lookup_2. intros i shard' Hi.
  pose proof (wf_shards c' Hwf') as Hlen. rewrite Hcfg in Hlen.
  apply lookup_lt_Some in Hi as Hlt'.
  set (S := d_shardCount (d_config c)) in *.
  apply (Hclean Hleft Hge Hnowrap ((Z.of_nat i - d_expungeIndex c) mod S));
    [apply Z.mod_pos_bound; lia |].
  rewrite Zplus_mod_idemp_r.
  replace (d_expungeIndex c + (Z.of_nat i - d_expungeIndex c))
    with (Z.of_nat i) by lia.
  rewrite Z.mod_small by lia. by rewrite Nat2Z.id.
Qed.

End Purge.

(** ** The bytes of a hit *)

Lemma memcpy_length dst off src :
  (Z.to_nat off + length src <= length dst)%nat ->
  length (memcpy dst off src) = length dst.
Proof.
  intros H. unfold memcpy.
  rewrite !length_app, length_take, length_drop. lia.
Qed.

Lemma memcpy_lookup_before dst off src i :
  (i < Z.to_nat off)%nat -> (Z.to_nat off <= length dst)%nat ->
  memcpy dst off src !! i = dst !! i.
Proof.
  intros Hi Hoff. unfold memcpy.
  rewrite lookup_app_l by (rewrite length_take; lia).
  by rewrite lookup_take_lt.
Qed.

Lemma memcpy_lookup_in dst off src j :
  (Z.to_nat off <= length dst)%nat -> (j < length src)%nat ->
  memcpy dst off src !! (Z.to_nat off + j)%nat = src !! j.
Proof.
  intros Hoff Hj. unfold memcpy.
  rewrite lookup_app_r by (rewrite length_take; lia).
  rewrite length_take, lookup_app_l by lia.
  f_equal. lia.
Qed.

Lemma memcpy_lookup_after dst off src i :
  (Z.to_nat off + length src <= length dst)%nat ->
  (Z.to_nat off + length src <= i)%nat ->
  memcpy dst off src !! i = dst !! i.
Proof.
  intros Hfit Hi. unfold memcpy.
  rewrite lookup_app_r by (rewrite length_take; lia).
  rewrite length_take, lookup_app_r by lia.
  rewrite lookup_drop. f_equal. lia.
Qed.

Lemma bytes_from_length s off n :
  (Z.to_nat off + Z.to_nat n <= length s)%nat ->
  length (bytes_from s off n) = Z.to_nat n.
Proof.
  intros H. unfold bytes_from. rewrite length_take, length_drop. lia.
Qed.

Lemma bytes_from_lookup s off n j :
  (j < Z.to_nat n)%nat ->
  bytes_from s off n !! j = s !! (Z.to_nat off + j)%nat.
Proof.
  intros H. unfold bytes_from. rewrite lookup_take_lt by done.
  apply lookup_drop.
Qed.

(** The buffer after the two copies of the header. *)
Lemma spliceHeader_spec buffer queryId v :
  (12 <= length (value v))%nat -> (12 <= length buffer)%nat ->
  let r := spliceHeader buffer queryId v in
  length r = length buffer
  /\ r !! 0%nat = Some queryId.1 /\ r !! 1%nat = Some queryId.2
  /\ (forall i, (2 <= i < 12)%nat -> r !! i = value v !! i)
  /\ (forall i, (12 <= i)%nat -> r !! i = buffer !! i).
Proof.
  intros Hv Hb. cbn zeta. unfold spliceHeader.
  unfold sizeof_queryId, sizeof_dnsheader.
  set (r1 := memcpy buffer 0 [queryId.1; queryId.2]).
  set (src := bytes_from (value v) 2 (12 - 2)).
  assert (length r1 = length buffer) as Hr1
    by (apply memcpy_length; cbn; lia).
  assert (length src = 10%nat) as Hsrc
    by (unfold src; rewrite bytes_from_length; lia).
  split; [| split; [| split; [| split]]].
  - rewrite memcpy_length; lia.
  - rewrite memcpy_lookup_before by lia.
    apply (memcpy_lookup_in buffer 0 [queryId.1; queryId.2] 0); cbn; lia.
  - rewrite memcpy_lookup_before by lia.
    apply (memcpy_lookup_in buffer 0 [queryId.1; queryId.2] 1); cbn; lia.
  - intros i Hi.
    replace i with (Z.to_nat 2 + (i - 2))%nat at 1 by lia.
    rewrite memcpy_lookup_in by lia.
    unfold src. rewrite bytes_from_lookup by lia. f_equal. lia.
  - intros i Hi. rewrite memcpy_lookup_after by lia.
    unfold r1. rewrite memcpy_lookup_after by (cbn; lia). done.
Qed.

(** The buffer after the copies of the qname and of the rest. *)
Lemma spliceBody_spec r2 dnsQName v :
  len v = Z.of_nat (length (value v)) ->
  sizeof_dnsheader + Z.of_nat (length dnsQName) <= len v ->
  len v <= Z.of_nat (length r2) ->
  let r := spliceBody r2 dnsQName v in
  length r = length r2
  /\ (forall i, (i < 12)%nat -> r !! i = r2 !! i)
  /\ (forall j, (j < length dnsQName)%nat ->
        r !! (12 + j)%nat = dnsQName !! j)
  /\ (forall i, (12 + length dnsQName <= i)%nat -> Z.of_nat i < len v ->
        r !! i = value v !! i).
Proof.
  intros Hlen Hq Hfit. cbn zeta. unfold spliceBody.
  unfold sizeof_dnsheader in *.
  set (r3 := memcpy r2 12 dnsQName).
  assert (length r3 = length r2) as Hr3 by (apply memcpy_length; lia).
  assert (forall i, (i < 12)%nat -> r3 !! i = r2 !! i) as Hpre.
  { intros i Hi. apply memcpy_lookup_before; lia. }
  assert (forall j, (j < length dnsQName)%nat ->
            r3 !! (12 + j)%nat = dnsQName !! j) as Hname.
  { intros j Hj. apply (memcpy_lookup_in r2 12 dnsQName j); lia. }
  destruct (Z.gtb_spec (len v) (12 + Z.of_nat (length dnsQName)))
    as [Hmore|Hexact].
  - set (src := bytes_from (value v) (12 + Z.of_nat (length dnsQName))
                  (len v - (12 + Z.of_nat (length dnsQName)))).
    assert (length src
            = Z.to_nat (len v - (12 + Z.of_nat (length dnsQName)))) as Hsrc
      by (unfold src; rewrite bytes_from_length; lia).
    split; [| split; [| split]].
    + rewrite memcpy_length; lia.
    + intros i Hi. rewrite memcpy_lookup_before by lia. by apply Hpre.
    + intros j Hj. rewrite memcpy_lookup_before by lia. by apply Hname.
    + intros i Hi Hi'.
      replace i with (Z.to_nat (12 + Z.of_nat (length dnsQName))
                      + (i - (12 + length dnsQName)))%nat at 1 by lia.
      rewrite memcpy_lookup_in by lia.
      unfold src. rewrite bytes_from_lookup by lia. f_equal. lia.
  - split; [done |]. split; [done |]. split; [done |].
    intros i Hi Hi'. lia.
Qed.

(** ** Insert, then get *)

Section RoundTrip.

Variable burtle : list byte -> Z -> Z.
Variable getDNSPacketMinTTL : list byte -> Z -> Z.
Variable ageDNSPacket : list byte -> Z -> Z -> list byte.

(** C2, amended.  Let [insert] store the entry [v] for a query under the
    key of that query, the response being either a bare DNS header or at
    least as long as the header and the qname of the query.  In any later
    state [c2] that still holds [v] under the key, a [get] for the same
    query that obtains the read lock, no later than the validity of [v]
    and with a buffer that holds the response, is a hit of the length of
    the response.  Its packet is [payload], aged by [now' - now] when the
    response is longer than a header and ageing is on; [payload] starts
    with the caller's query identifier, carries the qname bytes of the
    query after the header, and is the response everywhere else. *)
Theorem insert_then_get c dq consumed key response responseLen rcode
    tempFailureTTL now gotIt c1 v c2 queryId buffer bufferLen keyOut
    allowExpired skipAging now' :
  queryKey burtle dq consumed = Ok key ->
  insert getDNSPacketMinTTL c key (dq_qname dq) (dq_qtype dq) (dq_qclass dq)
    response responseLen (dq_tcp dq) rcode tempFailureTTL now gotIt = Ok c1 ->
  entryAt c1 key = Some v -> entryAt c key <> Some v ->
  responseLen <= Z.of_nat (length response) ->
  responseLen = sizeof_dnsheader
  \/ sizeof_dnsheader + Z.of_nat (length (toDNSString (dq_qname dq)))
     <= responseLen ->
  entryAt c2 key = Some v ->
  now' <= validity v ->
  responseLen <= bufferLen <= Z.of_nat (length buffer) ->
  exists payload,
    get burtle ageDNSPacket c2 dq consumed queryId buffer bufferLen keyOut
      allowExpired skipAging now' true
    = Ok (mkLookup true
            (if (responseLen =? sizeof_dnsheader)
                || d_dontAge (d_config c2) || skipAging
             then payload
             else ageDNSPacket payload responseLen (now' - now))
            responseLen (keySlot keyOut key), incr_hits c2)
    /\ length payload = length buffer
    /\ payload !! 0%nat = Some queryId.1
    /\ payload !! 1%nat = Some queryId.2
    /\ (forall i, (2 <= i < 12)%nat -> payload !! i = response !! i)
    /\ (sizeof_dnsheader < responseLen ->
        forall j, (j < length (toDNSString (dq_qname dq)))%nat ->
          payload !! (12 + j)%nat = toDNSString (dq_qname dq) !! j)
    /\ (forall i, (12 + length (toDNSString (dq_qname dq)) <= i)%nat ->
          Z.of_nat i < responseLen -> payload !! i = response !! i).
Proof.
  intros Hkey Hins Hnew Hold Hresp Hshape Hstill Hlive [Hbuf Hcap].
  assert (sizeof_dnsheader <= responseLen) as Hhdr.
  { destruct (Z.ltb_spec responseLen sizeof_dnsheader) as [Hshort|]; [| done].
    exfalso. unfold insert in Hins.
    destruct (Z.ltb_spec responseLen sizeof_dnsheader); [| lia].
    by simplify_eq. }
  destruct (insert_new_entry _ _ _ _ _ _ _ _ _ _ _ _ _ _ _ Hins Hnew Hold)
    as (ttl & _ & ->).
  set (v := newCacheValue (dq_qname dq) (dq_qtype dq) (dq_qclass dq) response
              responseLen (dq_tcp dq) now ttl) in *.
  assert (len v = responseLen) as Hlen by done.
  assert (added v = now) as Hadded by done.
  assert (length (value v) = Z.to_nat responseLen) as Hvalue.
  { cbn. rewrite bytes_from_length; unfold sizeof_dnsheader in *; lia. }
  assert (forall i, Z.of_nat i < responseLen -> value v !! i = response !! i)
    as Hbytes.
  { intros i Hi. cbn. rewrite bytes_from_lookup by lia. done. }
  assert (servable v dq bufferLen) as Hserv.
  { split; [| split; [lia | by rewrite Hlen]].
    apply cachedValueMatches_true. done. }
  rewrite (get_hit _ _ _ _ _ _ _ _ _ _ _ _ key v) by (done || lia).
  destruct (Z.ltb_spec (validity v) now'); [lia |].
  rewrite Hlen, Hadded. unfold sizeof_dnsheader in *.
  destruct (spliceHeader_spec buffer queryId v)
    as (Hl2 & Hq0 & Hq1 & Hhead & Htail); [lia | lia |].
  destruct (Z.eqb_spec responseLen 12) as [Hbare|Hlong].
  - exists (spliceHeader buffer queryId v). cbn [orb].
    split; [done |]. split; [done |]. split; [done |]. split; [done |].
    split; [| split].
    + intros i Hi. rewrite Hhead by done. apply Hbytes. lia.
    + lia.
    + intros i Hi Hi'. lia.
  - destruct Hshape as [? | Hshape]; [lia |].
    destruct (spliceBody_spec (spliceHeader buffer queryId v)
                (toDNSString (dq_qname dq)) v)
      as (Hl4 & Hpre & Hname & Hrest);
      [lia | unfold sizeof_dnsheader; lia | lia |].
    exists (spliceBody (spliceHeader buffer queryId v)
              (toDNSString (dq_qname dq)) v).
    split.
    { unfold agedResponse. rewrite Hlen. cbn [orb].
      by destruct (d_dontAge (d_config c2)), skipAging. }
    split; [lia |]. split; [by rewrite Hpre by lia |].
    split; [by rewrite Hpre by lia |]. split; [| split].
    + intros i Hi. rewrite Hpre, Hhead by lia. apply Hbytes. lia.
    + intros _ j Hj. by apply Hname.
    + intros i Hi Hi'. rewrite Hrest by lia. by apply Hbytes.
Qed.

End RoundTrip.

(** ** The statements on concrete data *)

Lemma sampleQuery_key :
  queryKey sampleHash (sampleQuery www_example_com) 17 = Ok wwwKey
  /\ queryKey sampleHash (sampleQuery WWW_example_com) 17 = Ok wwwKey
  /\ queryKey sampleHash (sampleQuery www_elpmaxe_com) 17 = Ok wwwKey.
Proof. by vm_compute. Qed.

Lemma cacheWww_wf : wf cacheWww /\ withinCapacity cacheWww.
Proof.
  split; [split |]; try (vm_compute; done);
    repeat constructor; vm_compute; done.
Qed.

(** The amended C1 on the cache that holds the entry of
    [www.elpmaxe.com] under the key shared with [www.example.com]: a
    lookup of [www.example.com] at time 1100 is a miss that counts a
    lookup collision. *)
Lemma get_collision_safe_witness :
  exists lk c',
    get sampleHash sampleAge cacheAnagram (sampleQuery www_example_com) 17
      sampleQueryId sampleBuffer 64 None 0 false 1100 true = Ok (lk, c')
    /\ lk_hit lk = false
    /\ d_shards c' = d_shards cacheAnagram
    /\ d_lookupCollisions (d_stats c')
       = wrap64 (d_lookupCollisions (d_stats cacheAnagram) + 1).
Proof.
  destruct (get_collision_safe sampleHash sampleAge cacheAnagram
              (sampleQuery www_example_com) 17 sampleQueryId sampleBuffer 64
              None 0 false 1100 true) as [_ Hdiff].
  destruct (Hdiff wwwKey entryAnagram)
    as (lk & c' & Hrun & Hhit & Hshards & Hcount);
    [vm_compute; reflexivity ..|].
  exists lk, c'. split; [exact Hrun |]. split; [exact Hhit |].
  split; [exact Hshards |].
  apply Hcount; [reflexivity | vm_compute; intros; discriminate |].
  split; vm_compute; intros; discriminate.
Defined.

(** C1 as stated fails on the same cache at time 5000, when the entry
    has long expired: the lookup finds the entry with other attributes and
    returns a miss, but it is [d_misses] that goes up, and
    [d_lookupCollisions] stays as it was. *)
Lemma collision_on_expired_entry_counterexample :
  queryKey sampleHash (sampleQuery www_example_com) 17 = Ok wwwKey
  /\ entryAt cacheAnagram wwwKey = Some entryAnagram
  /\ cachedValueMatches entryAnagram www_example_com 1 1 false = false
  /\ exists lk c',
       get sampleHash sampleAge cacheAnagram (sampleQuery www_example_com) 17
         sampleQueryId sampleBuffer 64 None 0 false 5000 true = Ok (lk, c')
       /\ lk_hit lk = false
       /\ d_lookupCollisions (d_stats c')
          = d_lookupCollisions (d_stats cacheAnagram)
       /\ d_lookupCollisions (d_stats c')
          <> wrap64 (d_lookupCollisions (d_stats cacheAnagram) + 1)
       /\ d_misses (d_stats c')
          = wrap64 (d_misses (d_stats cacheAnagram) + 1).
Proof.
  split; [by vm_compute |]. split; [by vm_compute |].
  split; [by vm_compute |].
  eexists _, _. split; [vm_compute; reflexivity |].
  by vm_compute.
Qed.

(** The amended C2 on the sample cache: the response for
    [www.example.com], inserted at time 1000 and looked up at time 1100,
    is a hit of 49 bytes. *)
Lemma insert_then_get_witness :
  exists lk,
    get sampleHash sampleAge cacheWww (sampleQuery www_example_com) 17
      sampleQueryId sampleBuffer 64 None 0 false 1100 true
    = Ok (lk, incr_hits cacheWww)
    /\ lk_hit lk = true /\ lk_responseLen lk = 49.
Proof.
  destruct (insert_then_get sampleHash sampleMinTTL sampleAge sampleCache
              (sampleQuery www_example_com) 17 wwwKey
              (responsePacket www_example_com) 49 RCode.NoError None 1000 true
              cacheWww entryWww cacheWww sampleQueryId sampleBuffer 64 None 0
              false 1100)
    as (payload & Hrun & _).
  - vm_compute; reflexivity.
  - vm_compute; reflexivity.
  - vm_compute; reflexivity.
  - vm_compute; intros; discriminate.
  - vm_compute; intros; discriminate.
  - right. vm_compute; intros; discriminate.
  - vm_compute; reflexivity.
  - vm_compute; intros; discriminate.
  - split; vm_compute; intros; discriminate.
  - eexists. split; [exact Hrun |]. split; reflexivity.
Defined.

(** C2 as stated fails for a response longer than a header and shorter
    than the header and the qname: the truncated SERVFAIL response is
    stored by [insert], and the [get] for the same query at the same time
    returns false. *)
Lemma truncated_response_counterexample :
  queryKey sampleHash (sampleQuery www_example_com) 17 = Ok wwwKey
  /\ insert sampleMinTTL sampleCache wwwKey www_example_com 1 1
       truncatedResponse 13 false RCode.ServFail (Some 30) 1000 true
     = Ok cacheTruncated
  /\ entryAt sampleCache wwwKey = None
  /\ entryAt cacheTruncated wwwKey = Some entryTruncated
  /\ validity entryTruncated = 1030
  /\ exists lk,
       get sampleHash sampleAge cacheTruncated (sampleQuery www_example_com)
         17 sampleQueryId sampleBuffer 64 None 0 false 1000 true
       = Ok (lk, cacheTruncated)
       /\ lk_hit lk = false.
Proof.
  split; [by vm_compute |]. split; [by vm_compute |].
  split; [by vm_compute |]. split; [by vm_compute |].
  split; [by vm_compute |].
  eexists. split; [vm_compute; reflexivity |]. reflexivity.
Qed.

(** The amended C3 on the sample cache: the entry expired at 1300, and at
    time 1310 a tolerance of 60 seconds makes it a stale hit aged by
    [(1300 - 1000) - 60] seconds.  On the cache that holds the bare
    header, which expired at 1030, the lookup at time 1040 is a stale hit
    too and hands out the 12 bytes of the header under the caller's
    identifier. *)
Lemma get_expiry_witness :
  get sampleHash sampleAge cacheWww (sampleQuery www_example_com) 17
    sampleQueryId sampleBuffer 64 None 60 false 1310 true
  = Ok (mkLookup true
          (agedResponse sampleAge cacheWww (sampleQuery www_example_com)
             sampleQueryId sampleBuffer false entryWww 240)
          49 None, incr_hits cacheWww)
  /\ get sampleHash sampleAge cacheHeader (sampleQuery www_example_com) 17
       sampleQueryId sampleBuffer 64 None 60 false 1040 true
     = Ok (mkLookup true (spliceHeader sampleBuffer sampleQueryId entryHeader)
             12 None, incr_hits cacheHeader).
Proof.
  split.
  - destruct (get_expiry sampleHash sampleAge cacheWww
                (sampleQuery www_example_com) 17 sampleQueryId sampleBuffer 64
                None 60 false 1310 wwwKey entryWww) as [_ Hserve];
      [vm_compute; reflexivity ..|].
    destruct Hserve as [Hstale _].
    + split; [vm_compute; reflexivity |].
      split; [| right]; vm_compute; intros; discriminate.
    + apply Hstale; vm_compute; reflexivity.
  - destruct (get_expiry sampleHash sampleAge cacheHeader
                (sampleQuery www_example_com) 17 sampleQueryId sampleBuffer 64
                None 60 false 1040 wwwKey entryHeader) as [_ Hserve];
      [vm_compute; reflexivity ..|].
    destruct Hserve as [Hstale _].
    + split; [vm_compute; reflexivity |].
      split; [| left]; vm_compute; intros; try discriminate; reflexivity.
    + apply Hstale; vm_compute; reflexivity.
Defined.

(** C3 as stated fails at the edge of the tolerance: at time 1310 the
    entry has been expired for 10 seconds, which does not exceed a
    tolerance of 10 seconds, and yet [get] counts a miss and returns
    false. *)
Lemma tolerance_edge_counterexample :
  queryKey sampleHash (sampleQuery www_example_com) 17 = Ok wwwKey
  /\ entryAt cacheWww wwwKey = Some entryWww
  /\ servable entryWww (sampleQuery www_example_com) 64
  /\ validity entryWww < 1310
  /\ ~ (1310 - validity entryWww > 10)
  /\ exists lk c',
       get sampleHash sampleAge cacheWww (sampleQuery www_example_com) 17
         sampleQueryId sampleBuffer 64 None 10 false 1310 true = Ok (lk, c')
       /\ lk_hit lk = false
       /\ d_misses (d_stats c') = wrap64 (d_misses (d_stats cacheWww) + 1).
Proof.
  split; [by vm_compute |]. split; [by vm_compute |].
  split.
  { split; [by vm_compute |]. split; [| right]; by vm_compute. }
  split; [by vm_compute |]. split; [by vm_compute |].
  eexists _, _. split; [vm_compute; reflexivity |]. by vm_compute.
Qed.

(** C4 on the sample cache at time 2000, when its one entry has expired:
    a purge down to no entry returns a cache whose shards only lost
    expired entries, and whose size is 0. *)
Lemma purgeExpired_only_expired_witness :
  exists c',
    purgeExpired map_to_list cacheWww 0 2000 = Ok c'
    /\ Forall2 (purgedShard 2000) (d_shards cacheWww) (d_shards c')
    /\ getSize c' = Ok 0.
Proof.
  destruct (purgeExpired_only_expired map_to_list
              (fun m => Permutation_refl (map_to_list m)) cacheWww 0 2000
              (proj1 cacheWww_wf) (proj2 cacheWww_wf))
    as (c' & toRemove & scannedMaps & size & Hsize & Hrun & Hpurge & _ & _
        & _ & Hless).
  exists c'. split; [exact Hpurge |].
  assert (size = 1) as -> by (vm_compute in Hsize; congruence).
  destruct Hless as (Hrel & _ & _ & _ & _ & _ & _ & _);
    [vm_compute; reflexivity |].
  split; [exact Hrel |].
  vm_compute in Hpurge. injection Hpurge as <-. vm_compute; reflexivity.
Defined.

(** C5 on a cache whose entries all sit in the first of two shards.  Two
    responses are inserted under the keys 0 and 2, both of shard 0, so the
    size is 2.  [expunge 0] takes one entry from shard 0, its share of the
    budget, finds nothing to take from shard 1, and returns with one entry
    left: the size after the call is 1 and not at most 0.  A shortfall is
    only ever carried forward, to the shards that follow. *)
Theorem expunge_skewed_shards :
  let first := sampleInsert sampleCache 0 www_example_com
                 (responsePacket www_example_com) RCode.NoError None 1000 in
  let both := sampleInsert first 2 www_elpmaxe_com
                (responsePacket www_elpmaxe_com) RCode.NoError None 1000 in
  getSize both = Ok 2
  /\ Z.of_nat <$> (size <$> (d_map <$> d_shards both)) = [2; 0]
  /\ exists c',
       expunge map_to_list both 0 = Ok c'
       /\ getSize c' = Ok 1
       /\ Z.of_nat <$> (size <$> (d_map <$> d_shards c')) = [1; 0].
Proof.
  cbn zeta. split; [by vm_compute |]. split; [by vm_compute |].
  eexists. split; [vm_compute; reflexivity |].
  split; by vm_compute.
Qed.

(** With a single shard the budget is met: of 12 inserts under 12 keys
    into a cache of at most 10 entries the last 2 are dropped, and
    [expunge 5] then leaves 5 entries (scenario 5 of the specification). *)
Lemma expunge_single_shard :
  exists c c',
    insertAll sampleMinTTL (construct 10 86400 0 60 60 false 1 false)
      ((fun key => mkInsertCall key www_example_com 1 1
                     (responsePacket www_example_com) 49 false RCode.NoError
                     None 1000 true) <$> seqZ 1 12) = Ok c
    /\ getSize c = Ok 10
    /\ entryAt c 11 = None /\ entryAt c 12 = None
    /\ expunge map_to_list c 5 = Ok c'
    /\ getSize c' = Ok 5.
Proof.
  eexists _, _. split; [vm_compute; reflexivity |].
  split; [by vm_compute |]. split; [by vm_compute |].
  split; [by vm_compute |]. split; [vm_compute; reflexivity |].
  by vm_compute.
Qed.

(** C6 on the sample cache at time 1100: the entry of [www.example.com]
    is live, an insertion of [www.elpmaxe.com] under its key counts an
    insert collision and changes no shard. *)
Lemma insertLocked_prior_entry_witness :
  let c' := insertLocked cacheWww 1 (mkCacheShard {[wwwKey := entryWww]} 1)
              wwwKey www_elpmaxe_com 1 1 false entryAnagram 1100 1400 in
  d_insertCollisions (d_stats c')
    = wrap64 (d_insertCollisions (d_stats cacheWww) + 1)
  /\ d_shards c' = d_shards cacheWww.
Proof.
  cbn zeta.
  apply (insertLocked_prior_entry cacheWww 1
           (mkCacheShard {[wwwKey := entryWww]} 1) wwwKey www_elpmaxe_com 1 1
           false entryAnagram 1100 1400 entryWww);
    vm_compute; reflexivity.
Defined.

(** C7 on the sample cache: a SERVFAIL response with an override of zero
    seconds is not cached. *)
Lemma insert_temp_failure_witness :
  insert sampleMinTTL sampleCache wwwKey www_example_com 1 1
    truncatedResponse 13 false RCode.ServFail (Some 0) 1000 true
  = Ok sampleCache.
Proof.
  apply (insert_temp_failure sampleMinTTL sampleCache wwwKey www_example_com
           1 1 truncatedResponse 13 false RCode.ServFail (Some 0) 1000 true);
    [left |]; reflexivity.
Defined.

(** C8 on a cache of at most 3 entries in 2 shards, after four inserts
    into shard 1, whose capacity is one entry: the first is stored and the
    other three are refused, so that shard 1 holds one entry under its
    counter of one, shard 0 none, and the size is 1. *)
Lemma insert_capacity_witness :
  exists c,
    insertAll sampleMinTTL (construct 3 86400 0 60 60 false 2 false)
      ((fun key => mkInsertCall key www_example_com 1 1
                     (responsePacket www_example_com) 49 false RCode.NoError
                     None 1000 true) <$> [1; 3; 5; 7]) = Ok c
    /\ Forall (fun shard =>
                d_entriesCount shard = Z.of_nat (size (d_map shard))
                /\ Z.of_nat (size (d_map shard)) <= 1)
         (d_shards c)
    /\ (d_entriesCount <$> d_shards c) = [0; 1]
    /\ getSize c = Ok 1.
Proof.
  destruct (insert_capacity sampleMinTTL 3 86400 0 60 60 false 2 false
              ((fun key => mkInsertCall key www_example_com 1 1
                             (responsePacket www_example_com) 49 false
                             RCode.NoError None 1000 true) <$> [1; 3; 5; 7]))
    as (c & Hrun & Hshards & Hsize & _).
  - split; vm_compute; reflexivity.
  - split; vm_compute; [intros; discriminate | reflexivity].
  - exists c. split; [exact Hrun |]. split.
    + eapply Forall_impl; [exact Hshards |].
      intros shard (Hcount & Hle & _). split; [exact Hcount | exact Hle].
    + vm_compute in Hrun. injection Hrun as <-.
      split; vm_compute; reflexivity.
Defined.

(** C9 on the sample cache at time 1300, the validity of its entry: with
    no tolerance for expired entries the lookup is still a hit, aged by
    the 300 seconds since the insertion; and an insertion of
    [www.elpmaxe.com] under the same key at that time replaces the entry
    and counts no collision. *)
Lemma expiry_at_deadline_witness :
  get sampleHash sampleAge cacheWww (sampleQuery www_example_com) 17
    sampleQueryId sampleBuffer 64 None 0 false 1300 true
  = Ok (mkLookup true
          (agedResponse sampleAge cacheWww (sampleQuery www_example_com)
             sampleQueryId sampleBuffer false entryWww 300)
          49 None, incr_hits cacheWww)
  /\ insertLocked cacheWww 1 (mkCacheShard {[wwwKey := entryWww]} 1) wwwKey
       www_elpmaxe_com 1 1 false entryAnagram 1300 1600
     = set_shard cacheWww 1
         (mkCacheShard (<[wwwKey := entryAnagram]> {[wwwKey := entryWww]}) 1).
Proof.
  destruct (expiry_at_deadline sampleHash sampleAge cacheWww 1300)
    as [Hget Hinsert].
  split.
  - destruct (Hget (sampleQuery www_example_com) 17 sampleQueryId
                sampleBuffer 64 None 0 false wwwKey entryWww)
      as [Hfresh _]; [vm_compute; reflexivity ..|].
    apply Hfresh; [| vm_compute; reflexivity].
    split; [vm_compute; reflexivity |].
    split; [| right]; vm_compute; intros; discriminate.
  - destruct (Hinsert 1 (mkCacheShard {[wwwKey := entryWww]} 1) wwwKey
                www_elpmaxe_com 1 1 false entryAnagram 1600 entryWww)
      as [Hexpired _]; [vm_compute; reflexivity ..|].
    rewrite Hexpired by (vm_compute; reflexivity).
    reflexivity.
Defined.

(** C10 on the cache that holds the truncated response: the lookup
    returns false and the cache is as it was. *)
Lemma get_truncated_entry_witness :
  exists lk,
    get sampleHash sampleAge cacheTruncated (sampleQuery www_example_com) 17
      sampleQueryId sampleBuffer 64 None 0 false 1000 true
    = Ok (lk, cacheTruncated)
    /\ lk_hit lk = false.
Proof.
  apply (get_truncated_entry sampleHash sampleAge cacheTruncated
           (sampleQuery www_example_com) 17 sampleQueryId sampleBuffer 64
           None 0 false 1000 wwwKey entryTruncated);
    try (vm_compute; reflexivity).
  - vm_compute; intros; discriminate.
  - split; vm_compute; reflexivity.
Defined.

(** * Further properties of the operations *)

(** ** The key function *)

Lemma bytes_from_ext s1 s2 off n :
  (forall i : nat, (Z.to_nat off <= i < Z.to_nat off + Z.to_nat n)%nat ->
     s1 !! i = s2 !! i) ->
  bytes_from s1 off n = bytes_from s2 off n.
Proof.
  intros Heq. unfold bytes_from. apply list_eq. intros j.
  destruct (decide (j < Z.to_nat n)%nat) as [Hj|Hj].
  - rewrite !lookup_take_lt, !lookup_drop by done. apply Heq. lia.
  - rewrite !lookup_take_ge by lia. done.
Qed.

(** X1.  The key depends neither on the query identifier, nor on the
    case of the qname, nor on the bytes that the qname occupies in the
    packet: two packets of the same length that agree on the header bytes
    2..11 and on every byte after the qname, looked up under names that
    are equal up to case and over the same transport, have the same key
    (or are both refused). *)
Theorem getKey_ignores_id_and_case (burtle : list byte -> Z -> Z)
    qname1 qname2 consumed packet1 packet2 packetLen tcp' :
  toLower qname1 = toLower qname2 ->
  (forall i : nat,
     (2 <= i < 12)%nat \/ sizeof_dnsheader + consumed <= Z.of_nat i ->
     packet1 !! i = packet2 !! i) ->
  getKey burtle qname1 consumed packet1 packetLen tcp'
  = getKey burtle qname2 consumed packet2 packetLen tcp'.
Proof.
  intros Hname Hbytes. unfold getKey. rewrite Hname.
  rewrite (bytes_from_ext packet1 packet2 2 (sizeof_dnsheader - 2)).
  2:{ intros i Hi. apply Hbytes. left. unfold sizeof_dnsheader in Hi. lia. }
  destruct (packetLen <? sizeof_dnsheader); [done |].
  destruct (Z.ltb_spec packetLen (sizeof_dnsheader + consumed)); [done |].
  destruct (Z.gtb_spec packetLen (sizeof_dnsheader + consumed)); [| done].
  rewrite (bytes_from_ext packet1 packet2 (sizeof_dnsheader + consumed)
             (packetLen - (sizeof_dnsheader + consumed))); [done |].
  intros i Hi. apply Hbytes. right. unfold sizeof_dnsheader in *. lia.
Qed.

Lemma getKey_ignores_id_and_case_witness :
  getKey sampleHash (toDNSString www_example_com) 17
    (queryPacket www_example_com) 33 false
  = getKey sampleHash (toDNSString WWW_example_com) 17
      ([18; 52] ++ drop 2 (queryPacket WWW_example_com)) 33 false.
Proof.
  apply (getKey_ignores_id_and_case sampleHash (toDNSString www_example_com)
           (toDNSString WWW_example_com) 17 (queryPacket www_example_com)
           ([18; 52] ++ drop 2 (queryPacket WWW_example_com)) 33 false).
  - vm_compute; reflexivity.
  - intros i Hi. unfold sizeof_dnsheader in Hi.
    do 33 (destruct i as [|i]; [first [reflexivity | exfalso; lia] |]).
    reflexivity.
Defined.

(** ** More on lookups *)

Section FurtherLookup.

Variable burtle : list byte -> Z -> Z.
Variable ageDNSPacket : list byte -> Z -> Z -> list byte.

(** The equation of [get] on a well-formed cache when the key is
    computed: the shard exists, and the call goes by the lock and the
    probe of the map. *)
Lemma get_keyed c dq consumed queryId response responseLen keyOut
    allowExpired skipAging now gotIt key :
  wf c ->
  queryKey burtle dq consumed = Ok key ->
  exists shard,
    shardOf c key = Ok shard
    /\ (gotIt = false ->
        get burtle ageDNSPacket c dq consumed queryId response responseLen
          keyOut allowExpired skipAging now gotIt
        = Ok (mkLookup false response responseLen (keySlot keyOut key),
              incr_deferredLookups c))
    /\ (gotIt = true -> d_map shard !! key = None ->
        get burtle ageDNSPacket c dq consumed queryId response responseLen
          keyOut allowExpired skipAging now gotIt
        = Ok (mkLookup false response responseLen (keySlot keyOut key),
              incr_misses c)).
Proof.
  intros Hwf Hkey.
  destruct (wf_shardOf c key Hwf) as (i & shard & Hi & _ & Hs).
  exists shard. split; [apply shardOf_Ok; by exists i |].
  unfold get. unfold queryKey in Hkey. rewrite Hkey.
  cbn [mbind result_bind]. rewrite Hi. cbn [mbind result_bind].
  rewrite Hs. cbn [mbind result_bind].
  split; intros ->; cbn [negb]; [done |]. by intros ->.
Qed.

(** X2.  On a well-formed cache [get] throws only for a packet that is
    too short for the key: it throws [range_error] when the packet is
    shorter than a header or than the header and the [consumed] bytes of
    the qname, and it returns normally for every other call. *)
Theorem get_throws_iff_short c dq consumed queryId response responseLen
    keyOut allowExpired skipAging now gotIt :
  wf c ->
  let run := get burtle ageDNSPacket c dq consumed queryId response
               responseLen keyOut allowExpired skipAging now gotIt in
  (dq_len dq < sizeof_dnsheader \/ dq_len dq < sizeof_dnsheader + consumed ->
     run = Throw range_error)
  /\ (sizeof_dnsheader <= dq_len dq ->
      sizeof_dnsheader + consumed <= dq_len dq ->
      exists lk c', run = Ok (lk, c')).
Proof.
  intros Hwf run. subst run. split.
  - intros Hshort. unfold get, getKey.
    destruct (Z.ltb_spec (dq_len dq) sizeof_dnsheader); [done |].
    destruct (Z.ltb_spec (dq_len dq) (sizeof_dnsheader + consumed));
      [done | lia].
  - intros Hhdr Hname.
    assert (exists key, queryKey burtle dq consumed = Ok key) as [key Hkey].
    { unfold queryKey, getKey.
      destruct (Z.ltb_spec (dq_len dq) sizeof_dnsheader); [lia |].
      destruct (Z.ltb_spec (dq_len dq) (sizeof_dnsheader + consumed));
        [lia |].
      by eexists. }
    destruct (get_keyed c dq consumed queryId response responseLen keyOut
                allowExpired skipAging now gotIt key Hwf Hkey)
      as (shard & Hshard & Hdeferred & Hmiss).
    destruct gotIt; [| rewrite Hdeferred by done; by eexists _, _].
    destruct (d_map shard !! key) as [v|] eqn:Hv;
      [| rewrite Hmiss by done; by eexists _, _].
    assert (entryAt c key = Some v) as Hentry
      by (unfold entryAt; by rewrite Hshard).
    rewrite (get_found _ _ _ _ _ _ _ _ _ _ _ _ key v) by done. cbn zeta.
    repeat match goal with
           | |- context [if ?b then _ else _] => destruct b
           end; by eexists _, _.
Qed.

(** X3.  What a call of [get] that returns can do.  It never touches the
    shards, the configuration or the rotation index; it writes the key of
    the query to [keyOut]; a hit adds one to [d_hits] and to nothing
    else, and sets the length to at least a header and at most the length
    given; a miss leaves the length as given and adds one to at most one
    of [d_misses], [d_lookupCollisions] and [d_deferredLookups]. *)
Theorem get_effects c dq consumed queryId response responseLen keyOut
    allowExpired skipAging now gotIt lk c' :
  get burtle ageDNSPacket c dq consumed queryId response responseLen keyOut
    allowExpired skipAging now gotIt = Ok (lk, c') ->
  (exists key, queryKey burtle dq consumed = Ok key
               /\ lk_keyOut lk = keySlot keyOut key)
  /\ d_shards c' = d_shards c /\ d_config c' = d_config c
  /\ d_expungeIndex c' = d_expungeIndex c
  /\ (lk_hit lk = true /\ c' = incr_hits c
      /\ sizeof_dnsheader <= lk_responseLen lk <= responseLen
      \/ lk_hit lk = false /\ lk_responseLen lk = responseLen
         /\ (c' = c \/ c' = incr_misses c \/ c' = incr_lookupCollisions c
             \/ c' = incr_deferredLookups c)).
Proof.
  intros Hrun. unfold get in Hrun.
  destruct (getKey burtle (toDNSString (dq_qname dq)) consumed (dq_dh dq)
              (dq_len dq) (dq_tcp dq)) as [key|] eqn:Hkey;
    cbn [mbind result_bind] in Hrun; [| done].
  split; [exists key; split; [done |] |].
  2: split; [| split; [| split]].
  all: destruct (getShardIndex c key) as [i|];
    cbn [mbind result_bind] in Hrun; [| done];
    destruct (vector_at (d_shards c) i) as [shard|];
    cbn [mbind result_bind] in Hrun; [| done];
    destruct gotIt; cbn [negb] in Hrun; [| by simplify_eq; eauto 10];
    destruct (d_map shard !! key) as [v|]; [| by simplify_eq; eauto 10];
    destruct (_ && _) in Hrun; [by simplify_eq; eauto 10 |];
    destruct (orb _ _) eqn:Hlen in Hrun; [by simplify_eq; eauto 10 |];
    destruct (negb _) in Hrun; [by simplify_eq; eauto 10 |];
    apply orb_false_iff in Hlen as [Hfit%Z.ltb_ge Hhdr%Z.ltb_ge];
    destruct (len v =? sizeof_dnsheader) in Hrun;
      [simplify_eq; cbn; try done; left; by repeat split |];
    destruct (_ <? _) in Hrun; [by simplify_eq; eauto 10 |];
    simplify_eq; cbn; try done; left; by repeat split.
Qed.

(** X4.  A lookup for a key that the cache does not hold, with the read
    lock obtained, is a counted miss that leaves the caller's buffer and
    length as they were. *)
Theorem get_missing_key c dq consumed queryId response responseLen keyOut
    allowExpired skipAging now key :
  wf c ->
  queryKey burtle dq consumed = Ok key ->
  entryAt c key = None ->
  get burtle ageDNSPacket c dq consumed queryId response responseLen keyOut
    allowExpired skipAging now true
  = Ok (mkLookup false response responseLen (keySlot keyOut key),
        incr_misses c).
Proof.
  intros Hwf Hkey Hnone.
  destruct (get_keyed c dq consumed queryId response responseLen keyOut
              allowExpired skipAging now true key Hwf Hkey)
    as (shard & Hshard & _ & Hmiss).
  apply Hmiss; [done |]. unfold entryAt in Hnone. by rewrite Hshard in Hnone.
Qed.

End FurtherLookup.

(** ** The buffer of a lookup *)

(** A copy that ends at or before position [n] of the buffer changes
    neither the length of the buffer nor a byte from [n] on. *)
Lemma memcpy_frame dst off src (n : nat) :
  (Z.to_nat off + length src <= n)%nat -> (n <= length dst)%nat ->
  length (memcpy dst off src) = length dst
  /\ forall i, (n <= i)%nat -> memcpy dst off src !! i = dst !! i.
Proof.
  intros Hend Hfit. split; [apply memcpy_length; lia |].
  intros i Hi. apply memcpy_lookup_after; lia.
Qed.

Lemma bytes_from_length_le s off n :
  (length (bytes_from s off n) <= Z.to_nat n)%nat.
Proof. unfold bytes_from. rewrite length_take. lia. Qed.

Lemma spliceHeader_frame buffer queryId v :
  (12 <= length buffer)%nat ->
  length (spliceHeader buffer queryId v) = length buffer
  /\ forall i, (12 <= i)%nat ->
       spliceHeader buffer queryId v !! i = buffer !! i.
Proof.
  intros Hfit. unfold spliceHeader, sizeof_queryId, sizeof_dnsheader.
  pose proof (bytes_from_length_le (value v) 2 (12 - 2)) as Hsrc.
  destruct (memcpy_frame buffer 0 [queryId.1; queryId.2] 12) as [Hl1 Hf1];
    [cbn; lia | done |].
  destruct (memcpy_frame (memcpy buffer 0 [queryId.1; queryId.2]) 2
              (bytes_from (value v) 2 (12 - 2)) 12) as [Hl2 Hf2];
    [lia | lia |].
  split; [lia |]. intros i Hi. rewrite Hf2, Hf1 by done. done.
Qed.

Lemma spliceBody_frame r2 dnsQName v :
  sizeof_dnsheader + Z.of_nat (length dnsQName) <= len v ->
  len v <= Z.of_nat (length r2) ->
  length (spliceBody r2 dnsQName v) = length r2
  /\ forall i, len v <= Z.of_nat i -> spliceBody r2 dnsQName v !! i = r2 !! i.
Proof.
  intros Hq Hfit. unfold spliceBody, sizeof_dnsheader in *.
  destruct (memcpy_frame r2 12 dnsQName (Z.to_nat (len v))) as [Hl3 Hf3];
    [lia | lia |].
  destruct (len v >? 12 + Z.of_nat (length dnsQName)).
  - pose proof (bytes_from_length_le (value v)
                  (12 + Z.of_nat (length dnsQName))
                  (len v - (12 + Z.of_nat (length dnsQName)))) as Hsrc.
    destruct (memcpy_frame (memcpy r2 12 dnsQName)
                (12 + Z.of_nat (length dnsQName))
                (bytes_from (value v) (12 + Z.of_nat (length dnsQName))
                   (len v - (12 + Z.of_nat (length dnsQName))))
                (Z.to_nat (len v))) as [Hl4 Hf4]; [lia | lia |].
    split; [lia |]. intros i Hi. rewrite Hf4, Hf3 by lia. done.
  - split; [done |]. intros i Hi. apply Hf3. lia.
Qed.

Section Buffer.

Variable burtle : list byte -> Z -> Z.
Variable ageDNSPacket : list byte -> Z -> Z -> list byte.

(** X5.  With ageing off, a call of [get] that is given the true length
    of the caller's buffer (or less) writes only where it reports: the
    buffer keeps its length, and every byte from the returned length on
    is as the caller left it.  This holds for hits and misses alike, and
    whatever the cache holds. *)
Theorem get_stays_in_buffer c dq consumed queryId response responseLen keyOut
    allowExpired skipAging now gotIt lk c' :
  get burtle ageDNSPacket c dq consumed queryId response responseLen keyOut
    allowExpired skipAging now gotIt = Ok (lk, c') ->
  responseLen <= Z.of_nat (length response) ->
  d_dontAge (d_config c) = true \/ skipAging = true ->
  length (lk_response lk) = length response
  /\ forall i, lk_responseLen lk <= Z.of_nat i ->
       lk_response lk !! i = response !! i.
Proof.
  intros Hrun Hcap Hnoage. unfold get in Hrun.
  destruct (getKey _ _ _ _ _ _) as [key|];
    cbn [mbind result_bind] in Hrun; [| done].
  destruct (getShardIndex c key) as [i|];
    cbn [mbind result_bind] in Hrun; [| done].
  destruct (vector_at (d_shards c) i) as [shard|];
    cbn [mbind result_bind] in Hrun; [| done].
  destruct gotIt; cbn [negb] in Hrun; [| by simplify_eq].
  destruct (d_map shard !! key) as [v|]; [| by simplify_eq].
  destruct (_ && _) in Hrun; [by simplify_eq |].
  destruct (orb _ _) eqn:Hlen in Hrun; [by simplify_eq |].
  destruct (negb _) in Hrun; [by simplify_eq |].
  apply orb_false_iff in Hlen as [Hfit%Z.ltb_ge Hhdr%Z.ltb_ge].
  unfold sizeof_dnsheader in *.
  destruct (spliceHeader_frame response queryId v) as [Hl2 Hf2]; [lia |].
  destruct (Z.eqb_spec (len v) 12) as [Hbare|Hlong].
  { simplify_eq. cbn. split; [done |]. intros j Hj. apply Hf2. lia. }
  destruct (Z.ltb_spec (len v)
              (12 + Z.of_nat (length (toDNSString (dq_qname dq)))))
    as [Hshort|Hname].
  { simplify_eq. cbn. split; [done |]. intros j Hj. apply Hf2. lia. }
  destruct (spliceBody_frame (spliceHeader response queryId v)
              (toDNSString (dq_qname dq)) v) as [Hl4 Hf4];
    [unfold sizeof_dnsheader; lia | lia |].
  assert (negb (d_dontAge (d_config c)) && negb skipAging = false) as Hoff.
  { destruct Hnoage as [-> | ->]; [done | by rewrite andb_false_r]. }
  rewrite Hoff in Hrun. simplify_eq. cbn. split; [lia |].
  intros j Hj. rewrite Hf4 by done. apply Hf2. lia.
Qed.

(** The key of a query that differs from another in its identifier and
    in the case of its qname only. *)
Lemma queryKey_variant dq dq' consumed :
  toLower (toDNSString (dq_qname dq')) = toLower (toDNSString (dq_qname dq)) ->
  dq_len dq' = dq_len dq -> dq_tcp dq' = dq_tcp dq ->
  (forall i : nat,
     (2 <= i < 12)%nat \/ sizeof_dnsheader + consumed <= Z.of_nat i ->
     dq_dh dq' !! i = dq_dh dq !! i) ->
  queryKey burtle dq' consumed = queryKey burtle dq consumed.
Proof.
  intros Hname Hlen Htcp Hbytes. unfold queryKey, getKey.
  rewrite Hname, Hlen, Htcp.
  rewrite (bytes_from_ext (dq_dh dq') (dq_dh dq) 2 (sizeof_dnsheader - 2)).
  2:{ intros i Hi. apply Hbytes. left. unfold sizeof_dnsheader in Hi. lia. }
  destruct (dq_len dq <? sizeof_dnsheader); [done |].
  destruct (Z.ltb_spec (dq_len dq) (sizeof_dnsheader + consumed)); [done |].
  destruct (Z.gtb_spec (dq_len dq) (sizeof_dnsheader + consumed)); [| done].
  rewrite (bytes_from_ext (dq_dh dq') (dq_dh dq) (sizeof_dnsheader + consumed)
             (dq_len dq - (sizeof_dnsheader + consumed))); [done |].
  intros i Hi. apply Hbytes. right. unfold sizeof_dnsheader in *. lia.
Qed.

(** X6.  An entry that serves a query also serves every query that
    differs from it in the identifier and in the case of the qname only
    (as under 0x20 case randomisation): the second query has the same
    key, is a hit under the same conditions, and its response is built
    with its own spelling of the qname. *)
Theorem get_case_variant c dq dq' consumed queryId response responseLen keyOut
    allowExpired skipAging now key v :
  queryKey burtle dq consumed = Ok key ->
  entryAt c key = Some v ->
  servable v dq responseLen ->
  (validity v < now -> now - validity v < allowExpired) ->
  toLower (toDNSString (dq_qname dq')) = toLower (toDNSString (dq_qname dq)) ->
  dq_qtype dq' = dq_qtype dq -> dq_qclass dq' = dq_qclass dq ->
  dq_tcp dq' = dq_tcp dq -> dq_len dq' = dq_len dq ->
  (forall i : nat,
     (2 <= i < 12)%nat \/ sizeof_dnsheader + consumed <= Z.of_nat i ->
     dq_dh dq' !! i = dq_dh dq !! i) ->
  queryKey burtle dq' consumed = Ok key
  /\ get burtle ageDNSPacket c dq' consumed queryId response responseLen
       keyOut allowExpired skipAging now true
     = Ok (mkLookup true
             (if len v =? sizeof_dnsheader
              then spliceHeader response queryId v
              else agedResponse ageDNSPacket c dq' queryId response skipAging
                     v (if validity v <? now
                        then (validity v - added v) - d_staleTTL (d_config c)
                        else now - added v))
             (len v) (keySlot keyOut key), incr_hits c).
Proof.
  intros Hkey Hentry (Hmatch & Hbuf & Hlen) Htol Hname Hqt Hqc Htcp Hdl Hbytes.
  assert (queryKey burtle dq' consumed = Ok key) as Hkey'
    by (rewrite <- Hkey; by apply queryKey_variant).
  split; [done |].
  apply get_hit; try done.
  split; [| split; [done |]].
  - apply cachedValueMatches_true in Hmatch as (Ht & Hq & Hc & Hn).
    apply cachedValueMatches_true. rewrite Htcp, Hqt, Hqc, Hname. done.
  - assert (length (toDNSString (dq_qname dq'))
            = length (toDNSString (dq_qname dq))) as ->; [| done].
    apply (f_equal length) in Hname. unfold toLower in Hname.
    by rewrite !length_fmap in Hname.
Qed.

End Buffer.

(** ** More on insertions *)

(** Writing a shard back with a new value under [key] changes the entry
    of no other key. *)
Lemma entryAt_set_shard_other c shardIndex shard key newValue count key' :
  vector_at (d_shards c) shardIndex = Ok shard ->
  key' <> key ->
  entryAt (set_shard c shardIndex
             (mkCacheShard (<[key := newValue]> (d_map shard)) count)) key'
  = entryAt c key'.
Proof.
  intros Hs Hne. apply vector_at_Ok in Hs as [Hge Hs].
  unfold entryAt, shardOf.
  change (getShardIndex (set_shard _ _ _) key') with (getShardIndex c key').
  destruct (getShardIndex c key') as [i'|]; cbn [mbind result_bind]; [| done].
  unfold vector_at. destruct (Z.ltb_spec i' 0); [done |]. cbn.
  destruct (decide (Z.to_nat shardIndex = Z.to_nat i')) as [Heq|Hdiff].
  - rewrite <- Heq, list_lookup_insert_eq by (by eapply lookup_lt_Some).
    rewrite Hs. cbn. by rewrite lookup_insert_ne.
  - by rewrite list_lookup_insert_ne.
Qed.

Section FurtherInsertion.

Variable getDNSPacketMinTTL : list byte -> Z -> Z.

(** X7.  An [insert] for [key] changes the entry of no other key, and
    touches neither the configuration, nor the rotation index, nor the
    counters of the lookups. *)
Theorem insert_frame c key qn qt qc response responseLen tc rcode
    tempFailureTTL now gotIt c' :
  insert getDNSPacketMinTTL c key qn qt qc response responseLen tc rcode
    tempFailureTTL now gotIt = Ok c' ->
  (forall key', key' <> key -> entryAt c' key' = entryAt c key')
  /\ d_config c' = d_config c
  /\ d_expungeIndex c' = d_expungeIndex c
  /\ d_hits (d_stats c') = d_hits (d_stats c)
  /\ d_misses (d_stats c') = d_misses (d_stats c)
  /\ d_lookupCollisions (d_stats c') = d_lookupCollisions (d_stats c)
  /\ d_deferredLookups (d_stats c') = d_deferredLookups (d_stats c).
Proof.
  intros Hrun. apply insert_cases in Hrun
    as [-> | [-> | [-> | (ttl & i & s & _ & _ & Hs & ->)]]]; try done.
  pose proof (insertLocked_cases c i s key qn qt qc tc
    (newCacheValue qn qt qc response responseLen tc now ttl) now
    (now + ttl)) as Hc.
  cbn zeta in Hc. destruct Hc as [-> | [-> | [n ->]]]; try done.
  split; [| done]. intros key' Hne. by apply entryAt_set_shard_other.
Qed.

(** X8.  The lifetime of an entry cached for a response that is neither
    SERVFAIL nor REFUSED: an entry that an [insert] leaves under the key,
    and that was not there before, was added at [now] and is valid for
    the least TTL of the packet capped at [d_maxTTL]; that lifetime is at
    least [d_minTTL], and the packet had a TTL (the scan did not return
    the sentinel). *)
Theorem insert_ttl_bounds c key qn qt qc response responseLen tc rcode
    tempFailureTTL now gotIt c' v :
  rcode <> RCode.ServFail -> rcode <> RCode.Refused ->
  insert getDNSPacketMinTTL c key qn qt qc response responseLen tc rcode
    tempFailureTTL now gotIt = Ok c' ->
  entryAt c' key = Some v -> entryAt c key <> Some v ->
  added v = now
  /\ validity v - added v
     = Z.min (getDNSPacketMinTTL response responseLen) (d_maxTTL (d_config c))
  /\ d_minTTL (d_config c) <= validity v - added v <= d_maxTTL (d_config c)
  /\ getDNSPacketMinTTL response responseLen <> uint32_max.
Proof.
  intros Hsf Hrf Hrun Hnew Hold.
  destruct (insert_new_entry _ _ _ _ _ _ _ _ _ _ _ _ _ _ _ Hrun Hnew Hold)
    as (ttl & Httl & ->).
  unfold insertTTL, getMinTTL in Httl.
  destruct (Z.eqb_spec rcode RCode.ServFail); [done |].
  destruct (Z.eqb_spec rcode RCode.Refused); [done |].
  cbn [orb] in Httl.
  destruct (Z.eqb_spec (getDNSPacketMinTTL response responseLen) uint32_max);
    [done |].
  destruct (Z.gtb_spec (getDNSPacketMinTTL response responseLen)
              (d_maxTTL (d_config c)));
    match type of Httl with
    | (if ?x <? ?y then _ else _) = _ => destruct (Z.ltb_spec x y)
    end; simplify_eq; cbn; repeat split; try done; lia.
Qed.

(** X9.  The size after an [insert] on a cache within its capacity: it
    grows by one when the call puts an entry under a key that had none,
    and is the same in every other case, replacement included; an entry
    under the key is never lost. *)
Theorem insert_size_step c key qn qt qc response responseLen tc rcode
    tempFailureTTL now gotIt c' :
  wf c -> withinCapacity c ->
  insert getDNSPacketMinTTL c key qn qt qc response responseLen tc rcode
    tempFailureTTL now gotIt = Ok c' ->
  exists n,
    getSize c = Ok n
    /\ getSize c' = Ok (n + match entryAt c key, entryAt c' key with
                            | None, Some _ => 1
                            | _, _ => 0
                            end)
    /\ (is_Some (entryAt c key) -> is_Some (entryAt c' key)).
Proof.
  intros Hwf Hcap Hrun.
  destruct (insert_inv getDNSPacketMinTTL c key qn qt qc response responseLen
              tc rcode tempFailureTTL now gotIt Hwf Hcap)
    as (c1 & Hrun1 & Hwf' & Hcap').
  rewrite Hrun in Hrun1. injection Hrun1 as <-.
  destruct (getSize_total c Hwf Hcap) as [Hsize _].
  destruct (getSize_total c' Hwf' Hcap') as [Hsize' _].
  exists (totalEntries (d_shards c)). split; [done |]. rewrite Hsize'.
  assert (entryAt c' key = entryAt c key ->
          d_shards c' = d_shards c ->
          Ok (totalEntries (d_shards c'))
          = Ok (totalEntries (d_shards c)
                + match entryAt c key, entryAt c' key with
                  | None, Some _ => 1
                  | _, _ => 0
                  end)
          /\ (is_Some (entryAt c key) -> is_Some (entryAt c' key)))
    as Hsame.
  { intros -> ->. split; [| done].
    destruct (entryAt c key); f_equal; lia. }
  apply insert_cases in Hrun
    as [-> | [-> | [-> | (ttl & i & s & _ & Hi & Hs & ->)]]];
    try (by apply Hsame).
  set (nv := newCacheValue qn qt qc response responseLen tc now ttl) in *.
  assert (entryAt c key = d_map s !! key) as Hbefore.
  { unfold entryAt. by rewrite (proj2 (shardOf_Ok c key s)) by eauto. }
  pose proof Hs as Hs0. apply vector_at_Ok in Hs0 as [_ Hlookup].
  unfold insertLocked in *.
  destruct (Z.of_nat (size (d_map s)) >=? shardCapacity c);
    [by apply Hsame |].
  destruct (d_map s !! key) as [old|] eqn:Hold.
  - destruct (_ && _); [by apply Hsame |].
    destruct (_ <=? _); [by apply Hsame |].
    rewrite Hbefore. unfold entryAt.
    rewrite (shardOf_set_shard _ _ _ s) by done.
    cbn. rewrite lookup_insert_eq.
    rewrite (totalEntries_insert _ _ s) by done. cbn.
    rewrite map_size_insert_Some by done. split; [f_equal; lia | done].
  - rewrite Hbefore. unfold entryAt.
    rewrite (shardOf_set_shard _ _ _ s) by done.
    cbn. rewrite lookup_insert_eq.
    rewrite (totalEntries_insert _ _ s) by done. cbn.
    rewrite map_size_insert_None by done. split; [f_equal; lia |].
    by intros [? ?].
Qed.

End FurtherInsertion.

(** ** The size of the cache *)

(** X10.  On a cache within its capacity [isFull] answers true exactly
    when the cache holds [d_maxEntries] entries.  As a shard takes at most
    [d_maxEntries / d_shardCount] entries, a cache whose [d_maxEntries]
    is not a multiple of its shard count is never full. *)
Theorem isFull_spec c :
  wf c -> withinCapacity c ->
  isFull c
  = Ok (bool_decide (totalEntries (d_shards c) = d_maxEntries (d_config c)))
  /\ (d_maxEntries (d_config c) mod d_shardCount (d_config c) <> 0 ->
      isFull c = Ok false).
Proof.
  intros Hwf Hcap.
  destruct (getSize_total c Hwf Hcap) as [Hsize Hbound].
  unfold isFull. rewrite Hsize. cbn [mbind result_bind].
  split.
  - f_equal. case_bool_decide as Heq.
    + apply Z.geb_le. lia.
    + destruct (Z.geb_spec (totalEntries (d_shards c))
                  (d_maxEntries (d_config c))); [lia | done].
  - intros Hrem. f_equal.
    pose proof (totalEntries_bound _ _ Hcap) as Hb.
    destruct Hwf as [HS HM Hlen _]. rewrite Hlen in Hb.
    unfold shardCapacity in Hb.
    pose proof (Z.div_mod (d_maxEntries (d_config c))
                  (d_shardCount (d_config c)) ltac:(lia)) as Hdm.
    pose proof (Z.mod_pos_bound (d_maxEntries (d_config c))
                  (d_shardCount (d_config c)) ltac:(lia)) as Hmb.
    destruct (Z.geb_spec (totalEntries (d_shards c))
                (d_maxEntries (d_config c))); [lia | done].
Qed.

(** ** Targeted invalidation *)

Section FurtherInvalidation.

Variable iteration : gmap Z CacheValue -> list (Z * CacheValue).
Variable isPartOf : DNSName -> DNSName -> bool.
Hypothesis iteration_perm : forall m, iteration m ≡ₚ map_to_list m.

(** The inner loop of [expungeByName] over entries [its] of the shard. *)
Lemma expungeByNameScan_spec name qtype' suffixMatch its shard :
  NoDup its.*1 ->
  (forall k v, (k, v) ∈ its -> d_map shard !! k = Some v) ->
  d_entriesCount shard = Z.of_nat (size (d_map shard)) ->
  Z.of_nat (size (d_map shard)) < 2 ^ 64 ->
  let shard' := expungeByNameScan isPartOf name qtype' suffixMatch its shard in
  d_map shard' ⊆ d_map shard
  /\ d_entriesCount shard' = Z.of_nat (size (d_map shard'))
  /\ (forall k v, (k, v) ∈ its ->
        expungeByNameMatches isPartOf v name qtype' suffixMatch = true ->
        d_map shard' !! k = None)
  /\ (forall k v, d_map shard !! k = Some v ->
        expungeByNameMatches isPartOf v name qtype' suffixMatch = false
        \/ k ∉ its.*1 ->
        d_map shard' !! k = Some v).
Proof.
  revert shard.
  induction its as [|[k0 v0] its IH]; intros shard Hnodup Hin Hcount Hsize;
    cbn zeta.
  - cbn. split; [done |]. split; [done |]. split; [| done].
    intros k v Hk. by apply elem_of_nil in Hk.
  - cbn [expungeByNameScan].
    cbn in Hnodup. apply NoDup_cons in Hnodup as [Hk0 Hnodup].
    assert (d_map shard !! k0 = Some v0) as Hkv
      by (apply Hin; apply list_elem_of_here).
    destruct (expungeByNameMatches isPartOf v0 name qtype' suffixMatch)
      eqn:Hm.
    + pose proof (map_size_delete_Some k0 (d_map shard) ltac:(by eexists))
        as Hdel.
      assert (size (d_map shard) ≠ 0%nat) as Hnz.
      { apply map_size_non_empty_iff. intros Hempty.
        by rewrite Hempty, lookup_empty in Hkv. }
      destruct (IH (mkCacheShard (delete k0 (d_map shard))
                      (wrap64 (d_entriesCount shard - 1))))
        as (Hsub & Hcnt & Hgone & Hkept); cbn [d_map d_entriesCount];
        try done; try lia.
      * intros k v Hk. rewrite lookup_delete_ne.
        -- apply Hin. by apply list_elem_of_further.
        -- intros <-. apply Hk0. apply list_elem_of_fmap. by exists (k0, v).
      * rewrite wrap64_small; lia.
      * cbn [d_map] in Hsub, Hgone, Hkept.
        split; [etrans; [exact Hsub | apply delete_subseteq] |].
        split; [done |]. split.
        -- intros k v Hk Hmatch.
           apply elem_of_cons in Hk as [[= -> ->] | Hk]; [| by eapply Hgone].
           eapply lookup_weaken_None; [| exact Hsub]. apply lookup_delete_eq.
        -- intros k v Hk Hwhy. apply Hkept.
           ++ rewrite lookup_delete_ne; [done |]. intros <-.
              destruct Hwhy as [Hno | Hnot]; [congruence |].
              apply Hnot. cbn. apply list_elem_of_here.
           ++ destruct Hwhy as [Hno | Hnot]; [by left | right].
              intros Hk'. apply Hnot. cbn. by apply list_elem_of_further.
    + destruct (IH shard) as (Hsub & Hcnt & Hgone & Hkept); try done.
      * intros k v Hk. apply Hin. by apply list_elem_of_further.
      * split; [done |]. split; [done |]. split.
        -- intros k v Hk Hmatch.
           apply elem_of_cons in Hk as [[= -> ->] | Hk]; [congruence |].
           by eapply Hgone.
        -- intros k v Hk Hwhy. apply Hkept; [done |].
           destruct Hwhy as [Hno | Hnot]; [by left |].
           destruct (decide (k = k0)) as [-> | Hne].
           ++ left. congruence.
           ++ right. intros Hk'. apply Hnot. cbn.
              by apply list_elem_of_further.
Qed.

(** The scan of a whole shard. *)
Lemma expungeByNameScan_shard name qtype' suffixMatch shard :
  d_entriesCount shard = Z.of_nat (size (d_map shard)) ->
  Z.of_nat (size (d_map shard)) < 2 ^ 64 ->
  let shard' := expungeByNameScan isPartOf name qtype' suffixMatch
                  (iteration (d_map shard)) shard in
  d_map shard' ⊆ d_map shard
  /\ d_entriesCount shard' = Z.of_nat (size (d_map shard'))
  /\ forall k,
       d_map shard' !! k
       = match d_map shard !! k with
         | Some v =>
             if expungeByNameMatches isPartOf v name qtype' suffixMatch
             then None else Some v
         | None => None
         end.
Proof.
  intros Hcount Hsize. cbn zeta.
  destruct (expungeByNameScan_spec name qtype' suffixMatch
              (iteration (d_map shard)) shard)
    as (Hsub & Hcnt & Hgone & Hkept); try done.
  { rewrite (iteration_perm (d_map shard)). apply NoDup_fst_map_to_list. }
  { intros k v. rewrite (iteration_perm (d_map shard)).
    by rewrite elem_of_map_to_list. }
  split; [done |]. split; [done |]. intros k.
  destruct (d_map shard !! k) as [v|] eqn:Hk.
  - destruct (expungeByNameMatches isPartOf v name qtype' suffixMatch)
      eqn:Hm.
    + apply (Hgone k v); [| done].
      rewrite (iteration_perm (d_map shard)). by rewrite elem_of_map_to_list.
    + apply Hkept; [done | by left].
  - by eapply lookup_weaken_None.
Qed.

(** The loop over the shards applies the scan to every shard. *)
Lemma expungeByNameLoop_spec name qtype' suffixMatch rest : forall pre c,
  d_shards c = pre ++ rest ->
  expungeByNameLoop iteration isPartOf (length rest) c
    (Z.of_nat (length pre)) name qtype' suffixMatch
  = Ok (set_shards c
          (pre ++ ((fun shard =>
                      expungeByNameScan isPartOf name qtype' suffixMatch
                        (iteration (d_map shard)) shard) <$> rest))).
Proof.
  induction rest as [|shard rest IH]; intros pre c Hshards.
  - cbn. rewrite app_nil_r in *. rewrite <- Hshards. by destruct c.
  - cbn [length expungeByNameLoop].
    assert (vector_at (d_shards c) (Z.of_nat (length pre)) = Ok shard) as ->.
    { apply vector_at_Ok. split; [lia |]. rewrite Nat2Z.id, Hshards.
      by rewrite list_lookup_middle. }
    cbn [mbind result_bind].
    set (shard' := expungeByNameScan isPartOf name qtype' suffixMatch
                     (iteration (d_map shard)) shard).
    replace (Z.of_nat (length pre) + 1)
      with (Z.of_nat (length (pre ++ [shard'])))
      by (rewrite length_app; cbn; lia).
    rewrite IH.
    + cbn. rewrite <- app_assoc. done.
    + cbn. rewrite Nat2Z.id, Hshards.
      rewrite insert_app_r_alt, Nat.sub_diag by done.
      cbn. by rewrite <- app_assoc.
Qed.

(** [expungeByName] applies the scan to every shard; what this does to
    the maps, and to the entry of a key. *)
Lemma expungeByName_run c name qtype' suffixMatch :
  wf c -> withinCapacity c ->
  let f := fun shard =>
             expungeByNameScan isPartOf name qtype' suffixMatch
               (iteration (d_map shard)) shard in
  let kept := fun entry : option CacheValue =>
                match entry with
                | Some v =>
                    if expungeByNameMatches isPartOf v name qtype' suffixMatch
                    then None else Some v
                | None => None
                end in
  expungeByName iteration isPartOf c name qtype' suffixMatch
  = Ok (set_shards c (f <$> d_shards c))
  /\ (forall shard, shard ∈ d_shards c ->
        d_map (f shard) ⊆ d_map shard
        /\ d_entriesCount (f shard) = Z.of_nat (size (d_map (f shard)))
        /\ forall k, d_map (f shard) !! k = kept (d_map shard !! k))
  /\ forall key,
       entryAt (set_shards c (f <$> d_shards c)) key = kept (entryAt c key).
Proof.
  intros Hwf Hcap f kept.
  pose proof (expungeByNameLoop_spec name qtype' suffixMatch (d_shards c) []
                c eq_refl) as Hrun.
  change (Z.of_nat (length (@nil CacheShard))) with 0 in Hrun.
  rewrite <- (Nat2Z.id (length (d_shards c))), (wf_shards c Hwf) in Hrun.
  cbn [app] in Hrun. split; [exact Hrun |].
  pose proof (shardCapacity_bounds c Hwf) as Hb.
  pose proof (wf_maxEntries c Hwf) as HM.
  assert (forall shard, shard ∈ d_shards c ->
            d_map (f shard) ⊆ d_map shard
            /\ d_entriesCount (f shard) = Z.of_nat (size (d_map (f shard)))
            /\ forall k, d_map (f shard) !! k = kept (d_map shard !! k))
    as Hshard.
  { intros shard Hin.
    pose proof (proj1 (Forall_forall _ _) (wf_counts c Hwf) shard Hin)
      as Hcount.
    pose proof (proj1 (Forall_forall _ _) Hcap shard Hin) as Hsize.
    cbn beta in Hcount, Hsize.
    apply expungeByNameScan_shard; [done | lia]. }
  split; [exact Hshard |].
  intros key. unfold entryAt, shardOf.
  change (getShardIndex (set_shards c (f <$> d_shards c)) key)
    with (getShardIndex c key).
  destruct (getShardIndex c key) as [i|]; cbn [mbind result_bind];
    [| done].
  unfold vector_at. destruct (i <? 0); [done |]. cbn [d_shards set_shards].
  rewrite list_lookup_fmap.
  destruct (d_shards c !! Z.to_nat i) as [shard|] eqn:Hi; cbn; [| done].
  apply Hshard. by eapply list_elem_of_lookup_2.
Qed.

(** X11.  [expungeByName] on a cache within its capacity returns
    normally and removes exactly the entries that pass its test: under
    every key, an entry whose name is [name] (or, with [suffixMatch], is
    part of [name]) and whose type is [qtype'] (or any type, when [qtype']
    is [ANY]) is gone, every other entry is as it was, and no entry
    appears.  The shard counters follow the maps, and the configuration,
    the statistics and the rotation index are not touched. *)
Theorem expungeByName_spec c name qtype' suffixMatch :
  wf c -> withinCapacity c ->
  exists c',
    expungeByName iteration isPartOf c name qtype' suffixMatch = Ok c'
    /\ wf c' /\ withinCapacity c'
    /\ d_config c' = d_config c /\ d_stats c' = d_stats c
    /\ d_expungeIndex c' = d_expungeIndex c
    /\ forall key,
         entryAt c' key
         = match entryAt c key with
           | Some v =>
               if expungeByNameMatches isPartOf v name qtype' suffixMatch
               then None else Some v
           | None => None
           end.
Proof.
  intros Hwf Hcap.
  destruct (expungeByName_run c name qtype' suffixMatch Hwf Hcap)
    as (Hrun & Hshard & Hentry).
  eexists. split; [exact Hrun |].
  split; [| split; [| split; [done | split; [done | split; [done |]]]]].
  - destruct Hwf as [HS HM' Hlen Hcounts]. split; cbn; try done.
    + by rewrite length_fmap.
    + apply Forall_fmap, Forall_forall. intros shard Hin. cbn.
      by apply Hshard.
  - unfold withinCapacity. cbn. apply Forall_fmap, Forall_forall.
    intros shard Hin. cbn.
    pose proof (proj1 (Forall_forall _ _) Hcap shard Hin) as Hsize.
    cbn beta in Hsize.
    destruct (Hshard shard Hin) as (Hsub & _).
    apply map_subseteq_size in Hsub.
    match goal with
    | |- _ <= shardCapacity ?c' => change (shardCapacity c')
                                     with (shardCapacity c)
    end. lia.
  - exact Hentry.
Qed.

End FurtherInvalidation.

(** ** Invalidation, then lookup *)

Section InvalidateThenGet.

Variable burtle : list byte -> Z -> Z.
Variable ageDNSPacket : list byte -> Z -> Z -> list byte.
Variable iteration : gmap Z CacheValue -> list (Z * CacheValue).
Variable isPartOf : DNSName -> DNSName -> bool.
Hypothesis iteration_perm : forall m, iteration m ≡ₚ map_to_list m.

(** A hit comes from an entry under the key of the query that matches
    the query. *)
Lemma get_hit_inv c dq consumed queryId response responseLen keyOut
    allowExpired skipAging now gotIt lk c' :
  get burtle ageDNSPacket c dq consumed queryId response responseLen keyOut
    allowExpired skipAging now gotIt = Ok (lk, c') ->
  lk_hit lk = true ->
  exists key v,
    entryAt c key = Some v
    /\ cachedValueMatches v (dq_qname dq) (dq_qtype dq) (dq_qclass dq)
         (dq_tcp dq) = true.
Proof.
  intros Hrun Hhit. unfold get in Hrun.
  destruct (getKey _ _ _ _ _ _) as [key|];
    cbn [mbind result_bind] in Hrun; [| done].
  destruct (getShardIndex c key) as [i|] eqn:Hi;
    cbn [mbind result_bind] in Hrun; [| done].
  destruct (vector_at (d_shards c) i) as [shard|] eqn:Hs;
    cbn [mbind result_bind] in Hrun; [| done].
  destruct gotIt; cbn [negb] in Hrun; [| by simplify_eq].
  destruct (d_map shard !! key) as [v|] eqn:Hv; [| by simplify_eq].
  exists key, v. split; [apply entryAt_Some; by exists i, shard |].
  destruct (_ && _) in Hrun; [by simplify_eq |].
  destruct (orb _ _) in Hrun; [by simplify_eq |].
  destruct (cachedValueMatches v _ _ _ _); [done |].
  cbn [negb] in Hrun. by simplify_eq.
Qed.

(** X12.  After [expungeByName (name, qtype', suffixMatch)] no lookup for
    [name] in any spelling, with a query type that [qtype'] covers, is a
    hit: whatever the query is otherwise, whenever it is made and
    whatever tolerance for expired entries it is given. *)
Theorem expungeByName_then_get c name qtype' suffixMatch c1 dq consumed
    queryId response responseLen keyOut allowExpired skipAging now gotIt lk
    c2 :
  wf c -> withinCapacity c ->
  expungeByName iteration isPartOf c name qtype' suffixMatch = Ok c1 ->
  DNSName_eqb (dq_qname dq) name = true ->
  qtype' = QType.ANY \/ qtype' = dq_qtype dq ->
  get burtle ageDNSPacket c1 dq consumed queryId response responseLen keyOut
    allowExpired skipAging now gotIt = Ok (lk, c2) ->
  lk_hit lk = false.
Proof.
  intros Hwf Hcap Hexp Hname Hqt Hrun.
  destruct (lk_hit lk) eqn:Hhit; [exfalso | done].
  destruct (get_hit_inv _ _ _ _ _ _ _ _ _ _ _ _ _ Hrun Hhit)
    as (key & v & Hentry & Hmatch).
  destruct (expungeByName_run iteration isPartOf iteration_perm c name qtype'
              suffixMatch Hwf Hcap) as (Hrun1 & _ & Hkept).
  rewrite Hexp in Hrun1. injection Hrun1 as ->.
  rewrite Hkept in Hentry.
  destruct (entryAt c key) as [v0|]; [| done].
  destruct (expungeByNameMatches isPartOf v0 name qtype' suffixMatch)
    eqn:Hm; [done |].
  injection Hentry as ->.
  apply cachedValueMatches_true in Hmatch as (_ & Hq & _ & Hn).
  unfold expungeByNameMatches in Hm.
  assert (DNSName_eqb (qname v) name = true) as Heq.
  { unfold DNSName_eqb in *. apply bool_decide_eq_true in Hname.
    apply bool_decide_eq_true. unfold toDNSString in Hn. congruence. }
  rewrite Heq in Hm. cbn [orb andb] in Hm.
  destruct Hqt as [-> | ->].
  - by rewrite Z.eqb_refl in Hm.
  - rewrite Hq, Z.eqb_refl, orb_true_r in Hm. done.
Qed.

End InvalidateThenGet.

(** ** Trimming the cache *)

Lemma eraseAll_subseteq its (m : gmap Z CacheValue) : eraseAll its m ⊆ m.
Proof.
  induction its as [|[k v] its IH]; [done |]. cbn.
  etrans; [apply delete_subseteq | exact IH].
Qed.

Lemma eraseAll_lookup_other its (m : gmap Z CacheValue) k :
  k ∉ its.*1 -> eraseAll its m !! k = m !! k.
Proof.
  induction its as [|[k0 v0] its IH]; intros Hk; [done |]. cbn in *.
  apply not_elem_of_cons in Hk as [Hne Hk].
  rewrite lookup_delete_ne by done. by apply IH.
Qed.

Lemma eraseAll_size its (m : gmap Z CacheValue) :
  NoDup its.*1 ->
  (forall k v, (k, v) ∈ its -> m !! k = Some v) ->
  (size (eraseAll its m) + length its = size m)%nat.
Proof.
  induction its as [|[k v] its IH]; intros Hnodup Hin; [cbn; lia |].
  cbn in Hnodup. apply NoDup_cons in Hnodup as [Hk Hnodup].
  cbn [eraseAll foldr length fst]. fold (eraseAll its m).
  assert (eraseAll its m !! k = Some v) as Hkv.
  { rewrite eraseAll_lookup_other by done. apply Hin, list_elem_of_here. }
  pose proof (map_size_delete_Some k (eraseAll its m) ltac:(by eexists))
    as Hdel.
  assert (size (eraseAll its m) ≠ 0%nat) as Hnz.
  { apply map_size_non_empty_iff. intros Hempty.
    by rewrite Hempty, lookup_empty in Hkv. }
  specialize (IH Hnodup ltac:(intros; by apply Hin, list_elem_of_further)).
  lia.
Qed.

Section Trim.

Variable iteration : gmap Z CacheValue -> list (Z * CacheValue).
Hypothesis iteration_perm : forall m, iteration m ≡ₚ map_to_list m.

(** Erasing the first [r] entries of the iteration of a map that holds
    at least [r]. *)
Lemma erase_prefix_size (m : gmap Z CacheValue) (r : nat) :
  (r <= size m)%nat ->
  (size (eraseAll (take r (iteration m)) m) + r = size m)%nat.
Proof.
  intros Hr.
  assert (length (iteration m) = size m) as Hlen
    by (rewrite (iteration_perm m); apply length_map_to_list).
  pose proof (eraseAll_size (take r (iteration m)) m) as Hsize.
  rewrite length_take in Hsize.
  assert (size (eraseAll (take r (iteration m)) m)
          + r `min` length (iteration m) = size m)%nat; [| lia].
  apply Hsize.
  - rewrite fmap_take. apply (sublist_NoDup _ (iteration m).*1);
      [| apply sublist_take].
    rewrite (iteration_perm m). apply NoDup_fst_map_to_list.
  - intros k v Hin.
    apply (sublist_subseteq _ _ (sublist_take _ _)) in Hin.
    rewrite (iteration_perm m) in Hin. by apply elem_of_map_to_list.
Qed.

(** The loop of [expunge] from shard [shardIndex] on, with [removed]
    entries taken so far out of a budget of [toRemove]. *)
Lemma expungeLoop_spec toRemove unvisited : forall c shardIndex removed,
  wf c -> withinCapacity c ->
  Z.of_nat unvisited + shardIndex = d_shardCount (d_config c) ->
  0 <= shardIndex ->
  0 <= removed <= toRemove -> toRemove < 2 ^ 64 ->
  exists c' removed',
    expungeLoop iteration unvisited c shardIndex toRemove removed = Ok c'
    /\ wf c' /\ withinCapacity c'
    /\ d_config c' = d_config c /\ d_stats c' = d_stats c
    /\ d_expungeIndex c' = d_expungeIndex c
    /\ Forall2 (fun shard shard' => d_map shard' ⊆ d_map shard)
         (d_shards c) (d_shards c')
    /\ removed <= removed' <= toRemove
    /\ totalEntries (d_shards c)
       = totalEntries (d_shards c') + (removed' - removed)
    /\ (unvisited <> 0%nat ->
        forall last,
          d_shards c !! Z.to_nat (d_shardCount (d_config c) - 1) = Some last ->
          toRemove - removed <= Z.of_nat (size (d_map last)) ->
          removed' = toRemove).
Proof.
  induction unvisited as [|n IH]; intros c shardIndex removed Hwf Hcap Hidx
    Hge Hrem Hbudget.
  { exists c, removed. cbn. split; [done |].
    do 5 (split; [done |]).
    split; [apply Forall_Forall2_diag, Forall_forall; by intros |].
    split; [lia |]. split; [lia | done]. }
  pose proof (wf_shardCount c Hwf) as HS.
  pose proof (wf_shards c Hwf) as Hlen.
  pose proof (shardCapacity_bounds c Hwf) as Hb.
  pose proof (wf_maxEntries c Hwf) as HM.
  destruct (lookup_lt_is_Some_2 (d_shards c) (Z.to_nat shardIndex))
    as [shard Hlookup]; [lia |].
  pose proof (Forall_lookup_1 _ _ _ _ (wf_counts c Hwf) Hlookup) as Hcount.
  pose proof (Forall_lookup_1 _ _ _ _ Hcap Hlookup) as Hsize.
  cbn beta in Hcount, Hsize.
  cbn [expungeLoop].
  rewrite (proj2 (vector_at_Ok (d_shards c) shardIndex shard))
    by (split; [lia | done]).
  cbn [mbind result_bind].
  rewrite (wrap64_small (toRemove - removed)) by lia.
  rewrite (wrap32_small (d_shardCount (d_config c) - shardIndex)) by lia.
  set (D := d_shardCount (d_config c) - shardIndex).
  set (R := (toRemove - removed) / D).
  assert (0 <= R <= toRemove - removed) as HR.
  { subst R. split; [apply Z.div_pos; lia |].
    apply Z.div_le_upper_bound; [lia | nia]. }
  assert (D = 1 -> R = toRemove - removed) as Hlast
    by (intros HD; subst R; rewrite HD; apply Z.div_1_r).
  assert (forall shard1 removed1,
            d_map shard1 ⊆ d_map shard ->
            d_entriesCount shard1 = Z.of_nat (size (d_map shard1)) ->
            removed <= removed1 <= toRemove ->
            Z.of_nat (size (d_map shard))
            = Z.of_nat (size (d_map shard1)) + (removed1 - removed) ->
            (D = 1 -> toRemove - removed <= Z.of_nat (size (d_map shard)) ->
             removed1 = toRemove) ->
            exists c' removed',
              expungeLoop iteration n (set_shard c shardIndex shard1)
                (shardIndex + 1) toRemove removed1 = Ok c'
              /\ wf c' /\ withinCapacity c'
              /\ d_config c' = d_config c /\ d_stats c' = d_stats c
              /\ d_expungeIndex c' = d_expungeIndex c
              /\ Forall2 (fun shard shard' => d_map shard' ⊆ d_map shard)
                   (d_shards c) (d_shards c')
              /\ removed <= removed' <= toRemove
              /\ totalEntries (d_shards c)
                 = totalEntries (d_shards c') + (removed' - removed)
              /\ (S n <> 0%nat ->
                  forall last,
                    d_shards c !! Z.to_nat (d_shardCount (d_config c) - 1)
                    = Some last ->
                    toRemove - removed <= Z.of_nat (size (d_map last)) ->
                    removed' = toRemove)) as Hstep.
  { intros shard1 removed1 Hsub Hcnt1 Hrem1 Hsz1 Hexact.
    pose proof (map_subseteq_size _ _ Hsub) as Hle.
    destruct (IH (set_shard c shardIndex shard1) (shardIndex + 1) removed1)
      as (c' & removed' & Hrun & Hwf' & Hcap' & Hcfg & Hstats & Hindex & Hrel
          & Hrem' & Htotal & Hexact'); try done; try lia.
    { by apply set_shard_wf. }
    { apply set_shard_withinCapacity; [done | lia]. }
    { cbn. lia. }
    exists c', removed'. split; [done |]. split; [done |]. split; [done |].
    split; [done |]. split; [done |]. split; [done |].
    split.
    { eapply Forall2_trans; [| | exact Hrel];
        [intros ? ? ? H1 H2; etrans; [exact H2 | exact H1] |].
      cbn. rewrite <- (list_insert_id (d_shards c) _ shard Hlookup) at 1.
      apply Forall2_insert; [| done].
      apply Forall_Forall2_diag, Forall_forall. by intros. }
    split; [lia |]. split.
    { cbn in Htotal. rewrite (totalEntries_insert _ _ shard) in Htotal
        by done. lia. }
    intros _ last Hlast' Henough.
    destruct n as [|m].
    - assert (D = 1) as HD by (subst D; lia).
      assert (Z.to_nat (d_shardCount (d_config c) - 1) = Z.to_nat shardIndex)
        as Hsame by (subst D; lia).
      rewrite Hsame, Hlookup in Hlast'. injection Hlast' as <-.
      cbn in Hrun. injection Hrun as <-.
      specialize (Hexact HD Henough).
      cbn in Hrem'. lia.
    - apply (Hexact' ltac:(done) last); [| lia].
      cbn. rewrite list_lookup_insert_ne by lia. done. }
  destruct (Z.geb_spec (Z.of_nat (size (d_map shard))) R) as [Hfits|Hsmall].
  - rewrite (wrap64_small (removed + R)) by lia.
    pose proof (erase_prefix_size (d_map shard) (Z.to_nat R) ltac:(lia))
      as Hprefix.
    apply Hstep; cbn [d_map d_entriesCount].
    + apply eraseAll_subseteq.
    + rewrite wrap64_small; lia.
    + lia.
    + lia.
    + intros HD _. rewrite (Hlast HD). lia.
  - rewrite (wrap64_small (removed + Z.of_nat (size (d_map shard)))) by lia.
    apply Hstep; cbn [d_map d_entriesCount].
    + apply map_empty_subseteq.
    + by rewrite map_size_empty.
    + lia.
    + rewrite map_size_empty. lia.
    + intros HD Henough. rewrite (Hlast HD) in Hsmall. lia.
Qed.

(** X13.  [expunge (upTo)] on a cache within its capacity returns
    normally and only ever takes entries away: each shard keeps a part of
    its map, the invariants hold again, and the configuration, the
    statistics and the rotation index are not touched.  With [upTo] at
    least the size the cache is left as it was; otherwise the size after
    the call is between [upTo] and the size before, so that the call
    never removes more than it was asked to. *)
Theorem expunge_bounds c upTo :
  wf c -> withinCapacity c -> 0 <= upTo ->
  exists c' n n',
    getSize c = Ok n /\ expunge iteration c upTo = Ok c'
    /\ getSize c' = Ok n'
    /\ wf c' /\ withinCapacity c'
    /\ d_config c' = d_config c /\ d_stats c' = d_stats c
    /\ d_expungeIndex c' = d_expungeIndex c
    /\ Forall2 (fun shard shard' => d_map shard' ⊆ d_map shard)
         (d_shards c) (d_shards c')
    /\ (n <= upTo -> c' = c)
    /\ (upTo < n -> upTo <= n' <= n).
Proof.
  intros Hwf Hcap Hup.
  destruct (getSize_total c Hwf Hcap) as [Hsize Hbound].
  pose proof (wf_maxEntries c Hwf) as HM.
  pose proof (wf_shardCount c Hwf) as HS.
  unfold expunge. rewrite Hsize. cbn [mbind result_bind].
  destruct (Z.geb_spec upTo (totalEntries (d_shards c))) as [Hge|Hlt].
  { exists c, (totalEntries (d_shards c)), (totalEntries (d_shards c)).
    do 8 (split; [done |]).
    split; [apply Forall_Forall2_diag, Forall_forall; by intros |].
    split; [done | lia]. }
  destruct (expungeLoop_spec (totalEntries (d_shards c) - upTo)
              (Z.to_nat (d_shardCount (d_config c))) c 0 0 Hwf Hcap)
    as (c' & removed' & Hrun & Hwf' & Hcap' & Hcfg & Hstats & Hindex & Hrel
        & Hrem & Htotal & _); try lia.
  destruct (getSize_total c' Hwf' Hcap') as [Hsize' _].
  exists c', (totalEntries (d_shards c)), (totalEntries (d_shards c')).
  do 9 (split; [done |]). split; lia.
Qed.

(** X14.  When [expunge (upTo)] does reach [upTo].  If the last shard
    holds at least as many entries as are to go, the size after the call
    is exactly [upTo], because the last shard is asked for all that is
    still missing; in particular a cache of one shard is always trimmed
    to [upTo]. *)
Theorem expunge_exact c upTo last :
  wf c -> withinCapacity c -> 0 <= upTo ->
  d_shards c !! Z.to_nat (d_shardCount (d_config c) - 1) = Some last ->
  upTo < totalEntries (d_shards c) ->
  totalEntries (d_shards c) - upTo <= Z.of_nat (size (d_map last))
  \/ d_shardCount (d_config c) = 1 ->
  exists c', expunge iteration c upTo = Ok c' /\ getSize c' = Ok upTo.
Proof.
  intros Hwf Hcap Hup Hlast Hlt Henough.
  destruct (getSize_total c Hwf Hcap) as [Hsize Hbound].
  pose proof (wf_maxEntries c Hwf) as HM.
  pose proof (wf_shardCount c Hwf) as HS.
  pose proof (wf_shards c Hwf) as Hlen.
  assert (totalEntries (d_shards c) - upTo <= Z.of_nat (size (d_map last)))
    as Hroom.
  { destruct Henough as [? | Hone]; [done |].
    rewrite Hone in Hlast, Hlen. cbn in Hlast.
    destruct (d_shards c) as [|s [|s' rest]]; cbn in Hlen, Hlast;
      [done | | lia].
    injection Hlast as ->. rewrite totalEntries_cons. cbn. lia. }
  unfold expunge. rewrite Hsize. cbn [mbind result_bind].
  destruct (Z.geb_spec upTo (totalEntries (d_shards c))); [lia |].
  destruct (expungeLoop_spec (totalEntries (d_shards c) - upTo)
              (Z.to_nat (d_shardCount (d_config c))) c 0 0 Hwf Hcap)
    as (c' & removed' & Hrun & Hwf' & Hcap' & _ & _ & _ & _ & Hrem & Htotal
        & Hexact); try lia.
  destruct (getSize_total c' Hwf' Hcap') as [Hsize' _].
  exists c'. split; [done |]. rewrite Hsize'. f_equal.
  rewrite (Hexact ltac:(lia) last Hlast ltac:(lia)) in Htotal. lia.
Qed.

(** The rotation index after the loop of [purgeExpired]. *)
Lemma purgeLoop_index unscanned : forall now c toRemove scannedMaps c'
    toRemove' scannedMaps',
  wf c -> withinCapacity c -> 0 <= toRemove ->
  purgeLoop iteration unscanned now c toRemove scannedMaps
  = Ok (c', toRemove', scannedMaps') ->
  d_expungeIndex c'
  = wrap32 (d_expungeIndex c + (scannedMaps' - scannedMaps)).
Proof.
  induction unscanned as [|n IH]; intros now c toRemove scannedMaps c' t' s'
    Hwf Hcap Hbudget;
    destruct (purgePass_spec iteration iteration_perm now c toRemove Hwf Hcap
                Hbudget)
      as (shard & shard' & t1 & Hi & Hs & Hscan & Hwf1 & Hcap1 & _ & Ht1 & _);
    cbn zeta in Hi, Hs;
    cbn [purgeLoop]; rewrite Hi; cbn [mbind result_bind];
    change (d_shards (set_expungeIndex c (wrap32 (d_expungeIndex c + 1))))
      with (d_shards c);
    rewrite Hs; cbn [mbind result_bind]; rewrite Hscan.
  - intros [= <- <- <-]. cbn. f_equal. lia.
  - destruct n as [|m]; [intros [= <- <- <-]; cbn; f_equal; lia |].
    destruct (t1 >? 0); [| intros [= <- <- <-]; cbn; f_equal; lia].
    intros Hrun. apply IH in Hrun; [| done | done | lia].
    rewrite Hrun. cbn. unfold wrap32.
    rewrite Zplus_mod_idemp_l. f_equal. lia.
Qed.

Lemma passShard_first c :
  0 <= d_expungeIndex c < 2 ^ 32 ->
  passShard c 0 = d_expungeIndex c mod d_shardCount (d_config c).
Proof. intros H. unfold passShard. by rewrite Z.add_0_r, wrap32_small. Qed.

Lemma passShard_next c shardIndex shard j :
  passShard
    (set_shard (set_expungeIndex c (wrap32 (d_expungeIndex c + 1)))
       shardIndex shard) j
  = passShard c (j + 1).
Proof.
  unfold passShard, wrap32. cbn. rewrite Zplus_mod_idemp_l.
  do 2 f_equal. lia.
Qed.

(** The shards that the loop of [purgeExpired] works on: a shard that no
    pass selects is left as it is, and a shard that a pass selects ends
    without an entry whose validity is before [now] when there was budget
    left after that pass, which is so for every pass but the last, and
    for the last one too when budget is left at the end. *)
Lemma purgeLoop_window unscanned : forall now c toRemove scannedMaps c'
    toRemove' scannedMaps',
  wf c -> withinCapacity c -> 0 <= toRemove ->
  0 <= d_expungeIndex c < 2 ^ 32 ->
  purgeLoop iteration unscanned now c toRemove scannedMaps
  = Ok (c', toRemove', scannedMaps') ->
  scannedMaps < scannedMaps'
  /\ (forall i : nat,
        (forall j, 0 <= j < scannedMaps' - scannedMaps ->
                   Z.to_nat (passShard c j) <> i) ->
        d_shards c' !! i = d_shards c !! i)
  /\ (forall j shard',
        0 <= j < scannedMaps' - scannedMaps ->
        j < scannedMaps' - scannedMaps - 1 \/ 0 < toRemove' ->
        d_shards c' !! Z.to_nat (passShard c j) = Some shard' ->
        cleanShard now shard').
Proof.
  induction unscanned as [|n IH]; intros now c toRemove scannedMaps c' t' s'
    Hwf Hcap Hbudget Hindex;
    destruct (purgePass_spec iteration iteration_perm now c toRemove Hwf Hcap
                Hbudget)
      as (shard & shard1 & t1 & Hi & Hs & Hscan & Hwf1 & Hcap1 & _ & Ht1 & _
          & Hat & Hclean);
    cbn zeta in Hi, Hs, Hat, Hwf1, Hcap1;
    cbn [purgeLoop]; rewrite Hi; cbn [mbind result_bind];
    change (d_shards (set_expungeIndex c (wrap32 (d_expungeIndex c + 1))))
      with (d_shards c);
    rewrite Hs; cbn [mbind result_bind]; rewrite Hscan;
    pose proof (passShard_first c Hindex) as Hfirst;
    assert (forall c0 t0 s0,
              Ok (set_shard
                    (set_expungeIndex c (wrap32 (d_expungeIndex c + 1)))
                    (d_expungeIndex c mod d_shardCount (d_config c)) shard1,
                  t1, scannedMaps + 1)
              = Ok (c0, t0, s0) ->
              scannedMaps < s0
              /\ (forall i : nat,
                    (forall j, 0 <= j < s0 - scannedMaps ->
                               Z.to_nat (passShard c j) <> i) ->
                    d_shards c0 !! i = d_shards c !! i)
              /\ (forall j shard',
                    0 <= j < s0 - scannedMaps ->
                    j < s0 - scannedMaps - 1 \/ 0 < t0 ->
                    d_shards c0 !! Z.to_nat (passShard c j) = Some shard' ->
                    cleanShard now shard')) as Hone.
  1,3: intros c0 t0 s0 [= <- <- <-]; split; [lia |]; split;
       [ intros i Hout; specialize (Hout 0 ltac:(lia));
         rewrite Hfirst in Hout; cbn;
         by apply list_lookup_insert_ne
       | intros j s2 Hj Hcond Hs2; assert (j = 0) as -> by lia;
         rewrite Hfirst, Hat in Hs2; simplify_eq; apply Hclean; lia ].
  - apply Hone.
  - destruct n as [|m]; [apply Hone |].
    destruct (Z.gtb_spec t1 0) as [Hpos|Hzero]; [| apply Hone].
    intros Hrun.
    destruct (purgeLoop_spec iteration iteration_perm (S m) now _ t1
                (scannedMaps + 1) Hwf1 Hcap1 ltac:(lia))
      as (c2 & t2 & s2 & Hrun2 & _ & _ & _ & _ & Hrel2 & _).
    rewrite Hrun in Hrun2. injection Hrun2 as <- <- <-.
    apply IH in Hrun as (Hlt & Hframe & Hcleaned); [| done | done | lia |].
    2:{ cbn. apply Z.mod_pos_bound. lia. }
    split; [lia |]. split.
    + intros i Hout. rewrite Hframe.
      * cbn. apply list_lookup_insert_ne.
        rewrite <- Hfirst. apply Hout. lia.
      * intros j Hj. rewrite passShard_next. apply Hout. lia.
    + intros j s2 Hj Hcond Hs2.
      destruct (decide (j = 0)) as [-> | Hj0].
      * rewrite Hfirst in Hs2.
        destruct (Forall2_lookup_l _ _ _ _ _ Hrel2 Hat)
          as (s3 & Hs3 & Hpurged).
        rewrite Hs2 in Hs3. simplify_eq.
        eapply cleanShard_purged; [exact Hpurged |]. apply Hclean. lia.
      * apply (Hcleaned (j - 1) s2); [lia | lia |].
        rewrite passShard_next. by replace (j - 1 + 1) with j by lia.
Qed.

(** X15.  The rotation of [purgeExpired]: a call touches neither the
    configuration nor the statistics, and advances the rotation index by
    the number of passes it has made (modulo 2^32), none when it returns
    before the loop and between one and [d_shardCount] otherwise.  Pass
    number [j] works on the shard [passShard c j]: a shard that no pass
    selects is left as it is, and a selected shard ends without an entry
    whose validity is before [now], except possibly that of the last pass
    when the budget is used up.  The next call starts with the shard
    [passShard c scannedMaps]; this is the shard after the one of the
    last pass, cyclically, as long as the 32-bit index has not wrapped
    around, and the shard [(index + scannedMaps - 2^32) mod d_shardCount]
    when it has. *)
Theorem purgeExpired_rotation c upTo now c' toRemove scannedMaps :
  wf c -> withinCapacity c ->
  0 <= d_expungeIndex c < 2 ^ 32 ->
  purgeExpiredRun iteration c upTo now = Ok (c', toRemove, scannedMaps) ->
  d_config c' = d_config c /\ d_stats c' = d_stats c
  /\ d_expungeIndex c' = wrap32 (d_expungeIndex c + scannedMaps)
  /\ (upTo >= totalEntries (d_shards c) -> scannedMaps = 0)
  /\ (upTo < totalEntries (d_shards c) ->
      1 <= scannedMaps <= d_shardCount (d_config c))
  /\ (forall i : nat,
        (forall j, 0 <= j < scannedMaps -> Z.to_nat (passShard c j) <> i) ->
        d_shards c' !! i = d_shards c !! i)
  /\ (forall j shard',
        0 <= j < scannedMaps ->
        j < scannedMaps - 1 \/ 0 < toRemove ->
        d_shards c' !! Z.to_nat (passShard c j) = Some shard' ->
        cleanShard now shard')
  /\ getShardIndex c' (d_expungeIndex c') = Ok (passShard c scannedMaps)
  /\ (1 <= scannedMaps -> d_expungeIndex c + scannedMaps < 2 ^ 32 ->
      passShard c scannedMaps
      = (passShard c (scannedMaps - 1) + 1) mod d_shardCount (d_config c))
  /\ (2 ^ 32 <= d_expungeIndex c + scannedMaps ->
      passShard c scannedMaps
      = (d_expungeIndex c + scannedMaps - 2 ^ 32)
        mod d_shardCount (d_config c)).
Proof.
  intros Hwf Hcap Hindex Hrun. unfold purgeExpiredRun in Hrun.
  destruct (getSize_total c Hwf Hcap) as [Hsize Hbound].
  pose proof (wf_shardCount c Hwf) as HS.
  rewrite Hsize in Hrun. cbn [mbind result_bind] in Hrun.
  assert (d_config c' = d_config c
          /\ d_stats c' = d_stats c
          /\ d_expungeIndex c' = wrap32 (d_expungeIndex c + scannedMaps)
          /\ (upTo >= totalEntries (d_shards c) -> scannedMaps = 0)
          /\ (upTo < totalEntries (d_shards c) ->
              1 <= scannedMaps <= d_shardCount (d_config c))
          /\ (forall i : nat,
                (forall j, 0 <= j < scannedMaps ->
                           Z.to_nat (passShard c j) <> i) ->
                d_shards c' !! i = d_shards c !! i)
          /\ (forall j shard',
                0 <= j < scannedMaps ->
                j < scannedMaps - 1 \/ 0 < toRemove ->
                d_shards c' !! Z.to_nat (passShard c j) = Some shard' ->
                cleanShard now shard'))
    as (Hcfg & Hstats & Hrot & Hnone & Hsome & Hframe & Hclean).
  { destruct (Z.geb_spec upTo (totalEntries (d_shards c))) as [Hge|Hlt].
    { injection Hrun as <- <- <-. rewrite Z.add_0_r, wrap32_small by done.
      do 4 (split; [done |]). split; [lia |]. split; [done |].
      intros; lia. }
    assert (0 <= totalEntries (d_shards c) - upTo) as Hbudget by lia.
    pose proof (purgeLoop_index _ _ _ _ _ _ _ _ Hwf Hcap Hbudget Hrun)
      as Hrot.
    pose proof (purgeLoop_window _ _ _ _ _ _ _ _ Hwf Hcap Hbudget Hindex Hrun)
      as (_ & Hframe & Hclean).
    rewrite Z.sub_0_r in Hframe, Hclean.
    destruct (purgeLoop_spec iteration iteration_perm
                (Z.to_nat (d_shardCount (d_config c))) now c
                (totalEntries (d_shards c) - upTo) 0 Hwf Hcap Hbudget)
      as (c1 & t1 & s1 & Hrun1 & Hcfg & Hstats & _ & _ & _ & _ & _ & Hs1 & _).
    rewrite Hrun in Hrun1. injection Hrun1 as <- <- <-.
    split; [done |]. split; [done |].
    split; [rewrite Hrot; f_equal; lia |].
    split; [lia |].
    split; [intros _; rewrite Z2Nat.id, Z.max_r in Hs1 by lia; lia |].
    by split. }
  do 7 (split; [done |]).
  assert (0 <= scannedMaps <= d_shardCount (d_config c)) as Hpasses.
  { destruct (Z.lt_ge_cases upTo (totalEntries (d_shards c))) as [Hlt|Hge].
    - specialize (Hsome Hlt). lia.
    - rewrite Hnone by lia. lia. }
  split; [| split].
  - unfold getShardIndex. rewrite Hcfg, Hrot.
    by destruct (Z.eqb_spec (d_shardCount (d_config c)) 0); [lia |].
  - intros Hpos Hnowrap. unfold passShard.
    rewrite !wrap32_small by lia.
    rewrite Zplus_mod_idemp_l. f_equal. lia.
  - intros Hwrap. unfold passShard, wrap32. f_equal.
    symmetry. apply (Z.mod_unique _ _ 1); lia.
Qed.

End Trim.

(** ** Sequences of operations *)

Section Reachable.

Variable burtle : list byte -> Z -> Z.
Variable getDNSPacketMinTTL : list byte -> Z -> Z.
Variable ageDNSPacket : list byte -> Z -> Z -> list byte.
Variable iteration : gmap Z CacheValue -> list (Z * CacheValue).
Variable isPartOf : DNSName -> DNSName -> bool.
Hypothesis iteration_perm : forall m, iteration m ≡ₚ map_to_list m.

(** [get] on a well-formed cache returns with the shards and the
    configuration as they were, unless the packet is too short for the
    key. *)
Lemma get_outcome c dq consumed queryId response responseLen keyOut
    allowExpired skipAging now gotIt :
  wf c ->
  (exists lk c',
     get burtle ageDNSPacket c dq consumed queryId response responseLen
       keyOut allowExpired skipAging now gotIt = Ok (lk, c')
     /\ d_config c' = d_config c /\ d_shards c' = d_shards c)
  \/ (get burtle ageDNSPacket c dq consumed queryId response responseLen
        keyOut allowExpired skipAging now gotIt = Throw range_error
      /\ (dq_len dq < sizeof_dnsheader
          \/ dq_len dq < sizeof_dnsheader + consumed)).
Proof.
  intros Hwf. unfold get.
  destruct (getKey burtle (toDNSString (dq_qname dq)) consumed (dq_dh dq)
              (dq_len dq) (dq_tcp dq)) as [key|e] eqn:Hkey.
  2:{ right. unfold getKey in Hkey.
      destruct (Z.ltb_spec (dq_len dq) sizeof_dnsheader);
        [simplify_eq; split; [done | by left] |].
      destruct (Z.ltb_spec (dq_len dq) (sizeof_dnsheader + consumed));
        [simplify_eq; split; [done | by right] | done]. }
  left. cbn [mbind result_bind].
  destruct (wf_shardOf c key Hwf) as (i & shard & Hi & _ & Hs).
  rewrite Hi. cbn [mbind result_bind]. rewrite Hs. cbn [mbind result_bind].
  repeat match goal with
         | |- context [match ?x with _ => _ end] =>
             lazymatch x with
             | context [match _ with _ => _ end] => fail
             | _ => destruct x
             end
         end; by eexists _, _.
Qed.

Lemma purgeExpired_inv c upTo now :
  wf c -> withinCapacity c ->
  exists c',
    purgeExpired iteration c upTo now = Ok c'
    /\ wf c' /\ withinCapacity c' /\ d_config c' = d_config c.
Proof.
  intros Hwf Hcap.
  destruct (getSize_total c Hwf Hcap) as [Hsize Hbound].
  unfold purgeExpired, purgeExpiredRun. rewrite Hsize.
  cbn [mbind result_bind].
  destruct (Z.geb_spec upTo (totalEntries (d_shards c))) as [Hge|Hlt];
    [by exists c |].
  destruct (purgeLoop_spec iteration iteration_perm
              (Z.to_nat (d_shardCount (d_config c))) now c
              (totalEntries (d_shards c) - upTo) 0 Hwf Hcap ltac:(lia))
    as (c' & t' & s' & Hrun & Hcfg & _ & Hwf' & Hcap' & _).
  rewrite Hrun. by exists c'.
Qed.

Lemma expunge_inv c upTo :
  wf c -> withinCapacity c -> 0 <= upTo ->
  exists c',
    expunge iteration c upTo = Ok c'
    /\ wf c' /\ withinCapacity c' /\ d_config c' = d_config c.
Proof.
  intros Hwf Hcap Hup.
  destruct (getSize_total c Hwf Hcap) as [Hsize Hbound].
  pose proof (wf_maxEntries c Hwf) as HM.
  pose proof (wf_shardCount c Hwf) as HS.
  unfold expunge. rewrite Hsize. cbn [mbind result_bind].
  destruct (Z.geb_spec upTo (totalEntries (d_shards c))) as [Hge|Hlt];
    [by exists c |].
  destruct (expungeLoop_spec iteration iteration_perm
              (totalEntries (d_shards c) - upTo)
              (Z.to_nat (d_shardCount (d_config c))) c 0 0 Hwf Hcap)
    as (c' & removed' & Hrun & Hwf' & Hcap' & Hcfg & _); try lia.
  by exists c'.
Qed.

(** One operation keeps the invariants, or is a [get] that throws. *)
Lemma runOperation_inv c op :
  wf c -> withinCapacity c -> inRange op ->
  (exists c',
     runOperation burtle getDNSPacketMinTTL ageDNSPacket iteration isPartOf c
       op = Ok c'
     /\ wf c' /\ withinCapacity c' /\ d_config c' = d_config c)
  \/ (runOperation burtle getDNSPacketMinTTL ageDNSPacket iteration isPartOf c
        op = Throw range_error
      /\ exists dq consumed queryId response responseLen keyOut allowExpired
           skipAging now gotIt,
           op = OpGet dq consumed queryId response responseLen keyOut
                  allowExpired skipAging now gotIt
           /\ (dq_len dq < sizeof_dnsheader
               \/ dq_len dq < sizeof_dnsheader + consumed)).
Proof.
  intros Hwf Hcap Hrange.
  destruct op as [i | dq consumed queryId response responseLen keyOut
                      allowExpired skipAging now gotIt | upTo now | upTo
                  | name qtype' suffixMatch]; cbn [runOperation].
  - left.
    destruct (insert_inv getDNSPacketMinTTL c (ic_key i) (ic_qname i)
                (ic_qtype i) (ic_qclass i) (ic_response i) (ic_responseLen i)
                (ic_tcp i) (ic_rcode i) (ic_tempFailureTTL i) (ic_now i)
                (ic_gotIt i) Hwf Hcap) as (c' & Hrun & Hwf' & Hcap').
    exists c'. split; [done |]. split; [done |]. split; [done |].
    exact (insert_config _ _ _ _ _ _ _ _ _ _ _ _ _ _ Hrun).
  - destruct (get_outcome c dq consumed queryId response responseLen keyOut
                allowExpired skipAging now gotIt Hwf)
      as [(lk & c' & -> & Hcfg & Hshards) | [-> Hshort]].
    + left. exists c'. cbn. split; [done |].
      split; [by apply (wf_same c) |].
      split; [by apply (withinCapacity_same c) | done].
    + right. split; [done |]. by eexists _, _, _, _, _, _, _, _, _, _.
  - left. by apply purgeExpired_inv.
  - left. by apply expunge_inv.
  - left.
    destruct (expungeByName_run iteration isPartOf iteration_perm c name
                qtype' suffixMatch Hwf Hcap) as (Hrun & Hshard & _).
    eexists. split; [exact Hrun |].
    split; [| split; [| done]].
    + destruct Hwf as [HS HM' Hlen Hcounts]. split; cbn; try done.
      * by rewrite length_fmap.
      * apply Forall_fmap, Forall_forall. intros shard Hin. cbn.
        by apply Hshard.
    + unfold withinCapacity. cbn. apply Forall_fmap, Forall_forall.
      intros shard Hin. cbn.
      pose proof (proj1 (Forall_forall _ _) Hcap shard Hin) as Hsize.
      cbn beta in Hsize.
      destruct (Hshard shard Hin) as (Hsub & _).
      apply map_subseteq_size in Hsub.
      match goal with
      | |- _ <= shardCapacity ?c' => change (shardCapacity c')
                                       with (shardCapacity c)
      end. lia.
Qed.

(** A sequence of operations from a cache within its capacity. *)
Lemma runOperations_inv ops : forall c,
  wf c -> withinCapacity c -> Forall inRange ops ->
  let run := runOperations burtle getDNSPacketMinTTL ageDNSPacket iteration
               isPartOf c ops in
  match run with
  | Ok c' =>
      wf c' /\ withinCapacity c' /\ d_config c' = d_config c
      /\ exists n, getSize c' = Ok n /\ 0 <= n <= d_maxEntries (d_config c)
  | Throw e => e = range_error
  end
  /\ (Forall (fun op =>
                match op with
                | OpGet dq consumed _ _ _ _ _ _ _ _ =>
                    sizeof_dnsheader <= dq_len dq
                    /\ sizeof_dnsheader + consumed <= dq_len dq
                | _ => True
                end) ops ->
      exists c', run = Ok c').
Proof.
  induction ops as [|op ops IH]; intros c Hwf Hcap Hrange; cbn zeta.
  - cbn. split; [| by eexists].
    split; [done |]. split; [done |]. split; [done |].
    destruct (getSize_total c Hwf Hcap) as [Hsize Hbound].
    by eexists.
  - apply Forall_cons in Hrange as [Hop Hrange].
    cbn [runOperations].
    destruct (runOperation_inv c op Hwf Hcap Hop)
      as [(c' & -> & Hwf' & Hcap' & Hcfg')
         | [-> (dq & consumed & ? & ? & ? & ? & ? & ? & ? & ? & -> & Hshort)]].
    + cbn [mbind result_bind].
      destruct (IH c' Hwf' Hcap' Hrange) as [Hinv Hok]. cbn zeta in *.
      split.
      * destruct (runOperations _ _ _ _ _ c' ops); [| done].
        by rewrite <- Hcfg'.
      * intros Hpackets. apply Forall_cons in Hpackets as [_ Hpackets].
        by apply Hok.
    + cbn [mbind result_bind]. split; [done |]. intros Hpackets.
      apply Forall_cons in Hpackets as [[? ?] _]. lia.
Qed.

(** X16.  The invariants of the cache hold after any sequence of its
    operations, in any order: starting from a constructed cache, whenever
    a sequence of [insert], [get], [purgeExpired], [expunge] and
    [expungeByName] calls has returned, every shard counter equals the
    size of its map, no shard is above its capacity, the configuration is
    the constructed one, and [getSize] is at most [maxEntries].  The only
    exception that can end such a sequence is the [range_error] of a
    [get], and with every [get] given a packet that holds its header and
    qname the sequence does return. *)
Theorem operations_keep_invariants maxEntries maxTTL minTTL tempFailureTTL
    staleTTL dontAge shards deferrableInsertLock ops :
  0 < shards < 2 ^ 32 -> 0 <= maxEntries < 2 ^ 64 ->
  Forall inRange ops ->
  let c0 := construct maxEntries maxTTL minTTL tempFailureTTL staleTTL dontAge
              shards deferrableInsertLock in
  let run := runOperations burtle getDNSPacketMinTTL ageDNSPacket iteration
               isPartOf c0 ops in
  match run with
  | Ok c =>
      wf c /\ withinCapacity c /\ d_config c = d_config c0
      /\ exists n, getSize c = Ok n /\ 0 <= n <= maxEntries
  | Throw e => e = range_error
  end
  /\ (Forall (fun op =>
                match op with
                | OpGet dq consumed _ _ _ _ _ _ _ _ =>
                    sizeof_dnsheader <= dq_len dq
                    /\ sizeof_dnsheader + consumed <= dq_len dq
                | _ => True
                end) ops ->
      exists c, run = Ok c).
Proof.
  intros HS HM Hrange c0 run.
  destruct (construct_inv maxEntries maxTTL minTTL tempFailureTTL staleTTL
              dontAge shards deferrableInsertLock HS HM) as [Hwf0 Hcap0].
  pose proof (runOperations_inv ops _ Hwf0 Hcap0 Hrange) as Hinv.
  cbn zeta in Hinv. exact Hinv.
Qed.

End Reachable.

(** ** Fresh and undersized caches *)

Section Fresh.

Variable burtle : list byte -> Z -> Z.
Variable getDNSPacketMinTTL : list byte -> Z -> Z.
Variable ageDNSPacket : list byte -> Z -> Z -> list byte.

Lemma construct_entryAt maxEntries maxTTL minTTL tempFailureTTL staleTTL
    dontAge shards deferrableInsertLock key :
  entryAt (construct maxEntries maxTTL minTTL tempFailureTTL staleTTL dontAge
             shards deferrableInsertLock) key = None.
Proof.
  unfold entryAt, shardOf.
  destruct (getShardIndex _ key) as [i|]; cbn [mbind result_bind]; [| done].
  unfold vector_at. destruct (i <? 0); [done |]. cbn [d_shards construct].
  destruct (replicate _ _ !! Z.to_nat i) as [shard|] eqn:Hi; [| done].
  apply lookup_replicate in Hi as [-> _]. apply lookup_empty.
Qed.

(** X17.  A freshly constructed cache holds nothing: its size is 0, it
    is full only when [maxEntries] is 0, and every lookup that obtains
    the read lock is a counted miss that leaves the caller's buffer
    alone. *)
Theorem construct_empty maxEntries maxTTL minTTL tempFailureTTL staleTTL
    dontAge shards deferrableInsertLock :
  0 < shards < 2 ^ 32 -> 0 <= maxEntries < 2 ^ 64 ->
  let c := construct maxEntries maxTTL minTTL tempFailureTTL staleTTL dontAge
             shards deferrableInsertLock in
  getSize c = Ok 0
  /\ isFull c = Ok (maxEntries =? 0)
  /\ forall dq consumed queryId response responseLen keyOut allowExpired
       skipAging now key,
       queryKey burtle dq consumed = Ok key ->
       get burtle ageDNSPacket c dq consumed queryId response responseLen
         keyOut allowExpired skipAging now true
       = Ok (mkLookup false response responseLen (keySlot keyOut key),
             incr_misses c).
Proof.
  intros HS HM c.
  destruct (construct_inv maxEntries maxTTL minTTL tempFailureTTL staleTTL
              dontAge shards deferrableInsertLock HS HM) as [Hwf Hcap].
  fold c in Hwf, Hcap.
  destruct (getSize_total c Hwf Hcap) as [Hsize _].
  assert (totalEntries (d_shards c) = 0) as Hzero.
  { subst c. cbn [d_shards construct]. generalize (Z.to_nat shards).
    intros n. induction n as [|n IH]; [done |].
    cbn [replicate]. rewrite totalEntries_cons, IH. cbn.
    by rewrite map_size_empty. }
  rewrite Hzero in Hsize. split; [done |]. split.
  - unfold isFull. rewrite Hsize. cbn. f_equal.
    destruct (Z.eqb_spec maxEntries 0) as [-> | Hne]; [done |].
    destruct (Z.geb_spec 0 maxEntries); [lia | done].
  - intros * Hkey.
    destruct (get_keyed burtle ageDNSPacket c dq consumed queryId response
                responseLen keyOut allowExpired skipAging now true key Hwf
                Hkey) as (shard & Hshard & _ & Hmiss).
    apply Hmiss; [done |].
    pose proof (construct_entryAt maxEntries maxTTL minTTL tempFailureTTL
                  staleTTL dontAge shards deferrableInsertLock key) as Hnone.
    fold c in Hnone. unfold entryAt in Hnone. by rewrite Hshard in Hnone.
Qed.

(** X18.  A cache constructed with fewer entries than shards never
    stores anything: the capacity of a shard is then
    [maxEntries / shards = 0], and every [insert] of every sequence is
    dropped. *)
Theorem undersized_cache_stores_nothing maxEntries maxTTL minTTL
    tempFailureTTL staleTTL dontAge shards deferrableInsertLock calls :
  0 <= maxEntries < shards -> shards < 2 ^ 32 ->
  let c0 := construct maxEntries maxTTL minTTL tempFailureTTL staleTTL dontAge
              shards deferrableInsertLock in
  exists c,
    insertAll getDNSPacketMinTTL c0 calls = Ok c
    /\ d_shards c = d_shards c0
    /\ getSize c = Ok 0
    /\ forall key, entryAt c key = None.
Proof.
  intros HM HS c0.
  destruct (construct_inv maxEntries maxTTL minTTL tempFailureTTL staleTTL
              dontAge shards deferrableInsertLock ltac:(lia) ltac:(lia))
    as [Hwf0 Hcap0].
  fold c0 in Hwf0, Hcap0.
  assert (forall c, wf c -> d_config c = d_config c0 ->
            d_shards c = d_shards c0 ->
            exists c',
              insertAll getDNSPacketMinTTL c calls = Ok c'
              /\ wf c' /\ d_config c' = d_config c0
              /\ d_shards c' = d_shards c0) as Hall.
  { induction calls as [|call calls IH]; intros c Hwf Hcfg Hshards;
      [by exists c |].
    destruct (wf_shardOf c (ic_key call) Hwf) as (i & shard & Hi & _ & Hs).
    destruct (insert_full_shard getDNSPacketMinTTL c (ic_key call)
                (ic_qname call) (ic_qtype call) (ic_qclass call)
                (ic_response call) (ic_responseLen call) (ic_tcp call)
                (ic_rcode call) (ic_tempFailureTTL call) (ic_now call)
                (ic_gotIt call) shard) as (c1 & Hrun & Hsame).
    { apply shardOf_Ok. by exists i. }
    { unfold shardCapacity. rewrite Hcfg. cbn.
      rewrite Z.div_small by lia.
      apply vector_at_Ok in Hs as [_ Hs].
      rewrite (Forall_lookup_1 _ _ _ _ (wf_counts c Hwf) Hs). lia. }
    pose proof (insert_config _ _ _ _ _ _ _ _ _ _ _ _ _ _ Hrun) as Hcfg1.
    destruct (IH c1) as (c' & Hrest & Hrest').
    { apply (wf_same c); done. }
    { congruence. }
    { congruence. }
    exists c'. cbn [insertAll]. rewrite Hrun. done. }
  destruct (Hall c0 Hwf0 eq_refl eq_refl) as (c & Hrun & Hwf & Hcfg & Hshards).
  exists c. split; [done |]. split; [done |].
  assert (withinCapacity c) as Hcap
    by (apply (withinCapacity_same c0); done).
  destruct (getSize_total c Hwf Hcap) as [Hsize Hbound].
  rewrite Hcfg in Hbound. cbn in Hbound.
  split.
  - rewrite Hsize. f_equal.
    pose proof (totalEntries_bound _ _ Hcap) as Hb.
    unfold shardCapacity in Hb. rewrite Hcfg in Hb. cbn in Hb.
    rewrite Z.div_small in Hb by lia. lia.
  - intros key.
    pose proof (construct_entryAt maxEntries maxTTL minTTL tempFailureTTL
                  staleTTL dontAge shards deferrableInsertLock key) as Hnone.
    fold c0 in Hnone. unfold entryAt, shardOf, getShardIndex in *.
    by rewrite Hcfg, Hshards.
Qed.

End Fresh.

(** ** The further properties on concrete data *)

Lemma sampleCache_wf : wf sampleCache /\ withinCapacity sampleCache.
Proof. apply construct_inv; split; vm_compute; done. Qed.

(** X2 on the sample cache: a packet of two bytes makes [get] throw. *)
Lemma get_throws_iff_short_witness :
  get sampleHash sampleAge cacheWww shortQuery 17 sampleQueryId sampleBuffer
    64 None 0 false 1100 true = Throw range_error.
Proof.
  destruct (get_throws_iff_short sampleHash sampleAge cacheWww shortQuery 17
              sampleQueryId sampleBuffer 64 None 0 false 1100 true
              (proj1 cacheWww_wf)) as [Hshort _].
  apply Hshort. left. vm_compute; reflexivity.
Defined.

(** X3 on the hit of the sample cache at time 1100 with ageing skipped:
    the key is written out, the shards are as before and [d_hits] is the
    counter that moved. *)
Lemma get_effects_witness :
  (exists key,
     queryKey sampleHash (sampleQuery www_example_com) 17 = Ok key
     /\ Some wwwKey = keySlot (Some 0) key)
  /\ d_shards (incr_hits cacheWww) = d_shards cacheWww.
Proof.
  destruct (get_effects sampleHash sampleAge cacheWww
              (sampleQuery www_example_com) 17 sampleQueryId sampleBuffer 64
              (Some 0) 0 true 1100 true
              (mkLookup true
                 (spliceBody (spliceHeader sampleBuffer sampleQueryId entryWww)
                    (toDNSString www_example_com) entryWww) 49 (Some wwwKey))
              (incr_hits cacheWww))
    as (Hkey & Hshards & _); [vm_compute; reflexivity |].
  split; [exact Hkey | exact Hshards].
Defined.

(** X4 on the sample cache: the query for [example.com] has a key that
    the cache does not hold, and is a counted miss. *)
Lemma get_missing_key_witness :
  get sampleHash sampleAge cacheWww (sampleQuery example_com) 13
    sampleQueryId sampleBuffer 64 None 0 false 1100 true
  = Ok (mkLookup false sampleBuffer 64 None, incr_misses cacheWww).
Proof.
  apply (get_missing_key sampleHash sampleAge cacheWww
           (sampleQuery example_com) 13 sampleQueryId sampleBuffer 64 None 0
           false 1100 exampleKey (proj1 cacheWww_wf));
    vm_compute; reflexivity.
Defined.

(** X5 on the hit of the sample cache with ageing skipped: the buffer of
    64 bytes keeps its length, and the bytes from 49 on are untouched. *)
Lemma get_stays_in_buffer_witness :
  let packet := spliceBody (spliceHeader sampleBuffer sampleQueryId entryWww)
                  (toDNSString www_example_com) entryWww in
  length packet = length sampleBuffer
  /\ forall i, 49 <= Z.of_nat i -> packet !! i = sampleBuffer !! i.
Proof.
  cbn zeta.
  apply (get_stays_in_buffer sampleHash sampleAge cacheWww
           (sampleQuery www_example_com) 17 sampleQueryId sampleBuffer 64
           None 0 true 1100 true
           (mkLookup true
              (spliceBody (spliceHeader sampleBuffer sampleQueryId entryWww)
                 (toDNSString www_example_com) entryWww) 49 None)
           (incr_hits cacheWww)).
  - vm_compute; reflexivity.
  - vm_compute; intros; discriminate.
  - right. reflexivity.
Defined.

(** X6 on the sample cache: the query for [WWW.example.com] is served by
    the entry of [www.example.com]. *)
Lemma get_case_variant_witness :
  queryKey sampleHash (sampleQuery WWW_example_com) 17 = Ok wwwKey
  /\ get sampleHash sampleAge cacheWww (sampleQuery WWW_example_com) 17
       sampleQueryId sampleBuffer 64 None 0 false 1100 true
     = Ok (mkLookup true
             (agedResponse sampleAge cacheWww (sampleQuery WWW_example_com)
                sampleQueryId sampleBuffer false entryWww 100)
             49 None, incr_hits cacheWww).
Proof.
  apply (get_case_variant sampleHash sampleAge cacheWww
           (sampleQuery www_example_com) (sampleQuery WWW_example_com) 17
           sampleQueryId sampleBuffer 64 None 0 false 1100 wwwKey entryWww).
  - vm_compute; reflexivity.
  - vm_compute; reflexivity.
  - split; [vm_compute; reflexivity |].
    split; [| right]; vm_compute; intros; discriminate.
  - vm_compute; intros; discriminate.
  - vm_compute; reflexivity.
  - reflexivity.
  - reflexivity.
  - reflexivity.
  - reflexivity.
  - intros i Hi. unfold sizeof_dnsheader in Hi.
    do 33 (destruct i as [|i]; [first [reflexivity | exfalso; lia] |]).
    reflexivity.
Defined.

(** X7 on the insertion that makes [cacheWww]: the key of [example.com]
    is as empty after it as before. *)
Lemma insert_frame_witness :
  entryAt cacheWww exampleKey = entryAt sampleCache exampleKey
  /\ d_config cacheWww = d_config sampleCache.
Proof.
  destruct (insert_frame sampleMinTTL sampleCache wwwKey www_example_com 1 1
              (responsePacket www_example_com) 49 false RCode.NoError None
              1000 true cacheWww) as (Hother & Hcfg & _);
    [vm_compute; reflexivity |].
  split; [| exact Hcfg].
  apply Hother. vm_compute; intros; discriminate.
Defined.

(** X8 on the same insertion: the entry lives for the 300 seconds of the
    packet, between the configured 0 and 86400. *)
Lemma insert_ttl_bounds_witness :
  added entryWww = 1000
  /\ validity entryWww - added entryWww
     = Z.min (sampleMinTTL (responsePacket www_example_com) 49)
         (d_maxTTL (d_config sampleCache))
  /\ d_minTTL (d_config sampleCache) <= validity entryWww - added entryWww
     <= d_maxTTL (d_config sampleCache)
  /\ sampleMinTTL (responsePacket www_example_com) 49 <> uint32_max.
Proof.
  apply (insert_ttl_bounds sampleMinTTL sampleCache wwwKey www_example_com 1
           1 (responsePacket www_example_com) 49 false RCode.NoError None
           1000 true cacheWww entryWww).
  - vm_compute; intros; discriminate.
  - vm_compute; intros; discriminate.
  - vm_compute; reflexivity.
  - vm_compute; reflexivity.
  - vm_compute; intros; discriminate.
Defined.

(** X9 on the same insertion: the size goes from 0 to 1. *)
Lemma insert_size_step_witness :
  exists n,
    getSize sampleCache = Ok n
    /\ getSize cacheWww
       = Ok (n + match entryAt sampleCache wwwKey, entryAt cacheWww wwwKey with
                 | None, Some _ => 1
                 | _, _ => 0
                 end)
    /\ (is_Some (entryAt sampleCache wwwKey) ->
        is_Some (entryAt cacheWww wwwKey)).
Proof.
  apply (insert_size_step sampleMinTTL sampleCache wwwKey www_example_com 1 1
           (responsePacket www_example_com) 49 false RCode.NoError None 1000
           true cacheWww (proj1 sampleCache_wf) (proj2 sampleCache_wf)).
  vm_compute; reflexivity.
Defined.

(** X10 on a cache of at most 10 entries in 3 shards: it is never
    full. *)
Lemma isFull_spec_witness :
  isFull (construct 10 86400 0 60 60 false 3 false) = Ok false.
Proof.
  destruct (construct_inv 10 86400 0 60 60 false 3 false) as [Hwf Hcap];
    [split; vm_compute; done ..|].
  destruct (isFull_spec (construct 10 86400 0 60 60 false 3 false) Hwf Hcap)
    as [_ Hnever].
  apply Hnever. vm_compute; intros; discriminate.
Defined.

(** X11 on the sample cache: expunging [example.com] with [suffixMatch]
    removes the entry of [www.example.com]. *)
Lemma expungeByName_spec_witness :
  exists c',
    expungeByName map_to_list sampleIsPartOf cacheWww example_com QType.ANY
      true = Ok c'
    /\ entryAt c' wwwKey = None /\ wf c'.
Proof.
  destruct (expungeByName_spec map_to_list sampleIsPartOf
              (fun m => Permutation_refl (map_to_list m)) cacheWww example_com
              QType.ANY true (proj1 cacheWww_wf) (proj2 cacheWww_wf))
    as (c' & Hrun & Hwf & _ & _ & _ & _ & Hentry).
  exists c'. split; [exact Hrun |]. split; [| exact Hwf].
  rewrite Hentry. vm_compute; reflexivity.
Defined.

(** X12 on the sample cache: after [www.example.com] has been expunged,
    its lookup misses. *)
Lemma expungeByName_then_get_witness :
  expungeByName map_to_list sampleIsPartOf cacheWww www_example_com QType.ANY
    false = Ok cacheInvalidated
  /\ get sampleHash sampleAge cacheInvalidated (sampleQuery www_example_com)
       17 sampleQueryId sampleBuffer 64 None 0 false 1100 true
     = Ok (mkLookup false sampleBuffer 64 None, incr_misses cacheInvalidated)
  /\ lk_hit (mkLookup false sampleBuffer 64 None) = false.
Proof.
  split; [vm_compute; reflexivity |]. split; [vm_compute; reflexivity |].
  apply (expungeByName_then_get sampleHash sampleAge map_to_list
           sampleIsPartOf (fun m => Permutation_refl (map_to_list m))
           cacheWww www_example_com QType.ANY false cacheInvalidated
           (sampleQuery www_example_com) 17 sampleQueryId sampleBuffer 64 None
           0 false 1100 true (mkLookup false sampleBuffer 64 None)
           (incr_misses cacheInvalidated) (proj1 cacheWww_wf)
           (proj2 cacheWww_wf)).
  - vm_compute; reflexivity.
  - vm_compute; reflexivity.
  - left. reflexivity.
  - vm_compute; reflexivity.
Defined.

(** X13 on the sample cache: [expunge 0] leaves at most the one entry
    there was. *)
Lemma expunge_bounds_witness :
  exists c' n',
    expunge map_to_list cacheWww 0 = Ok c' /\ getSize c' = Ok n'
    /\ 0 <= n' <= 1.
Proof.
  destruct (expunge_bounds map_to_list
              (fun m => Permutation_refl (map_to_list m)) cacheWww 0
              (proj1 cacheWww_wf) (proj2 cacheWww_wf))
    as (c' & n & n' & Hn & Hrun & Hn' & _ & _ & _ & _ & _ & _ & _ & Hless);
    [vm_compute; intros; discriminate |].
  exists c', n'. split; [exact Hrun |]. split; [exact Hn' |].
  assert (n = 1) as -> by (vm_compute in Hn; congruence).
  apply Hless. vm_compute; reflexivity.
Defined.

(** X14 on the sample cache, whose entry is in the last shard:
    [expunge 0] empties it. *)
Lemma expunge_exact_witness :
  exists c', expunge map_to_list cacheWww 0 = Ok c' /\ getSize c' = Ok 0.
Proof.
  apply (expunge_exact map_to_list
           (fun m => Permutation_refl (map_to_list m)) cacheWww 0
           (mkCacheShard {[wwwKey := entryWww]} 1) (proj1 cacheWww_wf)
           (proj2 cacheWww_wf)).
  - vm_compute; intros; discriminate.
  - vm_compute; reflexivity.
  - vm_compute; reflexivity.
  - left. vm_compute; intros; discriminate.
Defined.

Lemma cacheWrapping_wf : wf cacheWrapping /\ withinCapacity cacheWrapping.
Proof.
  split; [split |]; try (vm_compute; done);
    repeat constructor; vm_compute; done.
Qed.

(** X15 on the purge of the sample cache at time 2000: both shards are
    scanned, the rotation index goes from 0 to 2, and the next call
    starts with shard 0 again, the shard after shard 1.  On the cache
    whose index is about to wrap around, the purge down to two entries
    makes one pass, over shard 0, the index wraps to 0 and the next call
    starts with shard 0 once more. *)
Lemma purgeExpired_rotation_witness :
  (d_expungeIndex cachePurged = wrap32 (d_expungeIndex cacheWww + 2)
   /\ d_stats cachePurged = d_stats cacheWww
   /\ getShardIndex cachePurged (d_expungeIndex cachePurged) = Ok 0
   /\ passShard cacheWww 2
      = (passShard cacheWww 1 + 1) mod d_shardCount (d_config cacheWww))
  /\ (passShard cacheWrapping 0 = 0
      /\ d_expungeIndex cacheWrapped = 0
      /\ getShardIndex cacheWrapped (d_expungeIndex cacheWrapped)
         = Ok (passShard cacheWrapping 1)
      /\ passShard cacheWrapping 1 = 0).
Proof.
  split.
  - destruct (purgeExpired_rotation map_to_list
                (fun m => Permutation_refl (map_to_list m)) cacheWww 0 2000
                cachePurged 0 2 (proj1 cacheWww_wf) (proj2 cacheWww_wf))
      as (_ & Hstats & Hindex & _ & _ & _ & _ & Hnext & Hafter & _).
    + split; vm_compute; [intros; discriminate | reflexivity].
    + vm_compute; reflexivity.
    + split; [exact Hindex |]. split; [exact Hstats |].
      split; [exact Hnext |].
      apply Hafter; vm_compute; [intros; discriminate | reflexivity].
  - destruct (purgeExpired_rotation map_to_list
                (fun m => Permutation_refl (map_to_list m)) cacheWrapping 2
                2000 cacheWrapped 0 1 (proj1 cacheWrapping_wf)
                (proj2 cacheWrapping_wf))
      as (_ & _ & Hindex & _ & _ & _ & _ & Hnext & _ & Hwrapped).
    + split; vm_compute; [intros; discriminate | reflexivity].
    + vm_compute; reflexivity.
    + split; [vm_compute; reflexivity |].
      split; [exact Hindex |]. split; [exact Hnext |].
      rewrite Hwrapped by (vm_compute; intros; discriminate).
      vm_compute; reflexivity.
Defined.

(** X16 on one call of each operation, from the sample configuration:
    the sequence returns. *)
Lemma operations_keep_invariants_witness :
  exists c,
    runOperations sampleHash sampleMinTTL sampleAge map_to_list sampleIsPartOf
      sampleCache sampleOperations = Ok c.
Proof.
  destruct (operations_keep_invariants sampleHash sampleMinTTL sampleAge
              map_to_list sampleIsPartOf
              (fun m => Permutation_refl (map_to_list m)) 10 86400 0 60 60
              false 2 false sampleOperations) as [_ Hreturns].
  - split; vm_compute; reflexivity.
  - split; vm_compute; [intros; discriminate | reflexivity].
  - repeat (constructor; [first [exact I | vm_compute; intros; discriminate]
                         |]).
    constructor.
  - apply Hreturns.
    repeat (constructor;
            [first [exact I
                   | split; vm_compute; intros; discriminate] |]).
    constructor.
Defined.

(** X17 on the sample configuration. *)
Lemma construct_empty_witness :
  getSize sampleCache = Ok 0 /\ isFull sampleCache = Ok false.
Proof.
  destruct (construct_empty sampleHash sampleAge 10 86400 0 60 60 false 2
              false) as (Hsize & Hfull & _).
  - split; vm_compute; reflexivity.
  - split; vm_compute; [intros; discriminate | reflexivity].
  - split; [exact Hsize | exact Hfull].
Defined.

(** X18 on a cache of at most 1 entry in 2 shards: an insertion leaves it
    empty. *)
Lemma undersized_cache_stores_nothing_witness :
  exists c,
    insertAll sampleMinTTL (construct 1 86400 0 60 60 false 2 false)
      [mkInsertCall wwwKey www_example_com 1 1
         (responsePacket www_example_com) 49 false RCode.NoError None 1000
         true] = Ok c
    /\ getSize c = Ok 0.
Proof.
  destruct (undersized_cache_stores_nothing sampleMinTTL 1 86400 0 60 60
              false 2 false
              [mkInsertCall wwwKey www_example_com 1 1
                 (responsePacket www_example_com) 49 false RCode.NoError None
                 1000 true])
    as (c & Hrun & _ & Hsize & _).
  - split; vm_compute; [intros; discriminate | reflexivity].
  - vm_compute; reflexivity.
  - exists c. split; [exact Hrun | exact Hsize].
Defined.

(** ** Calls that do not obtain their lock *)

Section Contention.

Variable burtle : list byte -> Z -> Z.
Variable getDNSPacketMinTTL : list byte -> Z -> Z.
Variable ageDNSPacket : list byte -> Z -> Z -> list byte.

(** X19.  A call whose try-lock fails changes no map.  An [insert] on the
    deferrable path that does not obtain the write lock leaves every shard
    as it was, and the only counters it can move are [d_ttlTooShorts]
    (the response was dropped before the lock) and [d_deferredInserts]; a
    [get] that does not obtain the read lock returns false with the
    buffer and the length as given, and adds one to [d_deferredLookups]
    and to nothing else. *)
Theorem contended_calls c :
  (forall key qn qt qc response responseLen tc rcode tempFailureTTL now c',
     d_deferrableInsertLock (d_config c) = true ->
     insert getDNSPacketMinTTL c key qn qt qc response responseLen tc rcode
       tempFailureTTL now false = Ok c' ->
     c' = c \/ c' = incr_ttlTooShorts c \/ c' = incr_deferredInserts c)
  /\ (forall dq consumed queryId response responseLen keyOut allowExpired
        skipAging now lk c',
        get burtle ageDNSPacket c dq consumed queryId response responseLen
          keyOut allowExpired skipAging now false = Ok (lk, c') ->
        lk_hit lk = false /\ lk_response lk = response
        /\ lk_responseLen lk = responseLen
        /\ c' = incr_deferredLookups c).
Proof.
  split.
  - intros * Hdefer Hrun. unfold insert in Hrun.
    destruct (_ <? _) in Hrun; [simplify_eq; by left |].
    destruct (insertTTL _ _ _ _ _ _) as [c0|ttl] eqn:Httl.
    { simplify_eq. unfold insertTTL in Httl.
      repeat match type of Httl with
             | (if ?b then _ else _) = _ => destruct b
             end; simplify_eq; eauto. }
    destruct (getShardIndex c key) as [i|];
      cbn [mbind result_bind] in Hrun; [| done].
    destruct (vector_at (d_shards c) i) as [s|];
      cbn [mbind result_bind] in Hrun; [| done].
    destruct (_ >=? _) in Hrun; [simplify_eq; by left |].
    rewrite Hdefer in Hrun. cbn [negb] in Hrun. simplify_eq. eauto.
  - intros * Hrun. unfold get in Hrun.
    destruct (getKey _ _ _ _ _ _) as [key|];
      cbn [mbind result_bind] in Hrun; [| done].
    destruct (getShardIndex c key) as [i|];
      cbn [mbind result_bind] in Hrun; [| done].
    destruct (vector_at (d_shards c) i) as [shard|];
      cbn [mbind result_bind] in Hrun; [| done].
    cbn [negb] in Hrun. by simplify_eq.
Qed.

End Contention.

(** X19 on a cache with the deferrable insert lock: an insertion that
    does not obtain the lock only counts a deferred insert. *)
Lemma contended_calls_witness :
  let c := construct 10 86400 0 60 60 false 2 true in
  insert sampleMinTTL c wwwKey www_example_com 1 1
    (responsePacket www_example_com) 49 false RCode.NoError None 1000 false
  = Ok (incr_deferredInserts c)
  /\ (incr_deferredInserts c = c
      \/ incr_deferredInserts c = incr_ttlTooShorts c
      \/ incr_deferredInserts c = incr_deferredInserts c).
Proof.
  cbn zeta. split; [vm_compute; reflexivity |].
  destruct (contended_calls sampleHash sampleMinTTL sampleAge
              (construct 10 86400 0 60 60 false 2 true)) as [Hinsert _].
  apply (Hinsert wwwKey www_example_com 1 1 (responsePacket www_example_com)
           49 false RCode.NoError None 1000);
    vm_compute; reflexivity.
Defined.
